(** * resume-analyzer: the step orchestrator and the derived metrics

    A shallow embedding of [lib/sequential-thinking.ts] (class
    [SequentialThinking]) and of the parts of [lib/resume-analyzer.ts]
    (class [ResumeAnalyzer]) that decide the properties stated in the
    design document: language detection, years of experience, the AI
    tag, the experience assessment and the assembly of the final record.

    Conventions.
    - A JavaScript string is the list of its UTF-16 code units
      ([list Z]); [js "..."] turns a literal of this file (UTF-8) into
      that list, so that the literals read as they do in the source.
    - A JavaScript number that the code only uses as an integer is a [Z].
    - [undefined] in an optional position is [None].
    - The wall clock is an oracle [now : nat -> Z]: the k-th evaluation
      of [new Date()] by the orchestrator yields [now k].
    - [await] is sequential composition: one logical thread runs the
      pipeline and nothing interleaves with it. *)

From Stdlib Require Import ZArith QArith Lia String Ascii.
From Stdlib Require Import Decimal DecimalNat.
From Stdlib Require Import Floats.PrimFloat Numbers.Cyclic.Int63.Uint63.
From Stdlib Require Import Permutation Sorted.
From stdpp Require Import base option list gmap strings.

(* ===================================================================== *)
(** * Part I: definitions                                                 *)
(* ===================================================================== *)

(** ** JavaScript strings *)

Abbreviation jsstring := (list Z).

Module JS.

(** Decoding of the UTF-8 bytes of a literal into UTF-16 code units. *)
Fixpoint utf16 (bs : list Z) : list Z :=
  match bs with
  | [] => []
  | b0 :: r0 =>
    if (b0 <? 128)%Z then b0 :: utf16 r0
    else match r0 with
    | [] => [b0]
    | b1 :: r1 =>
      if (b0 <? 224)%Z then ((b0 - 192) * 64 + (b1 - 128))%Z :: utf16 r1
      else match r1 with
      | [] => [b0; b1]
      | b2 :: r2 =>
        if (b0 <? 240)%Z
        then ((b0 - 224) * 4096 + (b1 - 128) * 64 + (b2 - 128))%Z :: utf16 r2
        else match r2 with
        | [] => [b0; b1; b2]
        | b3 :: r3 =>
          let cp := ((b0 - 240) * 262144 + (b1 - 128) * 4096
                     + (b2 - 128) * 64 + (b3 - 128))%Z in
          let v := (cp - 65536)%Z in
          (55296 + v / 1024)%Z :: (56320 + v mod 1024)%Z :: utf16 r3
        end
      end
    end
  end.

Fixpoint bytes (s : string) : list Z :=
  match s with
  | EmptyString => []
  | String a r => Z.of_N (N_of_ascii a) :: bytes r
  end.

Definition lit (s : string) : jsstring := utf16 (bytes s).

(** [Number.prototype.toString] on a non-negative integer. *)
Fixpoint digits (d : Decimal.uint) : jsstring :=
  match d with
  | Nil => []
  | D0 r => 48%Z :: digits r
  | D1 r => 49%Z :: digits r
  | D2 r => 50%Z :: digits r
  | D3 r => 51%Z :: digits r
  | D4 r => 52%Z :: digits r
  | D5 r => 53%Z :: digits r
  | D6 r => 54%Z :: digits r
  | D7 r => 55%Z :: digits r
  | D8 r => 56%Z :: digits r
  | D9 r => 57%Z :: digits r
  end.

Definition toString (n : nat) : jsstring := digits (Nat.to_uint n).

(** [s.startsWith(p)] *)
Fixpoint startsWith (p s : jsstring) : bool :=
  match p, s with
  | [], _ => true
  | _ :: _, [] => false
  | a :: p', b :: s' => if decide (a = b) then startsWith p' s' else false
  end.

(** [s.includes(p)] *)
Fixpoint includes (s p : jsstring) : bool :=
  startsWith p s ||
  match s with
  | [] => false
  | _ :: s' => includes s' p
  end.

(** [parts.join(sep)] *)
Fixpoint join (sep : jsstring) (parts : list jsstring) : jsstring :=
  match parts with
  | [] => []
  | [p] => p
  | p :: rest => p ++ sep ++ join sep rest
  end.

(** Lower-casing of the ASCII letters.  The source calls the built-in
    [String.prototype.toLowerCase], which also maps letters outside
    ASCII; the definitions below take the built-in as a parameter and
    the examples instantiate it with this function. *)
Definition lower_unit (c : Z) : Z :=
  if ((65 <=? c) && (c <=? 90))%Z then (c + 32)%Z else c.

Definition asciiLower (s : jsstring) : jsstring := map lower_unit s.

(** [s.toUpperCase()] on the ASCII letters, as far as the
    case-insensitive matching below needs it. *)
Definition upper_unit (c : Z) : Z :=
  if ((97 <=? c) && (c <=? 122))%Z then (c - 32)%Z else c.

(** [s.split(sep)] for a separator of one code unit. *)
Fixpoint split (sep : Z) (s : jsstring) : list jsstring :=
  match s with
  | [] => [[]]
  | c :: s' =>
    if decide (c = sep) then [] :: split sep s'
    else match split sep s' with
         | [] => [[c]]
         | p :: ps => (c :: p) :: ps
         end
  end.

Definition isDigit (c : Z) : bool := ((48 <=? c) && (c <=? 57))%Z.

(** White space and line terminators, which [parseInt] skips. *)
Definition isWhiteSpace (c : Z) : bool :=
  bool_decide (c ∈ [9; 10; 11; 12; 13; 32; 160; 5760; 8232; 8233; 8239; 8287;
                    12288; 65279]%Z)
  || ((8192 <=? c) && (c <=? 8202))%Z.

Fixpoint dropWhile {A} (f : A -> bool) (l : list A) : list A :=
  match l with
  | [] => []
  | x :: l' => if f x then dropWhile f l' else l
  end.

Fixpoint takeWhile {A} (f : A -> bool) (l : list A) : list A :=
  match l with
  | [] => []
  | x :: l' => if f x then x :: takeWhile f l' else []
  end.

Definition digitValue (c : Z) : option Z :=
  if isDigit c then Some (c - 48)%Z
  else if ((97 <=? c) && (c <=? 102))%Z then Some (c - 87)%Z
  else if ((65 <=? c) && (c <=? 70))%Z then Some (c - 55)%Z
  else None.

(** The longest prefix of digits in [radix], read as a number. *)
Fixpoint readDigits (radix : Z) (acc : option Z) (s : jsstring) : option Z :=
  match s with
  | [] => acc
  | c :: s' =>
    match digitValue c with
    | Some d =>
      if (d <? radix)%Z then readDigits radix (Some (default 0 acc * radix + d))%Z s'
      else acc
    | None => acc
    end
  end.

(** [parseInt(s)] without a radix: [None] is [NaN].  The integer is
    exact here; the source gets the nearest double, which is the same
    number below 2^53. *)
Definition parseInt (s : jsstring) : option Z :=
  let s1 := dropWhile isWhiteSpace s in
  let '(sign, s2) := match s1 with
                     | 45%Z :: r => ((-1)%Z, r)
                     | 43%Z :: r => (1%Z, r)
                     | _ => (1%Z, s1)
                     end in
  let '(radix, s3) := match s2 with
                      | 48%Z :: 120%Z :: r => (16%Z, r)
                      | 48%Z :: 88%Z :: r => (16%Z, r)
                      | _ => (10%Z, s2)
                      end in
  (fun n => sign * n)%Z <$> readDigits radix None s3.

(** [x || fallback] for a number [x]: [NaN] and [0] are falsy. *)
Definition orElse (x : option Z) (fallback : Z) : Z :=
  match x with
  | Some 0%Z | None => fallback
  | Some n => n
  end.

(** [Number(s)] for a string of decimal digits; [None] is [NaN], which
    is what every other string made of the numerals of the patterns
    below converts to. *)
Definition Number (s : jsstring) : option Z :=
  match s with
  | [] => Some 0%Z
  | _ => if forallb isDigit s then readDigits 10 None s else None
  end.

(** [[...new Set(l)]]: the first occurrence of every element, in order. *)
Fixpoint uniq {A} `{EqDecision A} (seen : list A) (l : list A) : list A :=
  match l with
  | [] => []
  | x :: l' => if decide (x ∈ seen) then uniq seen l' else x :: uniq (x :: seen) l'
  end.

(** [Array.prototype.sort(compare)].  The sort is stable (ECMAScript
    2019), so for a comparator that is a consistent order the result is
    the one this insertion sort computes; [compare] gives the sign the
    source's comparator returns, with [NaN] read as 0, as the language
    does. *)
Fixpoint insert_sorted {A} (compare : A -> A -> Z) (x : A) (l : list A) : list A :=
  match l with
  | [] => [x]
  | y :: l' => if (compare x y <=? 0)%Z then x :: l
               else y :: insert_sorted compare x l'
  end.

Fixpoint sort {A} (compare : A -> A -> Z) (l : list A) : list A :=
  match l with
  | [] => []
  | x :: l' => insert_sorted compare x (sort compare l')
  end.

(** A list in ascending order of a key. *)
Definition ascending {A} (key : A -> Z) : list A -> Prop :=
  StronglySorted (fun a b => (key a <= key b)%Z).

(** *** Regular expressions

    The patterns of the source, as syntax trees, and the backtracking
    matcher of the language: alternatives left to right, greedy
    repetition, an iteration of a repetition has to consume input.
    With the flag [i] two code units match if they are the same up to
    the case of an ASCII letter; that is the whole effect of the flag
    on the patterns of this program, whose letters are ASCII and whose
    other code units (digits, punctuation, CJK ideographs) have no case
    variants. *)
Inductive regex :=
  | Empty
  | Unit (c : Z)
  | OneOf (units : jsstring) (ranges : list (Z * Z))
  | Then (r1 r2 : regex)
  | Or (r1 r2 : regex)
  | Many (r : regex)
  | Boundary.

Definition Lit (s : jsstring) : regex := foldr (fun c r => Then (Unit c) r) Empty s.

Definition Some1 (r : regex) : regex := Then r (Many r).

Definition sameUnit (i : bool) (c x : Z) : bool :=
  if i then bool_decide (upper_unit c = upper_unit x) else bool_decide (c = x).

Definition inClass (i : bool) (units : jsstring) (ranges : list (Z * Z)) (x : Z) : bool :=
  let member y :=
    bool_decide (y ∈ units)
    || existsb (fun '(lo, hi) => (lo <=? y) && (y <=? hi))%Z ranges in
  if i then member x || member (upper_unit x) || member (lower_unit x) else member x.

(** [\w] *)
Definition isWord (c : option Z) : bool :=
  match c with
  | None => false
  | Some x => isDigit x || ((65 <=? x) && (x <=? 90))%Z
              || ((97 <=? x) && (x <=? 122))%Z || bool_decide (x = 95%Z)
  end.

(** [run i r prev s k]: match [r] at the head of [s], the code unit
    before it being [prev], and go on with [k]; the result is the end of
    the whole match: the code unit before it and what is left. *)
Fixpoint run (i : bool) (r : regex) (prev : option Z) (s : jsstring)
    (k : option Z -> jsstring -> option (option Z * jsstring))
  : option (option Z * jsstring) :=
  match r with
  | Empty => k prev s
  | Unit c =>
    match s with
    | x :: s' => if sameUnit i c x then k (Some x) s' else None
    | [] => None
    end
  | OneOf units ranges =>
    match s with
    | x :: s' => if inClass i units ranges x then k (Some x) s' else None
    | [] => None
    end
  | Then r1 r2 => run i r1 prev s (fun prev' s' => run i r2 prev' s' k)
  | Or r1 r2 =>
    match run i r1 prev s k with
    | Some e => Some e
    | None => run i r2 prev s k
    end
  | Many r' =>
    (fix many (n : nat) (prev : option Z) (s : jsstring) :=
       match n with
       | O => k prev s
       | S n' =>
         match run i r' prev s
                 (fun prev' s' =>
                    if length s' <? length s then many n' prev' s' else None) with
         | Some e => Some e
         | None => k prev s
         end
       end) (length s) prev s
  | Boundary => if xorb (isWord prev) (isWord (head s)) then k prev s else None
  end.

(** The leftmost match at or after the head of [s]: the matched text,
    the code unit before the rest, and the rest. *)
Fixpoint exec (i : bool) (r : regex) (prev : option Z) (s : jsstring)
  : option (jsstring * option Z * jsstring) :=
  match run i r prev s (fun prev' s' => Some (prev', s')) with
  | Some (prev', rest) => Some (take (length s - length rest) s, prev', rest)
  | None =>
    match s with
    | [] => None
    | x :: s' => exec i r (Some x) s'
    end
  end.

(** [s.match(r)] for a pattern with the flag [g]: all the matches, left
    to right, without overlap; the empty list is [null]. *)
Fixpoint matchAll_from (fuel : nat) (i : bool) (r : regex) (prev : option Z)
    (s : jsstring) : list jsstring :=
  match fuel with
  | O => []
  | S fuel' =>
    match exec i r prev s with
    | None => []
    | Some (m, prev', rest) =>
      m :: match m, rest with
           | [], [] => []
           | [], x :: rest' => matchAll_from fuel' i r (Some x) rest'
           | _, _ => matchAll_from fuel' i r prev' rest
           end
    end
  end.

Definition matchAll (i : bool) (r : regex) (s : jsstring) : list jsstring :=
  matchAll_from (S (length s)) i r None s.

(** [s.trim()]: the white space and the line terminators at both ends
    go. *)
Definition trim (s : jsstring) : jsstring :=
  reverse (dropWhile isWhiteSpace (reverse (dropWhile isWhiteSpace s))).

(** [x || fallback] for a string or [undefined]: the empty string is
    falsy. *)
Definition orString (x : option jsstring) (fallback : jsstring) : jsstring :=
  match x with
  | Some (c :: s) => c :: s
  | _ => fallback
  end.

(** An integer in a template literal: its decimal digits, with a sign
    (the numbers this program prints are far below 10^21, where the
    language turns to the exponent notation). *)
Definition toStringZ (n : Z) : jsstring :=
  if (n <? 0)%Z then 45%Z :: toString (Z.to_nat (- n)) else toString (Z.to_nat n).

Global Arguments lit : simpl never.

End JS.

Abbreviation js := JS.lit.

(* --------------------------------------------------------------------- *)
(** ** [SequentialThinking]: the step orchestrator                        *)
(* --------------------------------------------------------------------- *)

Module SequentialThinking.

(** [status: 'pending' | 'processing' | 'completed' | 'error'] *)
Inductive Status := Pending | Processing | Completed | Error.

#[export] Instance Status_eq_dec : EqDecision Status.
Proof. solve_decision. Defined.

Section Orchestrator.

(** The type of the values the source types as [unknown]: what an
    executor returns and what the metadata bag holds. *)
Context {Value : Type}.

(** [interface ThinkingStep] *)
Record ThinkingStep := mkStep {
  id : jsstring;
  title : jsstring;
  description : jsstring;
  status : Status;
  result : option Value;
  error : option jsstring;
  timestamp : Z
}.

(** [interface SequentialThinkingContext] *)
Record SequentialThinkingContext := mkContext {
  steps : list ThinkingStep;
  currentStepIndex : Z;
  isProcessing : bool;
  metadata : gmap jsstring Value
}.

(** The constructor's argument: [Omit<ThinkingStep, 'id' | 'status' | 'timestamp'>]. *)
Record StepInit := mkInit {
  init_title : jsstring;
  init_description : jsstring;
  init_result : option Value;
  init_error : option jsstring
}.

(** An executor gets the live step and the live context: it returns the
    context as its side effects leave it and either the value the promise
    resolves with or the message of what it throws
    ([error instanceof Error ? error.message : String(error)]).  The
    array [steps] itself is only ever assigned by the constructor: an
    executor may write to the steps, not add or remove one. *)
Definition Executor : Type :=
  ThinkingStep -> SequentialThinkingContext ->
  SequentialThinkingContext * (Value + jsstring).

(** The state of one [SequentialThinking] object and of what surrounds
    it: the private context, the number of clock readings taken so far,
    and the calls made to [onStepUpdate], oldest first, each with the
    step and the context as they were at the call.  The observer is
    taken to return without throwing and without writing to what it is
    given; without an observer the list is what one would have seen. *)
Record World := mkWorld {
  context : SequentialThinkingContext;
  clock : nat;
  updates : list (ThinkingStep * SequentialThinkingContext)
}.

(** A method either returns or throws; the state survives both. *)
Inductive Res (A : Type) := Ret (a : A) | Throw (message : jsstring).
Global Arguments Ret {A} a.
Global Arguments Throw {A} message.

Definition M (A : Type) : Type := World -> Res A * World.

Definition ret {A} (a : A) : M A := fun w => (Ret a, w).

Definition throw {A} (message : jsstring) : M A := fun w => (Throw message, w).

Definition bind {A B} (m : M A) (k : A -> M B) : M B := fun w =>
  match m w with
  | (Ret a, w') => k a w'
  | (Throw e, w') => (Throw e, w')
  end.

(** Reading and writing [this]. *)
Definition get : M World := fun w => (Ret w, w).

Definition put (w : World) : M unit := fun _ => (Ret tt, w).

Local Notation "'do' x <- m ; k" := (bind m (fun x => k))
  (at level 10, x name, m at level 100, k at level 200).
Local Notation "m ;; k" := (bind m (fun _ => k))
  (at level 100, right associativity).

(** Field updates of the mutable records. *)
Definition set_steps (l : list ThinkingStep) (c : SequentialThinkingContext) :=
  mkContext l (currentStepIndex c) (isProcessing c) (metadata c).

Definition set_currentStepIndex (i : Z) (c : SequentialThinkingContext) :=
  mkContext (steps c) i (isProcessing c) (metadata c).

Definition set_isProcessing (b : bool) (c : SequentialThinkingContext) :=
  mkContext (steps c) (currentStepIndex c) b (metadata c).

Definition set_metadata (m : gmap jsstring Value) (c : SequentialThinkingContext) :=
  mkContext (steps c) (currentStepIndex c) (isProcessing c) m.

(** [step.status = 'processing'; step.timestamp = new Date()] *)
Definition begin_step (t : Z) (s : ThinkingStep) : ThinkingStep :=
  mkStep (id s) (title s) (description s) Processing (result s) (error s) t.

(** [step.result = result; step.status = 'completed'; step.timestamp = new Date()] *)
Definition complete_step (v : Value) (t : Z) (s : ThinkingStep) : ThinkingStep :=
  mkStep (id s) (title s) (description s) Completed (Some v) (error s) t.

(** [step.error = ...; step.status = 'error'; step.timestamp = new Date()] *)
Definition fail_step (message : jsstring) (t : Z) (s : ThinkingStep) : ThinkingStep :=
  mkStep (id s) (title s) (description s) Error (result s) (Some message) t.

Variable now : nat -> Z.

(** [constructor(steps, onStepUpdate)].  Every step reads the clock once. *)
Definition new_step (k : nat) (index : nat) (d : StepInit) : ThinkingStep :=
  mkStep (js "step-" ++ JS.toString index) (init_title d) (init_description d)
         Pending (init_result d) (init_error d) (now (k + index)).

Definition constructor (defs : list StepInit) : World :=
  mkWorld (mkContext (imap (new_step 0) defs) 0 false ∅) (length defs) [].

(** [this.context.steps.find(s => s.id === stepId)], with the position
    of the object found. *)
Definition find_step (stepId : jsstring) (l : list ThinkingStep)
  : option (nat * ThinkingStep) :=
  list_find (fun s => id s = stepId) l.

(** The object [step] refers to, read back from the array at its
    position ([fallback] if an executor has taken it out of the array). *)
Definition step_at (j : nat) (fallback : ThinkingStep) (c : SequentialThinkingContext) :=
  default fallback (steps c !! j).

(** The [try] block after the executor has resolved with [v]. *)
Definition on_success (j : nat) (v : Value) (t : Z) (c : SequentialThinkingContext) :=
  let c' := set_steps (alter (complete_step v t) j (steps c)) c in
  if (currentStepIndex c' <? Z.of_nat (length (steps c')) - 1)%Z
  then set_currentStepIndex (currentStepIndex c' + 1)%Z c'
  else c'.

(** The [catch] block. *)
Definition on_failure (j : nat) (message : jsstring) (t : Z) (c : SequentialThinkingContext) :=
  set_steps (alter (fail_step message t) j (steps c)) c.

(** [public async executeStep(stepId, executor)] *)
Definition executeStep (stepId : jsstring) (executor : Executor) : M unit :=
  do w <- get;
  match find_step stepId (steps (context w)) with
  | None => throw (js "Step with id " ++ stepId ++ js " not found")
  | Some (j, found) =>
    let c1 := set_isProcessing true
                (set_steps (alter (begin_step (now (clock w))) j (steps (context w)))
                           (context w)) in
    let step1 := step_at j found c1 in
    let '(c2, outcome) := executor step1 c1 in
    let t := now (S (clock w)) in
    let c3 := match outcome with
              | inl v => on_success j v t c2
              | inr message => on_failure j message t c2
              end in
    let c4 := set_isProcessing false c3 in
    put (mkWorld c4 (S (S (clock w)))
                 (updates w ++ [(step1, c1); (step_at j step1 c4, c4)]))
  end.

(** [executors[step.id] || executors['default']] *)
Definition executor_for (executors : gmap jsstring Executor) (stepId : jsstring)
  : option Executor :=
  match executors !! stepId with
  | Some e => Some e
  | None => executors !! js "default"
  end.

(** The [for ... of] loop of [executeAll] from position [i] on, with
    [rest] positions left.  [step] is the i-th object of the live array:
    its status is read again after [executeStep], which looks the step
    up by its identifier. *)
Fixpoint executeAll_from (executors : gmap jsstring Executor) (rest i : nat) : M unit :=
  match rest with
  | O => ret tt
  | S rest' =>
    do w <- get;
    match steps (context w) !! i with
    | None => ret tt
    | Some step =>
      if decide (status step = Completed)
      then executeAll_from executors rest' (S i)
      else
        match executor_for executors (id step) with
        | None => throw (js "No executor found for step " ++ id step)
        | Some executor =>
          executeStep (id step) executor ;;
          do w' <- get;
          match steps (context w') !! i with
          | Some step' =>
            if decide (status step' = Error) then ret tt
            else executeAll_from executors rest' (S i)
          | None => ret tt
          end
        end
    end
  end.

(** [public async executeAll(executors)] *)
Definition executeAll (executors : gmap jsstring Executor) : M unit :=
  do w <- get;
  executeAll_from executors (length (steps (context w))) 0.

(** [public getContext()]: a copy of the envelope. *)
Definition getContext : M SequentialThinkingContext :=
  do w <- get; ret (context w).

(** [public getCurrentStep()]: [steps[currentStepIndex] || null]. *)
Definition getCurrentStep : M (option ThinkingStep) :=
  do w <- get;
  ret (if (currentStepIndex (context w) <? 0)%Z then None
       else steps (context w) !! Z.to_nat (currentStepIndex (context w))).

(** [public getStepResult(stepId)]: [step?.result]. *)
Definition getStepResult (stepId : jsstring) : M (option Value) :=
  do w <- get;
  ret (match find_step stepId (steps (context w)) with
       | Some (_, step) => result step
       | None => None
       end).

(** [public updateMetadata(key, value)] *)
Definition updateMetadata (key : jsstring) (value : Value) : M unit :=
  do w <- get;
  put (mkWorld (set_metadata (<[key := value]> (metadata (context w))) (context w))
               (clock w) (updates w)).

(** [public getMetadata(key)] with a key. *)
Definition getMetadata (key : jsstring) : M (option Value) :=
  do w <- get; ret (metadata (context w) !! key).

(** The status a step ends in, by what its executor did. *)
Definition outcome_status (o : Value + jsstring) : Status :=
  match o with inl _ => Completed | inr _ => Error end.

(** *** Vocabulary of the statements *)

(** What the orchestrator keeps about a step besides its payload. *)
Definition bookkeeping (s : ThinkingStep) : jsstring * Status := (id s, status s).

(** An executor that works through its return value and through the
    payloads (results, metadata): it leaves the identity and the status
    of every step and the current index as they are.  The six stage
    functions of [ResumeAnalyzer] are of this kind. *)
Definition keeps_bookkeeping (e : Executor) : Prop :=
  forall s c,
    bookkeeping <$> steps (e s c).1 = bookkeeping <$> steps c /\
    currentStepIndex (e s c).1 = currentStepIndex c.

(** Everything a step record holds besides its result. *)
Definition housekeeping (s : ThinkingStep)
  : jsstring * jsstring * jsstring * Status * option jsstring * Z :=
  (id s, title s, description s, status s, error s, timestamp s).

(** An executor that writes to the steps, if at all, only by changing
    what a result holds. *)
Definition keeps_housekeeping (e : Executor) : Prop :=
  forall s c,
    housekeeping <$> steps (e s c).1 = housekeeping <$> steps c /\
    currentStepIndex (e s c).1 = currentStepIndex c.

(** An executor that does not write to the step list at all. *)
Definition keeps_steps (e : Executor) : Prop :=
  forall s c,
    steps (e s c).1 = steps c /\
    currentStepIndex (e s c).1 = currentStepIndex c.

Definition all_executors (P : Executor -> Prop) (executors : gmap jsstring Executor) : Prop :=
  forall k e, executors !! k = Some e -> P e.


(** An executor that leaves the metadata bag alone. *)
Definition keeps_metadata (e : Executor) : Prop :=
  forall s c, metadata (e s c).1 = metadata c.

(** A log of observer calls that is made of pairs: the start of an
    execution, with the step processing and the flag set, and its end,
    with the same step completed or in error and the flag cleared. *)
Inductive paired : list (ThinkingStep * SequentialThinkingContext) -> Prop :=
  | paired_nil : paired []
  | paired_snoc l s1 c1 s2 c2 :
      paired l ->
      status s1 = Processing -> isProcessing c1 = true ->
      id s2 = id s1 -> status s2 = Completed \/ status s2 = Error ->
      isProcessing c2 = false ->
      paired (l ++ [(s1, c1); (s2, c2)]).

(** The number of completed steps, and what ties the current index to
    it: the index counts the successful executions, up to the last
    position. *)
Definition completed_count (c : SequentialThinkingContext) : nat :=
  length (filter (fun st => st = Completed) (status <$> steps c)).

Definition index_invariant (c : SequentialThinkingContext) : Prop :=
  (0 <= currentStepIndex c)%Z /\
  (Z.min (Z.of_nat (completed_count c)) (Z.of_nat (length (steps c)) - 1)
   <= currentStepIndex c)%Z /\
  (currentStepIndex c <= Z.max 0 (Z.of_nat (length (steps c)) - 1))%Z.

(** The worlds a [SequentialThinking] object can be in between two
    method calls. *)
Inductive reachable : World -> Prop :=
  | reach_constructor defs :
      reachable (constructor defs)
  | reach_executeStep w stepId e :
      reachable w -> keeps_bookkeeping e ->
      reachable (executeStep stepId e w).2
  | reach_executeAll w executors :
      reachable w -> all_executors keeps_bookkeeping executors ->
      reachable (executeAll executors w).2
  | reach_updateMetadata w key value :
      reachable w ->
      reachable (updateMetadata key value w).2.

(** One pass of the loop of [executeAll], as a relation: from position
    [i] in world [w] the loop ends with [r] in world [w']. *)
Inductive loop (executors : gmap jsstring Executor) : nat -> World -> Res unit -> World -> Prop :=
  | loop_done i w :
      steps (context w) !! i = None ->
      loop executors i w (Ret tt) w
  | loop_continue i w step r w' :
      steps (context w) !! i = Some step ->
      status step = Completed ->
      loop executors (S i) w r w' ->
      loop executors i w r w'
  | loop_no_executor i w step :
      steps (context w) !! i = Some step ->
      status step <> Completed ->
      executor_for executors (id step) = None ->
      loop executors i w (Throw (js "No executor found for step " ++ id step)) w
  | loop_break i w step e w1 step1 :
      steps (context w) !! i = Some step ->
      status step <> Completed ->
      executor_for executors (id step) = Some e ->
      executeStep (id step) e w = (Ret tt, w1) ->
      steps (context w1) !! i = Some step1 ->
      status step1 = Error ->
      loop executors i w (Ret tt) w1
  | loop_next i w step e w1 step1 r w' :
      steps (context w) !! i = Some step ->
      status step <> Completed ->
      executor_for executors (id step) = Some e ->
      executeStep (id step) e w = (Ret tt, w1) ->
      steps (context w1) !! i = Some step1 ->
      status step1 <> Error ->
      loop executors (S i) w1 r w' ->
      loop executors i w r w'.

End Orchestrator.

Global Arguments ThinkingStep : clear implicits.
Global Arguments SequentialThinkingContext : clear implicits.
Global Arguments StepInit : clear implicits.
Global Arguments Executor : clear implicits.
Global Arguments World : clear implicits.
Global Arguments M : clear implicits.

Module MonadNotations.
Notation "'do' x <- m ; k" := (bind m (fun x => k))
  (at level 10, x name, m at level 100, k at level 200).
Notation "m ;; k" := (bind m (fun _ => k))
  (at level 100, right associativity).
End MonadNotations.

End SequentialThinking.

(* --------------------------------------------------------------------- *)
(** ** Sample runs of the orchestrator                                    *)
(* --------------------------------------------------------------------- *)

Module Samples.

Import SequentialThinking.

(** A clock that advances by one millisecond per reading. *)
Definition ticking (k : nat) : Z := (1700000000000 + Z.of_nat k)%Z.

(** An executor that resolves with [v], and one that throws [message]. *)
Definition resolves (v : Z) : Executor Z := fun _ c => (c, inl v).

Definition rejects (message : jsstring) : Executor Z := fun _ c => (c, inr message).

Definition one_step : list (StepInit Z) :=
  [mkInit (js "Parse Resume Content") (js "Extract") None None].

Definition three_steps : list (StepInit Z) :=
  [mkInit (js "Parse Resume Content") (js "Extract") None None;
   mkInit (js "Generate Professional Profile") (js "Create") None None;
   mkInit (js "Skills Assessment") (js "Analyze") None None].

(** The empty pipeline, run. *)
Definition empty_run : World Z :=
  (executeAll ticking ∅ (constructor ticking [])).2.

(** A one-step pipeline whose executor throws, and the same object run
    again with an executor that resolves. *)
Definition throwing : gmap jsstring (Executor Z) :=
  {[ js "step-0" := rejects (js "boom") ]}.

Definition retrying : gmap jsstring (Executor Z) :=
  {[ js "step-0" := resolves 7%Z ]}.

Definition failed_once : World Z :=
  (executeAll ticking throwing (constructor ticking one_step)).2.

Definition run_again : World Z :=
  (executeAll ticking retrying failed_once).2.

(** Three steps with a default executor; the second one throws. *)
Definition second_fails : gmap jsstring (Executor Z) :=
  {[ js "default" := resolves 1%Z; js "step-1" := rejects (js "no profile") ]}.

Definition all_resolve : gmap jsstring (Executor Z) :=
  {[ js "default" := resolves 1%Z ]}.

(** Three steps of which the first is completed. *)
Definition first_done : World Z :=
  (executeStep ticking (js "step-0") (resolves 5%Z) (constructor ticking three_steps)).2.

End Samples.

(* --------------------------------------------------------------------- *)
(** ** [ResumeAnalyzer]: detection, derived metrics, assembly             *)
(* --------------------------------------------------------------------- *)

Module ResumeAnalyzer.

Module ST := SequentialThinking.

(** [type AITag] *)
Inductive AITag :=
  developer | researcher | founder | teacher | designer | creator | practitioner.

#[export] Instance AITag_eq_dec : EqDecision AITag.
Proof. solve_decision. Defined.

(** ['en' | 'zh'] *)
Inductive Language := en | zh.

#[export] Instance Language_eq_dec : EqDecision Language.
Proof. solve_decision. Defined.

Record PersonalInfo := mkPersonalInfo {
  name : jsstring;
  email : option jsstring;
  phone : option jsstring;
  location : option jsstring;
  linkedin : option jsstring;
  github : option jsstring;
  website : option jsstring
}.

Record Education := mkEducation {
  institution : jsstring;
  degree : jsstring;
  major : option jsstring;
  graduationYear : option Z;
  gpa : option Z
}.

Record WorkExperience := mkWorkExperience {
  company : jsstring;
  position : jsstring;
  startDate : jsstring;
  endDate : jsstring;
  description : list jsstring;
  achievements : list jsstring
}.

Record Project := mkProject {
  project_name : jsstring;
  project_description : jsstring;
  technologies : list jsstring;
  url : option jsstring;
  project_achievements : list jsstring
}.

Inductive Proficiency := beginner | intermediate | advanced | expert.

Record Skill := mkSkill {
  category : jsstring;
  items : list jsstring;
  proficiency : Proficiency
}.

Record ParsedResume := mkParsedResume {
  personalInfo : PersonalInfo;
  education : list Education;
  workExperience : list WorkExperience;
  projects : list Project;
  skills : list Skill;
  certifications : list jsstring;
  languages : list jsstring;
  language : Language
}.

Record ProfessionalProfile := mkProfessionalProfile {
  profile_name : jsstring;
  title_roles : list jsstring;
  affiliation : jsstring;
  profile_email : option jsstring;
  profile_phone : option jsstring;
  profile_github : option jsstring;
  profile_website : option jsstring;
  profile_linkedin : option jsstring;
  twitter : option jsstring;
  photo_url : option jsstring;
  profile_description : jsstring;
  ai_tag : AITag;
  latest_education : jsstring;
  years_of_experience : Z;
  industry : jsstring;
  research_interests : list jsstring
}.

Record SkillAssessment := mkSkillAssessment {
  technicalSkills_strengths : list jsstring;
  softSkills_identified : list jsstring
}.

(** ['ascending' | 'lateral' | 'stable'] *)
Inductive CareerProgression := ascending | lateral | stable.

Record ExperienceAssessment := mkExperienceAssessment {
  relevantIndustries : list jsstring;
  careerProgression : CareerProgression;
  keyAchievements : list jsstring
}.

Record EducationAssessment := mkEducationAssessment {
  institutions : list jsstring;
  degrees : list jsstring;
  majors : list jsstring
}.

Record OverallAssessment := mkOverallAssessment {
  highlights : list jsstring
}.

(** The values this program stores where the orchestrator says
    [unknown]: the results of the six stages and the three metadata
    entries. *)
Inductive Value :=
  | VString (s : jsstring)
  | VUndefined
  | VParsedResume (r : ParsedResume)
  | VProfessionalProfile (r : ProfessionalProfile)
  | VSkillAssessment (r : SkillAssessment)
  | VExperienceAssessment (r : ExperienceAssessment)
  | VEducationAssessment (r : EducationAssessment)
  | VOverallAssessment (r : OverallAssessment).

(** [interface ResumeAnalysisResult].  [analyzeResume] fills the five
    assessments with unchecked casts ([as ProfessionalProfile], ...) of
    what [getStepResult] returns, so each field holds whatever was
    there, [undefined] included. *)
Record ResumeAnalysisResult := mkResult {
  professionalProfile : option Value;
  skillAssessment : option Value;
  experienceAssessment : option Value;
  educationAssessment : option Value;
  overallAssessment : option Value;
  result_language : Language
}.

(** A result record all of whose assessments are there. *)
Definition complete (r : ResumeAnalysisResult) : Prop :=
  is_Some (professionalProfile r) /\ is_Some (skillAssessment r) /\
  is_Some (experienceAssessment r) /\ is_Some (educationAssessment r) /\
  is_Some (overallAssessment r).

(** [createResumeAnalysisSteps()] *)
Definition createResumeAnalysisSteps : list (ST.StepInit Value) :=
  [ST.mkInit (js "Parse Resume Content")
     (js "Extract and structure basic information, skills, experience from the resume")
     None None;
   ST.mkInit (js "Generate Professional Profile")
     (js "Create AI-tagged professional profile with industry classification and experience summary")
     None None;
   ST.mkInit (js "Skills Assessment")
     (js "Analyze technical and soft skills proficiency and expertise areas")
     None None;
   ST.mkInit (js "Experience Evaluation")
     (js "Evaluate work experience relevance, career trajectory and key achievements")
     None None;
   ST.mkInit (js "Education Assessment")
     (js "Extract educational background including institutions, degrees and specializations")
     None None;
   ST.mkInit (js "Generate Highlights")
     (js "Generate comprehensive positive highlights and key strengths summary")
     None None].

(** *** [detectLanguage] *)

(** [/[一-鿿]/] *)
Definition isChinese (c : Z) : bool := ((19968 <=? c) && (c <=? 40959))%Z.

(** [text.match(/[一-鿿]/g)]'s length, 0 for [null]. *)
Definition chineseChars (text : jsstring) : Z :=
  Z.of_nat (length (filter (fun c => isChinese c = true) text)).

(** [chineseRatio > 0.1 ? 'zh' : 'en'].  The source divides and
    compares in double precision.  The quotient of two integers rounds
    to a double above the double 0.1 exactly when the quotient itself is
    above 1/10: rounding is monotone, the double 0.1 lies above 1/10,
    and the least quotient above 1/10 that a string of fewer than 2^50
    code units can have is further from 1/10 than the doubles are spaced
    there.  The comparison is therefore stated on the integers.  A
    string without a match has ratio 0. *)
Definition detectLanguage (text : jsstring) : Language :=
  if (Z.of_nat (length text) <? 10 * chineseChars text)%Z then zh else en.

(** The same with the arithmetic of the source, on the doubles of the
    kernel: [chineseChars ? chineseChars.length / text.length : 0]
    against the double nearest to 0.1. *)
Definition double (n : Z) : float := PrimFloat.of_uint63 (Uint63.of_Z n).

Definition ratioExceedsTenth (count size : Z) : bool :=
  if (count =? 0)%Z then false
  else PrimFloat.ltb 0x1.999999999999ap-4%float (PrimFloat.div (double count) (double size)).

Definition detectLanguage_double (text : jsstring) : Language :=
  if ratioExceedsTenth (chineseChars text) (Z.of_nat (length text)) then zh else en.

(** [start; start + 1; ...], [n] numbers. *)
Fixpoint countFrom (start : Z) (n : nat) : list Z :=
  match n with
  | O => []
  | S k => start :: countFrom (start + 1)%Z k
  end.

(** For every length up to [bound] and every count up to the length,
    the comparison on the doubles is the comparison on the integers. *)
Definition agree_at (size count : Z) : bool :=
  Bool.eqb (ratioExceedsTenth count size) (size <? 10 * count)%Z.

Definition doubles_agree (bound : Z) : bool :=
  forallb (fun size => forallb (agree_at size) (countFrom 0 (Z.to_nat (size + 1))))
          (countFrom 0 (Z.to_nat (bound + 1))).


(** The share of CJK ideographs in a non-empty text. *)
Definition chineseRatio (text : jsstring) : Q :=
  Qmake (chineseChars text) (Pos.of_nat (length text)).

Section Analyzer.

(** [String.prototype.toLowerCase], and the two readings of the clock
    the metrics take: [new Date().getFullYear()] and
    [new Date().getMonth() + 1]. *)
Variable toLowerCase : jsstring -> jsstring.
Variable currentYear currentMonth : Z.

(** *** [calculateYearsOfExperience] *)

(** [[一二三四五六七八九十\d]] *)
Definition numeral : JS.regex :=
  JS.OneOf (js "一二三四五六七八九十") [(48, 57)%Z].

(** The pattern of the experience statement, flags [g] and [i]: one or
    more numerals; 年; any number of code units of the class
    [前端|后端|全栈|开发|工程师|技术] (the bar is a member of the class);
    any number of 开发 or 工作; 经验. *)
Definition experiencePattern : JS.regex :=
  JS.Then (JS.Some1 numeral)
    (JS.Then (JS.OneOf (js "年") [])
       (JS.Then (JS.Many (JS.OneOf (js "前端|后端|全栈|开发|工程师|技术") []))
          (JS.Then (JS.Many (JS.Or (JS.Lit (js "开发")) (JS.Lit (js "工作"))))
             (JS.Lit (js "经验"))))).

Definition chineseNumbers : list (jsstring * Z) :=
  [(js "一", 1); (js "二", 2); (js "三", 3); (js "四", 4); (js "五", 5);
   (js "六", 6); (js "七", 7); (js "八", 8); (js "九", 9); (js "十", 10)]%Z.

Fixpoint assoc {A} (k : jsstring) (table : list (jsstring * A)) : option A :=
  match table with
  | [] => None
  | (k', v) :: rest => if decide (k = k') then Some v else assoc k rest
  end.

(** The body of the loop over the matches: [years] for one match (0 if
    nothing converts). *)
Definition statedYears (m : jsstring) : Z :=
  match JS.exec false (JS.Some1 numeral) None m with
  | Some (yearStr, _, _) =>
    match assoc yearStr chineseNumbers with
    | Some n => n
    | None => default 0%Z (JS.Number yearStr)
    end
  | None => 0%Z
  end.

(** [for (const match of expMatch) ... if (years > 0 && years <= 20) return years] *)
Fixpoint firstStated (matches : list jsstring) : option Z :=
  match matches with
  | [] => None
  | m :: rest =>
    let years := statedYears m in
    if ((0 <? years) && (years <=? 20))%Z then Some years else firstStated rest
  end.

(** A record of the mapped list: the experience with its start and end
    as numbers. *)
Record Period := mkPeriod {
  experience : WorkExperience;
  startYear : Z;
  startMonth : Z;
  endYear : Z;
  endMonth : Z
}.

(** The callback of [workExperience.map]. *)
Definition period (exp : WorkExperience) : Period :=
  let '(startYear, startMonth) :=
    if JS.includes (startDate exp) (js ".") then
      let startParts := JS.split 46 (startDate exp) in
      (JS.orElse (JS.parseInt (default [] (startParts !! 0))) currentYear,
       JS.orElse (JS.parseInt (default [] (startParts !! 1))) 1%Z)
    else (JS.orElse (JS.parseInt (startDate exp)) currentYear, 1%Z) in
  let '(endYear, endMonth) :=
    if bool_decide (endDate exp = js "至今") || bool_decide (endDate exp = js "现在")
       || JS.includes (toLowerCase (endDate exp)) (js "present")
    then (currentYear, currentMonth)
    else if JS.includes (endDate exp) (js ".") then
      let endParts := JS.split 46 (endDate exp) in
      (JS.orElse (JS.parseInt (default [] (endParts !! 0))) currentYear,
       JS.orElse (JS.parseInt (default [] (endParts !! 1))) 12%Z)
    else (JS.orElse (JS.parseInt (endDate exp)) currentYear, 12%Z) in
  mkPeriod exp startYear startMonth endYear endMonth.

(** The month [new Date(year, month0)] falls in, counted from year 0:
    the constructor reads a year from 0 to 99 as 1900 + year and carries
    months over.  [getTime] is strictly increasing in this count as long
    as the date is within the range of [Date] (some 270000 years either
    side of 1970); beyond it the time is [NaN] and the order the sort
    leaves is the engine's. *)
Definition monthCount (year month0 : Z) : Z :=
  ((if (0 <=? year) && (year <=? 99) then 1900 + year else year) * 12 + month0)%Z.

(** [(a, b) => a.startDate.getTime() - b.startDate.getTime()], by sign. *)
Definition byStartDate (a b : Period) : Z :=
  (monthCount (startYear a) (startMonth a - 1)
   - monthCount (startYear b) (startMonth b - 1))%Z.

Definition sortedExperiences (workExperience : list WorkExperience) : list Period :=
  JS.sort byStartDate (period <$> workExperience).

(** [private calculateYearsOfExperience(workExperience)]; [resumeText]
    is [this.thinking.getMetadata('resumeText')]. *)
Definition calculateYearsOfExperience (resumeText : jsstring)
    (workExperience : list WorkExperience) : Z :=
  if decide (length workExperience = 0) then 0%Z
  else
    match firstStated (JS.matchAll true experiencePattern resumeText) with
    | Some years => years
    | None =>
      match head (sortedExperiences workExperience),
            last (sortedExperiences workExperience) with
      | Some earliestStart, Some latestEnd =>
        let totalMonths :=
          ((endYear latestEnd - startYear earliestStart) * 12
           + (endMonth latestEnd - startMonth earliestStart))%Z in
        let years := Z.max 0 (totalMonths / 12) in
        Z.min years 15
      | _, _ => 0%Z
      end
    end.

(** *** Vocabulary of the statements about the years of experience *)


(** A start and an end, in months. *)
Definition startCount (p : Period) : Z := (startYear p * 12 + startMonth p)%Z.

Definition endCount (p : Period) : Z := (endYear p * 12 + endMonth p)%Z.

Definition minimum (l : list Z) : Z :=
  match l with
  | [] => 0%Z
  | x :: rest => foldr Z.min x rest
  end.

Definition maximum (l : list Z) : Z :=
  match l with
  | [] => 0%Z
  | x :: rest => foldr Z.max x rest
  end.


(** *** [determineAITag] *)

(** [private countKeywords(text, keywords)]: every keyword, with its
    special characters escaped, between two word boundaries, flags [g]
    and [i]. *)
Definition keywordPattern (keyword : jsstring) : JS.regex :=
  JS.Then JS.Boundary (JS.Then (JS.Lit keyword) JS.Boundary).

Definition countKeywords (text : jsstring) (keywords : list jsstring) : Z :=
  fold_left
    (fun count keyword =>
       (count + Z.of_nat (length (JS.matchAll true (keywordPattern keyword) text)))%Z)
    keywords 0%Z.

Definition developerKeywords : list jsstring :=
  [js "developer"; js "engineer"; js "programming"; js "software"; js "coding";
   js "development"; js "frontend"; js "backend"; js "fullstack";
   js "web development"; js "mobile app"; js "react"; js "vue"; js "angular";
   js "javascript"; js "typescript"; js "node.js"; js "python"; js "java";
   js "web3"; js "blockchain";
   js "开发"; js "工程师"; js "编程"; js "软件"; js "前端"; js "后端"; js "全栈";
   js "程序员"; js "技术"].

Definition researcherKeywords : list jsstring :=
  [js "research"; js "researcher"; js "phd"; js "publications"; js "paper";
   js "academic"; js "laboratory"; js "study"; js "analysis"; js "investigation";
   js "研究"; js "博士"; js "论文"; js "学术"; js "实验室"; js "分析"].

Definition founderKeywords : list jsstring :=
  [js "founder"; js "startup"; js "co-founder"; js "entrepreneur"; js "founded";
   js "established"; js "创始人"; js "创业"; js "联合创始人"; js "创立"].

Definition teacherKeywords : list jsstring :=
  [js "teacher"; js "professor"; js "lecturer"; js "instructor"; js "teaching";
   js "education"; js "教师"; js "教授"; js "讲师"; js "教学"; js "教育"].

Definition designerKeywords : list jsstring :=
  [js "ui designer"; js "ux designer"; js "graphic designer"; js "product designer";
   js "design lead"; js "设计师"; js "ui设计"; js "ux设计"; js "产品设计"; js "视觉设计"].

Definition creatorKeywords : list jsstring :=
  [js "creator"; js "content creator"; js "artist"; js "creative director";
   js "generative"; js "ai art"; js "创作者"; js "内容创作"; js "艺术"; js "创意";
   js "生成"].

Definition strongDevIndicators : list jsstring :=
  [js "前端工程师"; js "后端工程师"; js "web3工程师"; js "软件工程师";
   js "frontend engineer"; js "backend engineer"].

(** The text the tag is computed from. *)
Definition allText (resumeText : jsstring) (parsedResume : ParsedResume) : jsstring :=
  toLowerCase
    (JS.join (js " ")
       ([resumeText]
        ++ flat_map (fun exp => [position exp; company exp]
                                ++ description exp ++ achievements exp)
                    (workExperience parsedResume)
        ++ flat_map (fun proj => [project_name proj; project_description proj]
                                 ++ project_achievements proj)
                    (projects parsedResume)
        ++ flat_map items (skills parsedResume))).

(** [const scores = { developer: ... * 2, researcher: ..., ... }], as a
    function of the category. *)
Definition scores (text : jsstring) (tag : AITag) : Z :=
  match tag with
  | developer => (countKeywords text developerKeywords * 2)%Z
  | researcher => countKeywords text researcherKeywords
  | founder => countKeywords text founderKeywords
  | teacher => countKeywords text teacherKeywords
  | designer => countKeywords text designerKeywords
  | creator => countKeywords text creatorKeywords
  | practitioner => 0%Z
  end.

(** The six categories that are scored, in the order of the object. *)
Definition categories : list AITag :=
  [developer; researcher; founder; teacher; designer; creator].

Definition hasStrongDevIndicator (text : jsstring) : bool :=
  existsb (fun indicator => JS.includes text (toLowerCase indicator)) strongDevIndicators.

(** [Math.max(...Object.values(scores))] *)
Definition maxScore (text : jsstring) : Z :=
  foldr Z.max (scores text creator)
        [scores text developer; scores text researcher; scores text founder;
         scores text teacher; scores text designer].

(** [private determineAITag(parsedResume)] *)
Definition determineAITag (resumeText : jsstring) (parsedResume : ParsedResume) : AITag :=
  let text := allText resumeText parsedResume in
  if hasStrongDevIndicator text || (3 <=? scores text developer)%Z then developer
  else if (maxScore text =? 0)%Z then practitioner
  else if (scores text developer =? maxScore text)%Z then developer
  else if (scores text researcher =? maxScore text)%Z then researcher
  else if (scores text founder =? maxScore text)%Z then founder
  else if (scores text teacher =? maxScore text)%Z then teacher
  else if (scores text designer =? maxScore text)%Z then designer
  else if (scores text creator =? maxScore text)%Z then creator
  else practitioner.

(** The fixed priority of the categories: lower comes first. *)
Definition priority (tag : AITag) : nat :=
  match tag with
  | developer => 0 | researcher => 1 | founder => 2 | teacher => 3
  | designer => 4 | creator => 5 | practitioner => 6
  end.

(** *** [assessExperience] *)

Definition industryKeywords : list (jsstring * list jsstring) :=
  [(js "Technology",
    [js "tech"; js "software"; js "ai"; js "ml"; js "data"; js "cloud"; js "startup";
     js "web3"; js "blockchain"; js "科技"; js "软件"; js "人工智能"; js "技术";
     js "互联网"; js "前端"; js "后端"; js "开发"; js "程序"]);
   (js "Finance",
    [js "finance"; js "bank"; js "fintech"; js "trading"; js "investment";
     js "金融"; js "银行"; js "投资"; js "支付"; js "区块链"]);
   (js "Gaming",
    [js "game"; js "gaming"; js "entertainment"; js "nft"; js "游戏"; js "娱乐";
     js "电竞"]);
   (js "E-commerce",
    [js "ecommerce"; js "retail"; js "shopping"; js "marketplace"; js "电商";
     js "零售"; js "购物"; js "商城"]);
   (js "Education",
    [js "education"; js "university"; js "school"; js "academic"; js "教育";
     js "大学"; js "学校"; js "培训"]);
   (js "Healthcare",
    [js "health"; js "medical"; js "pharma"; js "biotech"; js "医疗"; js "健康";
     js "生物"; js "医药"]);
   (js "Media",
    [js "media"; js "content"; js "publishing"; js "social"; js "媒体"; js "内容";
     js "出版"; js "社交"])].

(** [private determineIndustry(workExperience, skills)] *)
Definition determineIndustry (workExperience : list WorkExperience)
    (skills : list Skill) : jsstring :=
  let text :=
    toLowerCase
      (JS.join (js " ")
         (flat_map (fun exp => [company exp; position exp] ++ description exp)
                   workExperience
          ++ flat_map items skills)) in
  match find (fun '(_, keywords) => existsb (JS.includes text) keywords)
             industryKeywords with
  | Some (industry, _) => industry
  | None => js "Technology"
  end.

Definition progressionKeywords : list (list jsstring) :=
  [[js "intern"; js "junior"; js "senior"; js "lead"; js "principal"];
   [js "developer"; js "senior developer"; js "tech lead"; js "architect"];
   [js "assistant"; js "associate"; js "manager"; js "director"];
   [js "实习"; js "初级"; js "中级"; js "高级"; js "资深"; js "专家"; js "主管";
    js "经理"]].

(** [keywords.findIndex(keyword => pos.includes(keyword))] *)
Fixpoint findIndex (pos : jsstring) (keywords : list jsstring) (at_ : Z) : Z :=
  match keywords with
  | [] => (-1)%Z
  | keyword :: rest =>
    if JS.includes pos keyword then at_ else findIndex pos rest (at_ + 1)%Z
  end.

(** The inner loop over the positions: [(lastIndex, hasProgression)]. *)
Definition progressionStep (keywords : list jsstring)
    (state : Z * bool) (pos : jsstring) : Z * bool :=
  let '(lastIndex, hasProgression) := state in
  let currentIndex := findIndex pos keywords 0%Z in
  (if (currentIndex =? -1)%Z then lastIndex else Z.max lastIndex currentIndex,
   hasProgression || ((lastIndex <? currentIndex) && (0 <? currentIndex))%Z).

(** [private analyzeCareerProgression(workExperience)] *)
Definition analyzeCareerProgression (workExperience : list WorkExperience) : bool :=
  if length workExperience <? 2 then false
  else
    existsb
      (fun keywords =>
         (fold_left (progressionStep keywords)
                    ((fun exp => toLowerCase (position exp)) <$> workExperience)
                    ((-1)%Z, false)).2)
      progressionKeywords.

(** [(a, b) => parseInt(a.startDate) - parseInt(b.startDate)]; a
    difference with [NaN] is [NaN], which the sort reads as 0. *)
Definition byStartYear (a b : WorkExperience) : Z :=
  match JS.parseInt (startDate a), JS.parseInt (startDate b) with
  | Some x, Some y => (x - y)%Z
  | _, _ => 0%Z
  end.

(** What [assessExperience] leaves in the array [parsedResume.workExperience]:
    [workExp.sort(...)] sorts that very array in place. *)
Definition sortedInPlace (workExp : list WorkExperience) : list WorkExperience :=
  if 1 <? length workExp then JS.sort byStartYear workExp else workExp.

(** The value [assessExperience] resolves with. *)
Definition experienceAssessmentOf (parsedResume : ParsedResume) : ExperienceAssessment :=
  let workExp := workExperience parsedResume in
  let industries :=
    (fun exp => determineIndustry [exp] (skills parsedResume)) <$> workExp in
  let uniqueIndustries := JS.uniq [] industries in
  let careerProgression :=
    if 1 <? length workExp
    then if analyzeCareerProgression (JS.sort byStartYear workExp)
         then ascending else stable
    else stable in
  let keyAchievements :=
    take 5 (filter (fun achievement => 10 < length achievement)
                   (flat_map (fun exp => description exp ++ achievements exp)
                             (sortedInPlace workExp))) in
  mkExperienceAssessment uniqueIndustries careerProgression keyAchievements.

Definition set_workExperience (l : list WorkExperience) (r : ParsedResume) : ParsedResume :=
  mkParsedResume (personalInfo r) (education r) l (projects r) (skills r)
                 (certifications r) (languages r) (language r).

Definition set_result (v : option Value) (s : ST.ThinkingStep Value) : ST.ThinkingStep Value :=
  ST.mkStep (ST.id s) (ST.title s) (ST.description s) (ST.status s) v
            (ST.error s) (ST.timestamp s).

(** [private async assessExperience()], as an executor.  [parsedResume]
    is the object [getStepResult('step-0')] returns, the one the first
    step holds as its result: sorting its array changes what that step
    holds.  Without such an object the first property access throws. *)
Definition assessExperience : ST.Executor Value := fun _ c =>
  match ST.find_step (js "step-0") (ST.steps c) with
  | Some (j, step0) =>
    match ST.result step0 with
    | Some (VParsedResume parsedResume) =>
      let sorted := sortedInPlace (workExperience parsedResume) in
      (ST.set_steps
         (alter (set_result (Some (VParsedResume (set_workExperience sorted parsedResume))))
                j (ST.steps c)) c,
       inl (VExperienceAssessment (experienceAssessmentOf parsedResume)))
    | _ => (c, inr (js "Cannot read properties of undefined (reading 'workExperience')"))
    end
  | None => (c, inr (js "Cannot read properties of undefined (reading 'workExperience')"))
  end.

(** *** Lookups in object literals *)

(** The names every object inherits from [Object.prototype].  A lookup
    [table[key]] in an object literal finds the inherited member under
    one of these names (a function, or the prototype itself), not
    [undefined]; the tables below are lists of their own entries, so the
    functions that look a key up in them are the source's functions on
    the keys outside this list. *)
Definition objectPrototypeNames : list jsstring :=
  [js "constructor"; js "__defineGetter__"; js "__defineSetter__";
   js "hasOwnProperty"; js "__lookupGetter__"; js "__lookupSetter__";
   js "isPrototypeOf"; js "propertyIsEnumerable"; js "toString"; js "valueOf";
   js "__proto__"; js "toLocaleString"].

Definition ordinary (key : jsstring) : Prop := key ∉ objectPrototypeNames.

(** *** [translatePosition] *)

Definition chineseToEnglish : list (jsstring * jsstring) :=
  [(js "软件工程师", js "Software Engineer");
   (js "前端工程师", js "Frontend Engineer");
   (js "后端工程师", js "Backend Engineer");
   (js "全栈工程师", js "Full Stack Engineer");
   (js "Web3工程师", js "Web3 Engineer");
   (js "技术负责人", js "Tech Lead");
   (js "项目经理", js "Project Manager");
   (js "产品经理", js "Product Manager");
   (js "架构师", js "Software Architect");
   (js "开发工程师", js "Development Engineer");
   (js "高级工程师", js "Senior Engineer");
   (js "资深工程师", js "Senior Engineer")].

(** [Object.fromEntries(Object.entries(chineseToEnglish).map(([k, v]) => [v, k]))]:
    of two entries with the same key the later one stays.  [assoc]
    takes the first pair with the key, so the pairs are listed latest
    first. *)
Definition englishToChinese : list (jsstring * jsstring) :=
  reverse ((fun '(k, v) => (v, k)) <$> chineseToEnglish).

(** [private translatePosition(position, targetLanguage)] *)
Definition translatePosition (position targetLanguage : jsstring) : jsstring :=
  if decide (targetLanguage = js "zh")
  then JS.orString (assoc position englishToChinese) position
  else JS.orString (assoc position chineseToEnglish) position.

(** *** [generateRoleFromSkills] *)

(** [skills.filter(skill => skill.category.toLowerCase().includes(word)).flatMap(skill => skill.items)] *)
Definition itemsOfCategory (word : jsstring) (skills : list Skill) : list jsstring :=
  flat_map items
    (filter (fun skill => JS.includes (toLowerCase (category skill)) word = true) skills).

Definition frontendTechs : list jsstring :=
  [js "react"; js "vue"; js "angular"; js "javascript"; js "typescript"; js "html";
   js "css"].

Definition backendTechs : list jsstring :=
  [js "node.js"; js "python"; js "java"; js "go"; js "php"; js "c#"; js "spring";
   js "django"].

Definition web3Techs : list jsstring :=
  [js "web3"; js "blockchain"; js "solidity"; js "ethereum"; js "smart contract"].

(** [techs.some(tech => skillsLower.some(skill => skill.includes(tech)))] *)
Definition someTech (techs skillsLower : list jsstring) : bool :=
  existsb (fun tech => existsb (fun skill => JS.includes skill tech) skillsLower) techs.

(** [private generateRoleFromSkills(skills, language)] *)
Definition generateRoleFromSkills (skills : list Skill) (language : jsstring) : jsstring :=
  let techSkills := itemsOfCategory (js "technical") skills in
  let skillsLower := toLowerCase <$> techSkills in
  let zh := bool_decide (language = js "zh") in
  if someTech web3Techs skillsLower
  then (if zh then js "Web3工程师" else js "Web3 Engineer")
  else
    let hasFrontend := someTech frontendTechs skillsLower in
    let hasBackend := someTech backendTechs skillsLower in
    if hasFrontend && hasBackend
    then (if zh then js "全栈工程师" else js "Full Stack Engineer")
    else if hasFrontend
    then (if zh then js "前端工程师" else js "Frontend Engineer")
    else if hasBackend
    then (if zh then js "后端工程师" else js "Backend Engineer")
    else (if zh then js "软件工程师" else js "Software Engineer").

(** *** [generateLatestEducation] *)

(** [edu.graduationYear || 0] *)
Definition yearOf (edu : Education) : Z := JS.orElse (graduationYear edu) 0.

(** [education.reduce((latest, current) => ...)], without an initial
    value: [None] on the empty list, where the source does not call it. *)
Definition latestEdu (education : list Education) : option Education :=
  match education with
  | [] => None
  | first :: rest =>
    Some (fold_left (fun latest current =>
                       if (yearOf latest <? yearOf current)%Z then current else latest)
                    rest first)
  end.

(** [private generateLatestEducation(education, language)] *)
Definition generateLatestEducation (education : list Education) (language : jsstring)
  : jsstring :=
  let zh := bool_decide (language = js "zh") in
  match latestEdu education with
  | None => if zh then js "学历信息未提供" else js "Education not specified"
  | Some latest =>
    let parts :=
      (match degree latest with [] => [] | d => [d] end)
      ++ (match major latest with
          | Some (c :: m) =>
            [if zh then (c :: m) ++ js "专业" else js "in " ++ (c :: m)]
          | _ => []
          end)
      ++ (match institution latest with
          | [] => []
          | i => [if zh then js "毕业于" ++ i else js "from " ++ i]
          end)
      ++ (match graduationYear latest with
          | Some 0%Z | None => []
          | Some y => [js "(" ++ JS.toStringZ y ++ js ")"]
          end) in
    match parts with
    | [] => if zh then js "学历信息不完整" else js "Education details incomplete"
    | _ => JS.join (js " ") parts
    end
  end.

(** *** [extractResearchInterests] *)

(** [private extractResearchInterests(parsedResume)] *)
Definition extractResearchInterests (parsedResume : ParsedResume) : list jsstring :=
  let techSkills := itemsOfCategory (js "technical") (skills parsedResume) in
  let projectInterests :=
    flat_map (fun proj => project_name proj :: technologies proj) (projects parsedResume) in
  let allInterests :=
    filter (fun interest => 0 < length interest)
           (JS.trim <$> filter (fun interest => interest <> [])
                               (techSkills ++ projectInterests)) in
  take 3 (JS.uniq [] allInterests).

(** *** [generateProfessionalDescription] *)

(** [private generateProfessionalDescription(parsedResume, language)];
    [resumeText] is what [calculateYearsOfExperience] reads from the
    metadata. *)
Definition generateProfessionalDescription (resumeText : jsstring)
    (parsedResume : ParsedResume) (language : jsstring) : jsstring :=
  let yearsOfExperience :=
    calculateYearsOfExperience resumeText (workExperience parsedResume) in
  let techSkills := take 3 (itemsOfCategory (js "technical") (skills parsedResume)) in
  let '(recentPosition, recentCompany) :=
    match last (workExperience parsedResume) with
    | Some recentExp => (translatePosition (position recentExp) language, company recentExp)
    | None => ([], [])
    end in
  let totalProjects := length (projects parsedResume) in
  let mentions (skillsText word : jsstring) := JS.includes (toLowerCase skillsText) word in
  if decide (language = js "zh") then
    js "我是一位"
    ++ (if bool_decide (recentPosition <> []) && bool_decide (recentCompany <> [])
           && bool_decide (recentCompany <> js "技术公司")
        then recentPosition ++ js "，现任职于" ++ recentCompany ++ js "。"
        else if bool_decide (recentPosition <> []) then recentPosition ++ js "。"
        else js "软件开发工程师。")
    ++ (if (0 <? yearsOfExperience)%Z then
          js "拥有" ++ JS.toStringZ yearsOfExperience ++ js "年"
          ++ (if 0 <? length techSkills then
                let skillsText := JS.join (js "、") techSkills in
                if mentions skillsText (js "react") || mentions skillsText (js "vue")
                then js "前端开发经验。专注于" ++ skillsText ++ js "等现代前端技术栈。"
                else if mentions skillsText (js "web3")
                        || mentions skillsText (js "blockchain")
                then js "Web3开发经验。擅长" ++ skillsText ++ js "等区块链技术。"
                else js "软件开发经验。熟练掌握" ++ skillsText ++ js "等技术。"
              else js "软件开发经验。")
        else [])
    ++ (if 0 <? totalProjects
        then js "参与过" ++ JS.toString totalProjects ++ js "个项目的开发与维护。"
        else [])
  else
    js "I am a"
    ++ (if bool_decide (recentPosition <> []) && bool_decide (recentCompany <> [])
           && bool_decide (recentCompany <> js "技术公司")
           && bool_decide (recentCompany <> js "Technology Company")
        then js " " ++ recentPosition ++ js " currently working at " ++ recentCompany
             ++ js "."
        else if bool_decide (recentPosition <> []) then js " " ++ recentPosition
        else js " Software Engineer")
    ++ (if (0 <? yearsOfExperience)%Z then
          js " with " ++ JS.toStringZ yearsOfExperience ++ js " year"
          ++ (if (1 <? yearsOfExperience)%Z then js "s" else []) ++ js " of experience"
          ++ (if 0 <? length techSkills then
                let skillsText := JS.join (js ", ") techSkills in
                if mentions skillsText (js "react") || mentions skillsText (js "vue")
                then js " in frontend development. I specialize in " ++ skillsText
                     ++ js " and modern frontend technologies."
                else if mentions skillsText (js "web3")
                        || mentions skillsText (js "blockchain")
                then js " in Web3 development. I'm skilled in " ++ skillsText
                     ++ js " and blockchain technologies."
                else js " in software development. I'm proficient in " ++ skillsText
                     ++ js "."
              else js " in software development.")
        else js " focused on building quality software solutions.")
    ++ (if 0 <? totalProjects
        then js " I have contributed to " ++ JS.toString totalProjects ++ js " project"
             ++ (if 1 <? totalProjects then js "s" else []) ++ js "."
        else []).

(** *** [generateProfessionalProfile] *)

(** The callback of [parsedResume.workExperience.forEach]: a position
    that is there is translated and added unless it is listed. *)
Definition addRole (language : jsstring) (titleRoles : list jsstring)
    (exp : WorkExperience) : list jsstring :=
  match position exp with
  | [] => titleRoles
  | _ =>
    let translatedPosition := translatePosition (position exp) language in
    if bool_decide (translatedPosition ∈ titleRoles) then titleRoles
    else titleRoles ++ [translatedPosition]
  end.

(** [titleRoles] before the cut to three. *)
Definition titleRolesOf (parsedResume : ParsedResume) (language : jsstring)
  : list jsstring :=
  let fromExperience :=
    match last (workExperience parsedResume) with
    | None => []
    | Some recentExp =>
      fold_left (addRole language) (workExperience parsedResume)
                (match position recentExp with
                 | [] => []
                 | _ => [translatePosition (position recentExp) language]
                 end)
    end in
  match fromExperience with
  | [] =>
    match generateRoleFromSkills (skills parsedResume) language with
    | [] => []
    | generatedRole => [generatedRole]
    end
  | _ => fromExperience
  end.

(** The value [generateProfessionalProfile] resolves with. *)
Definition professionalProfileOf (resumeText language : jsstring)
    (parsedResume : ParsedResume) : ProfessionalProfile :=
  let zh := bool_decide (language = js "zh") in
  let info := personalInfo parsedResume in
  let recent := last (workExperience parsedResume) in
  let affiliation :=
    match recent with
    | Some recentExp =>
      if bool_decide (company recentExp <> []) && bool_decide (company recentExp <> js "技术公司")
         && bool_decide (company recentExp <> js "Technology Company")
      then company recentExp else []
    | None => []
    end in
  let industry :=
    match recent with
    | Some _ => determineIndustry (workExperience parsedResume) (skills parsedResume)
    | None => []
    end in
  mkProfessionalProfile
    (JS.orString (Some (name info)) (if zh then js "候选人" else js "Candidate"))
    (take 3 (titleRolesOf parsedResume language))
    (JS.orString (Some affiliation) (if zh then js "科技行业" else js "Technology Industry"))
    (email info) (phone info) (github info) (website info) (linkedin info)
    None None
    (generateProfessionalDescription resumeText parsedResume language)
    (determineAITag resumeText parsedResume)
    (generateLatestEducation (education parsedResume) language)
    (calculateYearsOfExperience resumeText (workExperience parsedResume))
    (JS.orString (Some industry) (js "Technology"))
    (extractResearchInterests parsedResume).

(** *** [assessSkills], [assessEducation], [calculateOverallScore] *)


(** [list.filter(Boolean)] on strings, then [[...new Set(...)]]. *)
Definition distinctTexts (l : list jsstring) : list jsstring :=
  JS.uniq [] (filter (fun text => text <> []) l).

(** The value [assessEducation] resolves with. *)
Definition educationAssessmentOf (parsedResume : ParsedResume) : EducationAssessment :=
  mkEducationAssessment
    (distinctTexts (institution <$> education parsedResume))
    (distinctTexts (degree <$> education parsedResume))
    (distinctTexts (omap major (education parsedResume))).

(** The highlights before the cut to six, in the order they are pushed. *)
Definition allHighlights (language : jsstring) (yearsOfExperience : Z)
    (skillsResult : SkillAssessment) (experienceResult : ExperienceAssessment)
    (educationResult : EducationAssessment) : list jsstring :=
  let strengths := technicalSkills_strengths skillsResult in
  let industries := relevantIndustries experienceResult in
  let rising := match careerProgression experienceResult with
                | ascending => true
                | _ => false
                end in
  let when (condition : bool) (highlight : jsstring) :=
    if condition then [highlight] else [] in
  if decide (language = js "zh") then
    when (0 <? length strengths)
         (js "掌握" ++ JS.toString (length strengths) ++ js "项核心技术技能")
    ++ when (0 <? length industries)
            (js "在" ++ JS.join (js "、") industries ++ js "领域有丰富经验")
    ++ when rising (js "职业发展呈上升趋势")
    ++ when (0 <? length (degrees educationResult))
            (js "具备" ++ JS.join (js "、") (degrees educationResult) ++ js "学历背景")
    ++ when (0 <? length (keyAchievements experienceResult))
            (js "工作成果丰富，有具体项目经验")
    ++ when (0 <? length (softSkills_identified skillsResult))
            (js "具备良好的软技能和团队协作能力")
    ++ when (0 <? yearsOfExperience)%Z
            (js "拥有" ++ JS.toStringZ yearsOfExperience ++ js "年专业工作经验")
  else
    when (0 <? length strengths)
         (js "Proficient in " ++ JS.toString (length strengths)
          ++ js " core technical skills")
    ++ when (0 <? length industries)
            (js "Rich experience in " ++ JS.join (js ", ") industries ++ js " industry")
    ++ when rising (js "Demonstrated career progression and growth")
    ++ when (0 <? length (degrees educationResult))
            (js "Strong educational background with "
             ++ JS.join (js ", ") (degrees educationResult) ++ js " degree(s)")
    ++ when (0 <? length (keyAchievements experienceResult))
            (js "Strong track record with concrete project achievements")
    ++ when (0 <? length (softSkills_identified skillsResult))
            (js "Well-developed soft skills and team collaboration abilities")
    ++ when (0 <? yearsOfExperience)%Z
            (JS.toStringZ yearsOfExperience ++ js " years of professional experience").

(** The highlights [calculateOverallScore] resolves with. *)
Definition highlightsOf (language : jsstring) (yearsOfExperience : Z)
    (skillsResult : SkillAssessment) (experienceResult : ExperienceAssessment)
    (educationResult : EducationAssessment) : list jsstring :=
  take 6 (allHighlights language yearsOfExperience skillsResult experienceResult
                        educationResult).

(** *** The stage methods as executors *)

(** [this.thinking.getStepResult(stepId)], read from the live context. *)
Definition stepResult (stepId : jsstring) (c : ST.SequentialThinkingContext Value)
  : option Value :=
  match ST.find_step stepId (ST.steps c) with
  | Some (_, step) => ST.result step
  | None => None
  end.

(** [this.thinking.getStepResult('step-0') as ParsedResume]; anything
    but a parsed resume is read as [undefined]. *)
Definition parsedResumeIn (c : ST.SequentialThinkingContext Value) : option ParsedResume :=
  match stepResult (js "step-0") c with
  | Some (VParsedResume parsedResume) => Some parsedResume
  | _ => None
  end.









(** *** Vocabulary of the statements about the career progression *)

(** The rung of a title on a ladder of keywords: the position of the
    first keyword the title contains, -1 if it contains none. *)
Definition rank (keywords : list jsstring) (pos : jsstring) : Z :=
  findIndex pos keywords 0%Z.

(** The highest rung among some titles, -1 without one. *)
Definition highest (keywords : list jsstring) (positions : list jsstring) : Z :=
  foldr Z.max (-1)%Z (rank keywords <$> positions).

(** *** Vocabulary of the statements about the experience assessment *)

(** The number the comparator of [assessExperience] reads from a start
    date, 0 where [parseInt] gives [NaN]. *)
Definition startYearOf (exp : WorkExperience) : Z :=
  default 0%Z (JS.parseInt (startDate exp)).

(** *** [analyzeResume] *)

Variable now : nat -> Z.

(** The six methods bound into [executors]. *)
Record Stages := mkStages {
  parseResumeContent : ST.Executor Value;
  generateProfessionalProfile : ST.Executor Value;
  assessSkills : ST.Executor Value;
  assessExperienceStage : ST.Executor Value;
  assessEducation : ST.Executor Value;
  calculateOverallScore : ST.Executor Value
}.

(** Stage functions that leave the bookkeeping of the steps alone. *)
Definition stages_keep_bookkeeping (stages : Stages) : Prop :=
  ST.keeps_bookkeeping (parseResumeContent stages) /\
  ST.keeps_bookkeeping (generateProfessionalProfile stages) /\
  ST.keeps_bookkeeping (assessSkills stages) /\
  ST.keeps_bookkeeping (assessExperienceStage stages) /\
  ST.keeps_bookkeeping (assessEducation stages) /\
  ST.keeps_bookkeeping (calculateOverallScore stages).

Definition executorsOf (stages : Stages) : gmap jsstring (ST.Executor Value) :=
  <[js "step-0" := parseResumeContent stages]>
  (<[js "step-1" := generateProfessionalProfile stages]>
  (<[js "step-2" := assessSkills stages]>
  (<[js "step-3" := assessExperienceStage stages]>
  (<[js "step-4" := assessEducation stages]>
  (<[js "step-5" := calculateOverallScore stages]> ∅))))).


(** The fields of a [ResumeAnalyzer]. *)
Record Analyzer := mkAnalyzer {
  thinking : ST.World Value;
  targetJob : option jsstring;
  analysisResult : option ResumeAnalysisResult;
  resumeLanguage : Language
}.

(** [constructor(targetJob, onStepUpdate)] *)
Definition constructor (targetJob : option jsstring) : Analyzer :=
  mkAnalyzer (ST.constructor now createResumeAnalysisSteps) targetJob None en.

Definition languageTag (l : Language) : jsstring :=
  match l with en => js "en" | zh => js "zh" end.

Import ST.MonadNotations.

(** The body of [analyzeResume], as it acts on [this.thinking]. *)
Definition analysis (stages : Stages) (job : option jsstring) (resumeText : jsstring)
  : ST.M Value ResumeAnalysisResult :=
  let lang := detectLanguage resumeText in
  ST.updateMetadata (js "resumeText") (VString resumeText) ;;
  ST.updateMetadata (js "targetJob")
    (match job with Some t => VString t | None => VUndefined end) ;;
  ST.updateMetadata (js "language") (VString (languageTag lang)) ;;
  ST.executeAll now (executorsOf stages) ;;
  do profile <- ST.getStepResult (js "step-1");
  do skill <- ST.getStepResult (js "step-2");
  do experience <- ST.getStepResult (js "step-3");
  do education <- ST.getStepResult (js "step-4");
  do overall <- ST.getStepResult (js "step-5");
  ST.ret (mkResult profile skill experience education overall lang).

(** [public async analyzeResume(resumeText)]: the language is stored
    first, the record last. *)
Definition analyzeResume (stages : Stages) (resumeText : jsstring) (a : Analyzer)
  : ST.Res ResumeAnalysisResult * Analyzer :=
  let lang := detectLanguage resumeText in
  match analysis stages (targetJob a) resumeText (thinking a) with
  | (ST.Ret r, w) => (ST.Ret r, mkAnalyzer w (targetJob a) (Some r) lang)
  | (ST.Throw message, w) =>
    (ST.Throw message, mkAnalyzer w (targetJob a) (analysisResult a) lang)
  end.

End Analyzer.

End ResumeAnalyzer.

(* --------------------------------------------------------------------- *)
(** ** Sample resumes and runs of the analyzer                            *)
(* --------------------------------------------------------------------- *)

Module AnalyzerSamples.

Import ResumeAnalyzer.

Module ST := SequentialThinking.

(** June 2024. *)
Definition thisYear : Z := 2024.
Definition thisMonth : Z := 6.

Definition job (company position startDate endDate : string) : WorkExperience :=
  mkWorkExperience (js company) (js position) (js startDate) (js endDate) [] [].

(** A long first job and a short later one. *)
Definition overlapping : list WorkExperience :=
  [job "Acme Inc" "Engineer" "2010.1" "2022.12";
   job "Initech Ltd" "Engineer" "2015.1" "2016.12"].

(** Two jobs, the later one listed first. *)
Definition recentFirst : list WorkExperience :=
  [job "Initech Ltd" "Senior Engineer" "2020.1" "2023.6";
   job "Acme Inc" "Junior Engineer" "2015.3" "2019.12"].

Definition nobody : PersonalInfo := mkPersonalInfo [] None None None None None None.

Definition resumeOf (jobs : list WorkExperience) : ParsedResume :=
  mkParsedResume nobody [] jobs [] [] [] [] en.

Definition resolves (v : Value) : ST.Executor Value := fun _ c => (c, inl v).

Definition rejects (message : jsstring) : ST.Executor Value := fun _ c => (c, inr message).

Definition noProfile : ProfessionalProfile :=
  mkProfessionalProfile [] [] [] None None None None None None None [] practitioner [] 0 [] [].

(** Stage functions: a parser that resolves with [recentFirst], the
    experience assessment of the source, and constant ones elsewhere. *)
Definition stages : Stages :=
  mkStages (resolves (VParsedResume (resumeOf recentFirst)))
           (resolves (VProfessionalProfile noProfile))
           (resolves (VSkillAssessment (mkSkillAssessment [] [])))
           (assessExperience JS.asciiLower)
           (resolves (VEducationAssessment (mkEducationAssessment [] [] [])))
           (resolves (VOverallAssessment (mkOverallAssessment []))).

(** The same with a parser that throws, as the spread call
    [languages.push(...matches)] does on a text with more matches than
    the engine takes arguments. *)
Definition failingParse : Stages :=
  mkStages (rejects (js "Maximum call stack size exceeded"))
           (resolves (VProfessionalProfile noProfile))
           (resolves (VSkillAssessment (mkSkillAssessment [] [])))
           (assessExperience JS.asciiLower)
           (resolves (VEducationAssessment (mkEducationAssessment [] [] [])))
           (resolves (VOverallAssessment (mkOverallAssessment []))).

(** And with a profile stage that throws. *)
Definition failingProfile : Stages :=
  mkStages (resolves (VParsedResume (resumeOf recentFirst)))
           (rejects (js "profile generation failed"))
           (resolves (VSkillAssessment (mkSkillAssessment [] [])))
           (assessExperience JS.asciiLower)
           (resolves (VEducationAssessment (mkEducationAssessment [] [] [])))
           (resolves (VOverallAssessment (mkOverallAssessment []))).

Definition fresh : Analyzer := constructor Samples.ticking None.

(** The world after the first stage has run. *)
Definition parsed : ST.World Value :=
  (ST.executeStep Samples.ticking (js "step-0")
     (resolves (VParsedResume (resumeOf recentFirst))) (thinking fresh)).2.

(** Skills of a web developer, and a resume with them. *)
Definition webSkills : list Skill :=
  [mkSkill (js "Technical Skills") [js "JavaScript"; js "React"] intermediate;
   mkSkill (js "Soft Skills") [js "Leadership"] intermediate].

Definition webResume : ParsedResume :=
  mkParsedResume nobody [] recentFirst [] webSkills [] [] en.

(** The analyzer after one complete analysis. *)
Definition completed : Analyzer :=
  (analyzeResume Samples.ticking stages (js "Jane Doe") fresh).2.

End AnalyzerSamples.

(* ===================================================================== *)
(** * Part II: properties                                                 *)
(* ===================================================================== *)

(** ** The orchestrator *)

Section OrchestratorFacts.

Import SequentialThinking.

Context {Value : Type}.
Variable now : nat -> Z.

Implicit Types (w : World Value) (c : SequentialThinkingContext Value).
Implicit Types (s step : ThinkingStep Value) (e : Executor Value).
Implicit Types (executors : gmap jsstring (Executor Value)).
Implicit Types (defs : list (StepInit Value)).

Abbreviation steps_of w := (steps (context w)).
Abbreviation index_of w := (currentStepIndex (context w)).
Abbreviation status_at w i := (status <$> steps (context w) !! i).
Abbreviation id_at w i := (id <$> steps (context w) !! i).

(** *** Looking a step up by its identifier *)

Lemma find_step_Some stepId (l : list (ThinkingStep Value)) j found :
  find_step stepId l = Some (j, found) ->
  l !! j = Some found /\ id found = stepId /\
  forall i s, l !! i = Some s -> i < j -> id s <> stepId.
Proof.
  unfold find_step. intros H. apply list_find_Some in H.
  destruct H as (Hj & Hid & Hbefore). split; [done|]. split; [done|].
  intros i s Hi Hlt. exact (Hbefore i s Hi Hlt).
Qed.

Lemma find_step_None stepId (l : list (ThinkingStep Value)) :
  find_step stepId l = None <-> forall s, s ∈ l -> id s <> stepId.
Proof.
  unfold find_step. rewrite list_find_None, Forall_forall. reflexivity.
Qed.

(** With pairwise distinct identifiers the step found under the
    identifier of the i-th step is the i-th step. *)
Lemma find_step_NoDup (l : list (ThinkingStep Value)) i s :
  NoDup (id <$> l) -> l !! i = Some s ->
  find_step (id s) l = Some (i, s).
Proof.
  intros Hnd Hi. unfold find_step. apply list_find_Some.
  split; [done|]. split; [done|].
  intros k t Hk Hlt Heq.
  assert (k = i); [|lia].
  eapply NoDup_lookup; [exact Hnd| |].
  - rewrite list_lookup_fmap, Hk. simpl. reflexivity.
  - rewrite list_lookup_fmap, Hi. simpl. by rewrite Heq.
Qed.

(** *** What an executor may not touch *)

Lemma keeps_bookkeeping_lookup e s c i :
  keeps_bookkeeping e ->
  bookkeeping <$> steps (e s c).1 !! i = bookkeeping <$> steps c !! i.
Proof.
  intros He. destruct (He s c) as [Hb _].
  rewrite <- !list_lookup_fmap. by rewrite Hb.
Qed.

Lemma keeps_bookkeeping_length e s c :
  keeps_bookkeeping e -> length (steps (e s c).1) = length (steps c).
Proof.
  intros He. destruct (He s c) as [Hb _].
  apply (f_equal length) in Hb. by rewrite !length_fmap in Hb.
Qed.

Lemma keeps_steps_bookkeeping e : keeps_steps e -> keeps_bookkeeping e.
Proof. intros He s c. destruct (He s c) as [-> ->]. done. Qed.

Lemma keeps_steps_housekeeping e : keeps_steps e -> keeps_housekeeping e.
Proof. intros He s c. destruct (He s c) as [-> ->]. done. Qed.

Lemma keeps_housekeeping_bookkeeping e : keeps_housekeeping e -> keeps_bookkeeping e.
Proof.
  intros He s c. destruct (He s c) as [Hh Hi]. split; [|done].
  change bookkeeping
    with ((fun h : jsstring * jsstring * jsstring * Status * option jsstring * Z =>
             (h.1.1.1.1.1, h.1.1.2)) ∘ @housekeeping Value).
  by rewrite !list_fmap_compose, Hh.
Qed.

Lemma housekeeping_status (o o' : option (ThinkingStep Value)) :
  housekeeping <$> o = housekeeping <$> o' -> status <$> o = status <$> o'.
Proof. unfold housekeeping. destruct o, o'; simpl; congruence. Qed.

Lemma bookkeeping_status (o o' : option (ThinkingStep Value)) :
  bookkeeping <$> o = bookkeeping <$> o' -> status <$> o = status <$> o'.
Proof. unfold bookkeeping. destruct o, o'; simpl; congruence. Qed.

Lemma bookkeeping_id (o o' : option (ThinkingStep Value)) :
  bookkeeping <$> o = bookkeeping <$> o' -> id <$> o = id <$> o'.
Proof. unfold bookkeeping. destruct o, o'; simpl; congruence. Qed.

Lemma bookkeeping_Some (o : option (ThinkingStep Value)) k st :
  bookkeeping <$> o = Some (k, st) -> id <$> o = Some k /\ status <$> o = Some st.
Proof. unfold bookkeeping. destruct o; simpl; intros; simplify_eq; done. Qed.

(** *** One execution of a step *)

Lemma executeStep_unknown w stepId e :
  find_step stepId (steps_of w) = None ->
  executeStep now stepId e w
  = (Throw (js "Step with id " ++ stepId ++ js " not found"), w).
Proof. intros H. unfold executeStep, bind, get, throw. by rewrite H. Qed.

(** The anatomy of a call that finds its step at position [j]: the
    context [c1] the executor is started in, what the executor makes of
    it ([c2], [o]), and the world the call ends in. *)
Lemma executeStep_found w stepId e j found :
  find_step stepId (steps_of w) = Some (j, found) ->
  let s1 := begin_step (now (clock w)) found in
  let c1 := set_isProcessing true
              (set_steps (alter (begin_step (now (clock w))) j (steps_of w)) (context w)) in
  let c2 := (e s1 c1).1 in
  let o := (e s1 c1).2 in
  let t := now (S (clock w)) in
  let c4 := set_isProcessing false
              (match o with
               | inl v => on_success j v t c2
               | inr message => on_failure j message t c2
               end) in
  executeStep now stepId e w
  = (Ret tt, mkWorld c4 (S (S (clock w)))
                     (updates w ++ [(s1, c1); (step_at j s1 c4, c4)])).
Proof.
  intros H. unfold executeStep, bind, get, put. rewrite H.
  apply find_step_Some in H as (Hj & _ & _).
  assert (Hs1 : step_at j found
                  (set_isProcessing true
                     (set_steps (alter (begin_step (now (clock w))) j (steps_of w))
                        (context w)))
                = begin_step (now (clock w)) found).
  { unfold step_at. simpl. rewrite list_lookup_alter_eq, Hj. reflexivity. }
  rewrite Hs1. simpl.
  destruct (e _ _) as [c2 o]. reflexivity.
Qed.

Lemma on_success_steps j v t c :
  steps (on_success j v t c) = alter (complete_step v t) j (steps c).
Proof. unfold on_success. by case_match. Qed.

Lemma on_success_index j (v : Value) t c :
  currentStepIndex (on_success j v t c)
  = if (currentStepIndex c <? Z.of_nat (length (steps c)) - 1)%Z
    then (currentStepIndex c + 1)%Z else currentStepIndex c.
Proof.
  unfold on_success. simpl. rewrite length_alter. by case_match.
Qed.

(** What a call that finds its step does to the bookkeeping. *)
Lemma executeStep_bookkeeping w stepId e j found :
  find_step stepId (steps_of w) = Some (j, found) ->
  keeps_bookkeeping e ->
  exists o : Value + jsstring,
    let w' := (executeStep now stepId e w).2 in
    (executeStep now stepId e w).1 = Ret tt /\
    bookkeeping <$> steps_of w' !! j = Some (stepId, outcome_status o) /\
    (forall i, i <> j ->
       bookkeeping <$> steps_of w' !! i = bookkeeping <$> steps_of w !! i) /\
    index_of w'
    = match o with
      | inl _ => if (index_of w <? Z.of_nat (length (steps_of w)) - 1)%Z
                 then (index_of w + 1)%Z else index_of w
      | inr _ => index_of w
      end /\
    isProcessing (context w') = false /\
    clock w' = S (S (clock w)) /\
    exists c1 s4,
      updates w' = updates w ++ [(begin_step (now (clock w)) found, c1); (s4, context w')] /\
      bookkeeping s4 = (stepId, outcome_status o) /\
      bookkeeping <$> steps c1 = bookkeeping <$> alter (begin_step (now (clock w))) j (steps_of w) /\
      steps_of w' !! j = Some s4.
Proof.
  intros Hfind He.
  pose proof (executeStep_found w stepId e j found Hfind) as Hrun.
  apply find_step_Some in Hfind as (Hj & Hid & _).
  simpl in Hrun.
  set (s1 := begin_step (now (clock w)) found) in *.
  set (c1 := set_isProcessing true
               (set_steps (alter (begin_step (now (clock w))) j (steps_of w))
                  (context w))) in *.
  pose proof (keeps_bookkeeping_lookup e s1 c1) as Hlook.
  pose proof (keeps_bookkeeping_length e s1 c1 He) as Hlen.
  destruct (He s1 c1) as [_ Hidx].
  assert (Hc1j : steps c1 !! j = Some s1).
  { subst c1 s1. simpl. by rewrite list_lookup_alter_eq, Hj. }
  assert (Hc2j : exists s2, steps (e s1 c1).1 !! j = Some s2 /\ id s2 = stepId).
  { specialize (Hlook j He). rewrite Hc1j in Hlook.
    destruct (steps (e s1 c1).1 !! j) as [s2|]; [|done].
    exists s2. split; [done|]. simpl in Hlook. unfold bookkeeping in Hlook.
    simplify_eq. subst s1. simpl in *. congruence. }
  destruct Hc2j as (s2 & Hc2j & Hid2).
  assert (Hother : forall i, i <> j ->
            bookkeeping <$> steps (e s1 c1).1 !! i = bookkeeping <$> steps_of w !! i).
  { intros i Hi. rewrite (Hlook i He). subst c1. simpl.
    by rewrite list_lookup_alter_ne. }
  exists (e s1 c1).2. rewrite Hrun. simpl.
  split; [done|].
  assert (Hlenw : length (steps (e s1 c1).1) = length (steps_of w)).
  { rewrite Hlen. subst c1. simpl. by rewrite length_alter. }
  destruct (e s1 c1).2 as [v|message] eqn:Ho; simpl.
  - rewrite on_success_steps, on_success_index.
    rewrite list_lookup_alter_eq, Hc2j. simpl.
    split; [unfold bookkeeping; simpl; by rewrite Hid2|].
    split; [intros i Hi; rewrite list_lookup_alter_ne by done; by apply Hother|].
    split; [rewrite Hidx, Hlenw; subst c1; by simpl|].
    split; [done|]. split; [done|].
    eexists c1, _. split; [reflexivity|].
    unfold step_at. simpl. rewrite on_success_steps.
    rewrite list_lookup_alter_eq, Hc2j. simpl.
    split; [unfold bookkeeping; simpl; by rewrite Hid2|].
    split; [by subst c1|done].
  - rewrite list_lookup_alter_eq, Hc2j. simpl.
    split; [unfold bookkeeping; simpl; by rewrite Hid2|].
    split; [intros i Hi; rewrite list_lookup_alter_ne by done; by apply Hother|].
    split; [rewrite Hidx; subst c1; by simpl|].
    split; [done|]. split; [done|].
    eexists c1, _. split; [reflexivity|].
    unfold step_at. simpl.
    rewrite list_lookup_alter_eq, Hc2j. simpl.
    split; [unfold bookkeeping; simpl; by rewrite Hid2|].
    split; [by subst c1|done].
Qed.

Lemma executeStep_ids w stepId e :
  keeps_bookkeeping e ->
  id <$> steps_of (executeStep now stepId e w).2 = id <$> steps_of w.
Proof.
  intros He. destruct (find_step stepId (steps_of w)) as [[j found]|] eqn:Hfind.
  - destruct (executeStep_bookkeeping w stepId e j found Hfind He)
      as (o & _ & Hj & Hother & _).
    apply find_step_Some in Hfind as (Hfj & Hid & _).
    apply list_eq. intros i. rewrite !list_lookup_fmap.
    destruct (decide (i = j)) as [->|Hne].
    + apply bookkeeping_Some in Hj as [Hj _]. rewrite Hj, Hfj. simpl. by rewrite Hid.
    + apply bookkeeping_id. by apply Hother.
  - by rewrite executeStep_unknown.
Qed.

Lemma executeStep_length w stepId e :
  keeps_bookkeeping e ->
  length (steps_of (executeStep now stepId e w).2) = length (steps_of w).
Proof.
  intros He. pose proof (executeStep_ids w stepId e He) as H.
  apply (f_equal length) in H. by rewrite !length_fmap in H.
Qed.

(** An executor that leaves the step list alone: every step but the
    executed one is the same record afterwards. *)
Lemma executeStep_frame w stepId e j found i :
  find_step stepId (steps_of w) = Some (j, found) ->
  keeps_steps e -> i <> j ->
  steps_of (executeStep now stepId e w).2 !! i = steps_of w !! i.
Proof.
  intros Hfind He Hne.
  rewrite (executeStep_found w stepId e j found Hfind). simpl.
  destruct (He (begin_step (now (clock w)) found)
               (set_isProcessing true
                  (set_steps (alter (begin_step (now (clock w))) j (steps_of w))
                     (context w)))) as [Hsteps _].
  destruct (e _ _).2; simpl.
  - rewrite on_success_steps, list_lookup_alter_ne by done.
    rewrite Hsteps. simpl. by rewrite list_lookup_alter_ne.
  - rewrite list_lookup_alter_ne by done.
    rewrite Hsteps. simpl. by rewrite list_lookup_alter_ne.
Qed.

Lemma executeStep_frame_housekeeping w stepId e j found i :
  find_step stepId (steps_of w) = Some (j, found) ->
  keeps_housekeeping e -> i <> j ->
  housekeeping <$> steps_of (executeStep now stepId e w).2 !! i
  = housekeeping <$> steps_of w !! i.
Proof.
  intros Hfind He Hne.
  rewrite (executeStep_found w stepId e j found Hfind). simpl.
  destruct (He (begin_step (now (clock w)) found)
               (set_isProcessing true
                  (set_steps (alter (begin_step (now (clock w))) j (steps_of w))
                     (context w)))) as [Hsteps _].
  apply (f_equal (fun l => l !! i)) in Hsteps.
  rewrite !list_lookup_fmap in Hsteps. simpl in Hsteps.
  rewrite list_lookup_alter_ne in Hsteps by done.
  destruct (e _ _).2; simpl.
  - by rewrite on_success_steps, list_lookup_alter_ne.
  - by rewrite list_lookup_alter_ne.
Qed.

(** *** The loop of [executeAll] *)

Lemma executor_for_Some executors k e :
  executor_for executors k = Some e -> exists k', executors !! k' = Some e.
Proof.
  unfold executor_for. destruct (executors !! k) eqn:H; intros; simplify_eq; eauto.
Qed.

(** One turn of the loop, state passed by hand. *)
Lemma executeAll_from_S executors rest i w :
  executeAll_from now executors (S rest) i w
  = match steps_of w !! i with
    | None => (Ret tt, w)
    | Some step =>
      if decide (status step = Completed)
      then executeAll_from now executors rest (S i) w
      else
        match executor_for executors (id step) with
        | None => (Throw (js "No executor found for step " ++ id step), w)
        | Some executor =>
          match executeStep now (id step) executor w with
          | (Throw message, w') => (Throw message, w')
          | (Ret _, w') =>
            match steps_of w' !! i with
            | Some step' =>
              if decide (status step' = Error) then (Ret tt, w')
              else executeAll_from now executors rest (S i) w'
            | None => (Ret tt, w')
            end
          end
        end
    end.
Proof.
  simpl. unfold bind at 1. unfold get at 1. simpl.
  destruct (steps_of w !! i) as [step|]; [|done].
  case_decide; [done|].
  destruct (executor_for executors (id step)) as [executor|]; [|done].
  unfold bind at 1.
  destruct (executeStep now (id step) executor w) as [[[]|message] w']; [|done].
  unfold bind, get. simpl.
  destruct (steps_of w' !! i) as [step'|]; [|done].
  by case_decide.
Qed.

Lemma executeAll_unfold executors w :
  executeAll now executors w
  = executeAll_from now executors (length (steps_of w)) 0 w.
Proof. reflexivity. Qed.

Lemma executeAll_from_loop executors rest i w :
  all_executors keeps_bookkeeping executors ->
  NoDup (id <$> steps_of w) ->
  length (steps_of w) <= rest + i ->
  loop now executors i w (executeAll_from now executors rest i w).1
                         (executeAll_from now executors rest i w).2.
Proof.
  intros Hex. revert i w.
  induction rest as [|rest IH]; intros i w Hnd Hlen.
  { simpl. apply loop_done. apply lookup_ge_None. lia. }
  rewrite executeAll_from_S.
  destruct (steps_of w !! i) as [step|] eqn:Hi; [|by apply loop_done].
  destruct (decide (status step = Completed)) as [Hc|Hc].
  { eapply loop_continue; [done..|]. apply IH; [done|lia]. }
  destruct (executor_for executors (id step)) as [e|] eqn:Hfor;
    [|by eapply loop_no_executor].
  destruct (executor_for_Some _ _ _ Hfor) as [k' Hk'].
  pose proof (Hex k' e Hk') as He.
  pose proof (find_step_NoDup _ i step Hnd Hi) as Hfind.
  destruct (executeStep_bookkeeping w (id step) e i step Hfind He)
    as (o & Hret & Hj & _).
  pose proof (executeStep_ids w (id step) e He) as Hids.
  pose proof (executeStep_length w (id step) e He) as Hlen'.
  destruct (executeStep now (id step) e w) as [r w1] eqn:Hrun. simpl in *.
  subst r.
  destruct (steps_of w1 !! i) as [step1|] eqn:Hi1; [|done].
  destruct (decide (status step1 = Error)) as [Herr|Herr].
  { by eapply loop_break. }
  eapply loop_next; [done..|].
  apply IH; [by rewrite Hids|lia].
Qed.

Lemma executeAll_loop executors w :
  all_executors keeps_bookkeeping executors ->
  NoDup (id <$> steps_of w) ->
  loop now executors 0 w (executeAll now executors w).1 (executeAll now executors w).2.
Proof.
  intros Hex Hnd. rewrite executeAll_unfold. apply executeAll_from_loop; [done..|lia].
Qed.

(** Where the loop stops and what it leaves behind: the positions before
    [i] and after [stop] keep their bookkeeping, the positions from [i]
    to [stop] (excluded) are completed, and every call to the observer
    is for a step between [i] and [stop] that was not completed. *)
Lemma loop_spec executors i w r w' :
  loop now executors i w r w' ->
  all_executors keeps_bookkeeping executors ->
  NoDup (id <$> steps_of w) ->
  id <$> steps_of w' = id <$> steps_of w /\
  exists stop new,
    i <= stop /\
    (forall p, p < i ->
       bookkeeping <$> steps_of w' !! p = bookkeeping <$> steps_of w !! p) /\
    (forall p, i <= p < stop -> status_at w' p = Some Completed) /\
    (forall p, stop < p ->
       bookkeeping <$> steps_of w' !! p = bookkeeping <$> steps_of w !! p) /\
    match r with
    | Ret _ => status_at w' stop = Some Error \/ steps_of w !! stop = None
    | Throw _ =>
        bookkeeping <$> steps_of w' !! stop = bookkeeping <$> steps_of w !! stop /\
        exists step, steps_of w !! stop = Some step /\ status step <> Completed /\
                     executor_for executors (id step) = None
    end /\
    updates w' = updates w ++ new /\
    Forall (fun ev => exists p, i <= p <= stop /\
                        id_at w p = Some (id ev.1) /\
                        status_at w p <> Some Completed) new.
Proof.
  intros Hloop Hex.
  induction Hloop as
    [ i w Hi
    | i w step r w' Hi Hc Hloop IH
    | i w step Hi Hc Hfor
    | i w step e w1 step1 Hi Hc Hfor Hrun Hi1 Herr
    | i w step e w1 step1 r w' Hi Hc Hfor Hrun Hi1 Herr Hloop IH ]; intros Hnd.
  - split; [done|]. exists i, []. rewrite app_nil_r.
    split; [lia|]. split; [done|]. split; [intros; lia|]. split; [done|].
    split; [by right|]. split; [done|]. constructor.
  - destruct (IH Hnd) as (Hids & stop & new & Hle & Hbefore & Hmid & Hafter & Hr & Hup & Hev).
    split; [done|]. exists stop, new.
    split; [lia|]. split; [intros p Hp; apply Hbefore; lia|].
    split.
    { intros p Hp. destruct (decide (p = i)) as [->|Hne].
      - rewrite (bookkeeping_status _ _ (Hbefore i ltac:(lia))), Hi.
        simpl. by rewrite Hc.
      - apply Hmid. lia. }
    split; [done|]. split; [done|]. split; [done|].
    eapply Forall_impl; [exact Hev|]. simpl.
    intros ev (p & Hp & Hev'). exists p. split; [lia|done].
  - split; [done|]. exists i, []. rewrite app_nil_r.
    split; [lia|]. split; [done|]. split; [intros; lia|]. split; [done|].
    split; [split; [done|]; by exists step|]. split; [done|]. constructor.
  - destruct (executor_for_Some _ _ _ Hfor) as [k' Hk'].
    pose proof (Hex k' e Hk') as He.
    pose proof (find_step_NoDup _ i step Hnd Hi) as Hfind.
    destruct (executeStep_bookkeeping w (id step) e i step Hfind He)
      as (o & _ & Hj & Hother & _ & _ & _ & c1 & s4 & Hup & Hs4 & _).
    pose proof (executeStep_ids w (id step) e He) as Hids.
    rewrite Hrun in *. simpl in *.
    split; [done|]. exists i, [(begin_step (now (clock w)) step, c1); (s4, context w1)].
    split; [lia|]. split; [intros p Hp; apply Hother; lia|].
    split; [intros p Hp; lia|].
    split; [intros p Hp; apply Hother; lia|].
    split; [left; by rewrite Hi1; simpl; rewrite Herr|].
    split; [done|].
    repeat constructor; exists i; (split; [lia|]); rewrite Hi; simpl.
    + split; [done|]. congruence.
    + apply (f_equal fst) in Hs4. simpl in Hs4. rewrite Hs4.
      split; [done|]. congruence.
  - destruct (executor_for_Some _ _ _ Hfor) as [k' Hk'].
    pose proof (Hex k' e Hk') as He.
    pose proof (find_step_NoDup _ i step Hnd Hi) as Hfind.
    destruct (executeStep_bookkeeping w (id step) e i step Hfind He)
      as (o & _ & Hj & Hother & _ & _ & _ & c1 & s4 & Hup & Hs4 & _).
    pose proof (executeStep_ids w (id step) e He) as Hids.
    rewrite Hrun in *. simpl in *.
    assert (Hnd1 : NoDup (id <$> steps_of w1)) by by rewrite Hids.
    destruct (IH Hnd1) as (Hids' & stop & new & Hle & Hbefore & Hmid & Hafter & Hr & Hup' & Hev).
    split; [by rewrite Hids'|].
    exists stop, ([(begin_step (now (clock w)) step, c1); (s4, context w1)] ++ new).
    assert (Hst1 : status step1 = Completed).
    { apply bookkeeping_Some in Hj as [_ Hj]. rewrite Hi1 in Hj. simpl in Hj.
      destruct o; simpl in Hj; by simplify_eq. }
    split; [lia|].
    split; [intros p Hp; rewrite Hbefore by lia; apply Hother; lia|].
    split.
    { intros p Hp. destruct (decide (p = i)) as [->|Hne].
      - rewrite (bookkeeping_status _ _ (Hbefore i ltac:(lia))), Hi1.
        simpl. by rewrite Hst1.
      - apply Hmid. lia. }
    split; [intros p Hp; rewrite Hafter by lia; apply Hother; lia|].
    split.
    { destruct r; [|].
      - destruct Hr as [Hr|Hr]; [by left|right].
        apply (f_equal (fmap id)) in Hr.
        rewrite <- list_lookup_fmap, Hids, list_lookup_fmap in Hr.
        by destruct (steps_of w !! stop).
      - destruct Hr as (Hbk & step' & Hstop & Hc' & Hfor').
        assert (stop <> i) as Hne by lia.
        split; [rewrite Hbk; apply Hother; lia|].
        specialize (Hother stop Hne). rewrite Hstop in Hother.
        destruct (steps_of w !! stop) as [step0|] eqn:Hstop0; [|done].
        simpl in Hother. unfold bookkeeping in Hother. simplify_eq.
        exists step0. split; [done|]. split; [congruence|]. congruence. }
    split; [rewrite Hup', Hup; by rewrite <- app_assoc|].
    apply Forall_app. split.
    + repeat constructor; exists i; (split; [lia|]); rewrite Hi; simpl.
      * split; [done|]. congruence.
      * apply (f_equal fst) in Hs4. simpl in Hs4. rewrite Hs4.
        split; [done|]. congruence.
    + eapply Forall_impl; [exact Hev|]. simpl.
      intros ev (p & Hp & Hid & Hst). exists p. split; [lia|].
      assert (p <> i) as Hne by lia.
      specialize (Hother p Hne).
      rewrite <- (bookkeeping_id _ _ Hother), <- (bookkeeping_status _ _ Hother).
      done.
Qed.

(** *** The current index *)

Lemma completed_insert (l : list Status) j st :
  length (filter (fun x => x = Completed) (<[j := st]> l))
  <= S (length (filter (fun x => x = Completed) l)) /\
  (st <> Completed ->
   length (filter (fun x => x = Completed) (<[j := st]> l))
   <= length (filter (fun x => x = Completed) l)).
Proof.
  revert j. induction l as [|x l IH]; intros j; simpl.
  { destruct j; simpl; split; intros; lia. }
  destruct j as [|j]; simpl.
  - rewrite !filter_cons. repeat case_decide; simpl; split; intros; try lia; done.
  - specialize (IH j). rewrite !filter_cons.
    case_decide; simpl; split; intros; try lia;
      destruct IH as [IH1 IH2]; try specialize (IH2 ltac:(done)); lia.
Qed.

Lemma executeStep_statuses w stepId e j found :
  find_step stepId (steps_of w) = Some (j, found) ->
  keeps_bookkeeping e ->
  exists o : Value + jsstring,
    let w' := (executeStep now stepId e w).2 in
    status <$> steps_of w' = <[j := outcome_status o]> (status <$> steps_of w) /\
    index_of w'
    = match o with
      | inl _ => if (index_of w <? Z.of_nat (length (steps_of w)) - 1)%Z
                 then (index_of w + 1)%Z else index_of w
      | inr _ => index_of w
      end.
Proof.
  intros Hfind He.
  destruct (executeStep_bookkeeping w stepId e j found Hfind He)
    as (o & _ & Hj & Hother & Hidx & _).
  exists o. simpl. split; [|done].
  apply find_step_Some in Hfind as (Hfj & _ & _).
  apply list_eq. intros i. rewrite list_lookup_fmap.
  destruct (decide (i = j)) as [->|Hne].
  - apply bookkeeping_Some in Hj as [_ Hj]. rewrite Hj.
    rewrite list_lookup_insert_eq; [done|].
    rewrite length_fmap. by eapply lookup_lt_Some.
  - rewrite list_lookup_insert_ne by done. rewrite list_lookup_fmap.
    apply bookkeeping_status. by apply Hother.
Qed.

Lemma executeStep_index_invariant w stepId e :
  keeps_bookkeeping e ->
  index_invariant (context w) ->
  index_invariant (context (executeStep now stepId e w).2).
Proof.
  intros He (H0 & Hlo & Hhi).
  destruct (find_step stepId (steps_of w)) as [[j found]|] eqn:Hfind;
    [|by rewrite executeStep_unknown].
  destruct (executeStep_statuses w stepId e j found Hfind He) as (o & Hst & Hidx).
  pose proof (executeStep_length w stepId e He) as Hlen.
  simpl in *. unfold index_invariant, completed_count in *.
  rewrite Hst, Hlen, Hidx.
  destruct (completed_insert (status <$> steps_of w) j (outcome_status o)) as [H1 H2].
  destruct o as [v|message]; simpl in *.
  - case_match; lia.
  - specialize (H2 ltac:(done)). lia.
Qed.

Lemma loop_index_invariant executors i w r w' :
  loop now executors i w r w' ->
  all_executors keeps_bookkeeping executors ->
  index_invariant (context w) -> index_invariant (context w').
Proof.
  intros Hloop Hex.
  induction Hloop as
    [ i w Hi
    | i w step r w' Hi Hc Hloop IH
    | i w step Hi Hc Hfor
    | i w step e w1 step1 Hi Hc Hfor Hrun Hi1 Herr
    | i w step e w1 step1 r w' Hi Hc Hfor Hrun Hi1 Herr Hloop IH ]; intros Hinv; auto.
  - destruct (executor_for_Some _ _ _ Hfor) as [k' Hk'].
    pose proof (executeStep_index_invariant w (id step) e (Hex k' e Hk') Hinv) as H.
    by rewrite Hrun in H.
  - destruct (executor_for_Some _ _ _ Hfor) as [k' Hk'].
    pose proof (executeStep_index_invariant w (id step) e (Hex k' e Hk') Hinv) as H.
    rewrite Hrun in H. by apply IH.
Qed.

(** The index never decreases along the loop. *)
Lemma executeStep_index_mono w stepId e :
  keeps_bookkeeping e ->
  (index_of w <= index_of (executeStep now stepId e w).2)%Z.
Proof.
  intros He.
  destruct (find_step stepId (steps_of w)) as [[j found]|] eqn:Hfind;
    [|by rewrite executeStep_unknown].
  destruct (executeStep_statuses w stepId e j found Hfind He) as (o & _ & Hidx).
  simpl in Hidx. rewrite Hidx. destruct o; [case_match|]; lia.
Qed.

Lemma loop_index_mono executors i w r w' :
  loop now executors i w r w' ->
  all_executors keeps_bookkeeping executors ->
  (index_of w <= index_of w')%Z.
Proof.
  intros Hloop Hex.
  induction Hloop as
    [ i w Hi
    | i w step r w' Hi Hc Hloop IH
    | i w step Hi Hc Hfor
    | i w step e w1 step1 Hi Hc Hfor Hrun Hi1 Herr
    | i w step e w1 step1 r w' Hi Hc Hfor Hrun Hi1 Herr Hloop IH ]; try done.
  - destruct (executor_for_Some _ _ _ Hfor) as [k' Hk'].
    pose proof (executeStep_index_mono w (id step) e (Hex k' e Hk')) as H.
    by rewrite Hrun in H.
  - destruct (executor_for_Some _ _ _ Hfor) as [k' Hk'].
    pose proof (executeStep_index_mono w (id step) e (Hex k' e Hk')) as H.
    rewrite Hrun in H. simpl in H. lia.
Qed.

(** *** The constructor *)

Lemma constructor_lookup defs p :
  steps_of (constructor now defs) !! p = new_step now 0 p <$> (defs !! p).
Proof. unfold constructor. simpl. apply list_lookup_imap. Qed.

Lemma constructor_length defs :
  length (steps_of (constructor now defs)) = length defs.
Proof. unfold constructor. simpl. apply length_imap. Qed.

Lemma constructor_status defs p s :
  steps_of (constructor now defs) !! p = Some s -> status s = Pending.
Proof.
  rewrite constructor_lookup. destruct (defs !! p); simpl; intros; by simplify_eq.
Qed.

Lemma constructor_id defs p s :
  steps_of (constructor now defs) !! p = Some s -> id s = js "step-" ++ JS.toString p.
Proof.
  rewrite constructor_lookup. destruct (defs !! p); simpl; intros; by simplify_eq.
Qed.

Lemma digits_inj d d' : JS.digits d = JS.digits d' -> d = d'.
Proof.
  revert d'. induction d; intros d'; destruct d'; simpl; intros H;
    try discriminate; try reflexivity; f_equal; apply IHd; congruence.
Qed.

Lemma toString_inj n m : JS.toString n = JS.toString m -> n = m.
Proof.
  unfold JS.toString. intros H. apply digits_inj in H.
  rewrite <- (Unsigned.of_to n), <- (Unsigned.of_to m). by rewrite H.
Qed.

Lemma constructor_NoDup defs : NoDup (id <$> steps_of (constructor now defs)).
Proof.
  apply NoDup_alt. intros i j x. rewrite !list_lookup_fmap.
  destruct (steps_of (constructor now defs) !! i) as [si|] eqn:Hi; [|done].
  destruct (steps_of (constructor now defs) !! j) as [sj|] eqn:Hj; [|done].
  simpl. intros ? ?. simplify_eq.
  apply constructor_id in Hi, Hj.
  apply toString_inj. eapply app_inv_head. by rewrite <- Hi, <- Hj.
Qed.

Lemma completed_none (l : list Status) :
  Forall (fun st => st <> Completed) l ->
  filter (fun st => st = Completed) l = [].
Proof.
  induction 1 as [|st l Hst _ IH]; [done|].
  rewrite filter_cons. by case_decide.
Qed.

Lemma completed_all (l : list Status) :
  Forall (fun st => st = Completed) l ->
  filter (fun st => st = Completed) l = l.
Proof.
  induction 1 as [|st l Hst _ IH]; [done|].
  rewrite filter_cons. case_decide; [by rewrite IH|done].
Qed.

Lemma constructor_index_invariant defs : index_invariant (context (constructor now defs)).
Proof.
  unfold index_invariant, completed_count.
  rewrite completed_none.
  - rewrite constructor_length. simpl. lia.
  - apply Forall_fmap, Forall_lookup. intros p s Hp. simpl.
    by rewrite (constructor_status defs p s Hp).
Qed.

(** *** Reachable worlds *)

Lemma executeAll_ids executors w :
  all_executors keeps_bookkeeping executors ->
  NoDup (id <$> steps_of w) ->
  id <$> steps_of (executeAll now executors w).2 = id <$> steps_of w.
Proof.
  intros Hex Hnd.
  by destruct (loop_spec _ _ _ _ _ (executeAll_loop executors w Hex Hnd) Hex Hnd).
Qed.

Lemma reachable_invariant w :
  reachable now w ->
  NoDup (id <$> steps_of w) /\ index_invariant (context w).
Proof.
  induction 1 as [defs|w stepId e _ [IHn IHi] He|w executors _ [IHn IHi] Hex
                 |w key value _ [IHn IHi]].
  - split; [apply constructor_NoDup|apply constructor_index_invariant].
  - split; [by rewrite executeStep_ids|by apply executeStep_index_invariant].
  - split; [by rewrite executeAll_ids|].
    eapply loop_index_invariant; [by apply executeAll_loop|done..].
  - done.
Qed.

(** *** No way back to [Pending] *)

Lemma executeStep_not_pending w stepId e p st :
  keeps_bookkeeping e ->
  status_at w p = Some st -> st <> Pending ->
  exists st', status_at (executeStep now stepId e w).2 p = Some st' /\ st' <> Pending.
Proof.
  intros He Hp Hst.
  destruct (find_step stepId (steps_of w)) as [[j found]|] eqn:Hfind;
    [|rewrite executeStep_unknown by done; eauto].
  destruct (executeStep_bookkeeping w stepId e j found Hfind He)
    as (o & _ & Hj & Hother & _).
  destruct (decide (p = j)) as [->|Hne].
  - apply bookkeeping_Some in Hj as [_ Hj]. exists (outcome_status o).
    split; [done|]. by destruct o.
  - exists st. split; [|done].
    by rewrite (bookkeeping_status _ _ (Hother p Hne)).
Qed.

Lemma loop_not_pending executors i w r w' p st :
  loop now executors i w r w' ->
  all_executors keeps_bookkeeping executors ->
  status_at w p = Some st -> st <> Pending ->
  exists st', status_at w' p = Some st' /\ st' <> Pending.
Proof.
  intros Hloop Hex. revert st.
  induction Hloop as
    [ i w Hi
    | i w step r w' Hi Hc Hloop IH
    | i w step Hi Hc Hfor
    | i w step e w1 step1 Hi Hc Hfor Hrun Hi1 Herr
    | i w step e w1 step1 r w' Hi Hc Hfor Hrun Hi1 Herr Hloop IH ];
    intros st Hp Hst; eauto.
  - destruct (executor_for_Some _ _ _ Hfor) as [k' Hk'].
    pose proof (executeStep_not_pending w (id step) e p st (Hex k' e Hk') Hp Hst) as H.
    by rewrite Hrun in H.
  - destruct (executor_for_Some _ _ _ Hfor) as [k' Hk'].
    destruct (executeStep_not_pending w (id step) e p st (Hex k' e Hk') Hp Hst)
      as (st1 & H1 & Hst1).
    rewrite Hrun in H1. eauto.
Qed.

(** *** Completed steps are left alone *)

Lemma loop_frame executors i w r w' p :
  loop now executors i w r w' ->
  all_executors keeps_steps executors ->
  NoDup (id <$> steps_of w) ->
  p < i \/ status_at w p = Some Completed ->
  steps_of w' !! p = steps_of w !! p.
Proof.
  intros Hloop Hex.
  induction Hloop as
    [ i w Hi
    | i w step r w' Hi Hc Hloop IH
    | i w step Hi Hc Hfor
    | i w step e w1 step1 Hi Hc Hfor Hrun Hi1 Herr
    | i w step e w1 step1 r w' Hi Hc Hfor Hrun Hi1 Herr Hloop IH ];
    intros Hnd Hp; try done.
  - apply IH; [done|]. destruct Hp as [Hp|Hp]; [left; lia|by right].
  - destruct (executor_for_Some _ _ _ Hfor) as [k' Hk'].
    pose proof (find_step_NoDup _ i step Hnd Hi) as Hfind.
    assert (p <> i) as Hne.
    { destruct Hp as [Hp|Hp]; [lia|]. intros ->. rewrite Hi in Hp.
      simpl in Hp. by simplify_eq. }
    pose proof (executeStep_frame w (id step) e i step p Hfind (Hex k' e Hk') Hne) as H.
    by rewrite Hrun in H.
  - destruct (executor_for_Some _ _ _ Hfor) as [k' Hk'].
    pose proof (find_step_NoDup _ i step Hnd Hi) as Hfind.
    assert (p <> i) as Hne.
    { destruct Hp as [Hp|Hp]; [lia|]. intros ->. rewrite Hi in Hp.
      simpl in Hp. by simplify_eq. }
    pose proof (executeStep_frame w (id step) e i step p Hfind (Hex k' e Hk') Hne) as H.
    pose proof (executeStep_ids w (id step) e
                  (keeps_steps_bookkeeping e (Hex k' e Hk'))) as Hids.
    rewrite Hrun in H, Hids. simpl in *.
    rewrite IH; [done|by rewrite Hids|].
    destruct Hp as [Hp|Hp]; [left; lia|right; by rewrite H].
Qed.

(** *** The statements of the design document *)

(** C10. For a step identifier that no step of the list carries,
    [getStepResult] returns [undefined] and does not throw, whereas
    [executeStep] throws its not-found error for the same identifier;
    and [getStepResult] leaves the world as it found it, whatever the
    identifier. *)
Theorem getStepResult_unknown_id w stepId e :
  (forall s, s ∈ steps_of w -> id s <> stepId) ->
  getStepResult stepId w = (Ret None, w) /\
  executeStep now stepId e w
  = (Throw (js "Step with id " ++ stepId ++ js " not found"), w) /\
  (forall anyId, (getStepResult anyId w).2 = w).
Proof.
  intros Hnone. apply find_step_None in Hnone.
  split; [|split].
  - unfold getStepResult, bind, get, ret. by rewrite Hnone.
  - by apply executeStep_unknown.
  - reflexivity.
Qed.

(** C6. In every reachable world, one execution of a step leaves
    [currentStepIndex] where it is or moves it forward by exactly one;
    it moves only if the executed step ends completed; an execution that
    ends in error leaves it unchanged; and over a whole [executeAll] it
    never moves backward. *)
Theorem currentStepIndex_advance w stepId e executors :
  reachable now w ->
  keeps_bookkeeping e ->
  all_executors keeps_bookkeeping executors ->
  let w' := (executeStep now stepId e w).2 in
  (index_of w' = index_of w \/ index_of w' = (index_of w + 1)%Z) /\
  (index_of w' <> index_of w ->
   exists j found, find_step stepId (steps_of w) = Some (j, found) /\
                   status_at w' j = Some Completed) /\
  (forall j found, find_step stepId (steps_of w) = Some (j, found) ->
                   status_at w' j = Some Error -> index_of w' = index_of w) /\
  (index_of w <= index_of (executeAll now executors w).2)%Z.
Proof.
  intros Hreach He Hex. simpl.
  destruct (reachable_invariant w Hreach) as [Hnd _].
  assert (Hall : (index_of w <= index_of (executeAll now executors w).2)%Z).
  { eapply loop_index_mono; [by apply executeAll_loop|done]. }
  destruct (find_step stepId (steps_of w)) as [[j found]|] eqn:Hfind.
  - destruct (executeStep_bookkeeping w stepId e j found Hfind He)
      as (o & _ & Hj & _ & Hidx & _).
    apply bookkeeping_Some in Hj as [_ Hj].
    destruct o as [v|message]; simpl in *.
    + split; [case_match; auto|]. split; [intros _; by exists j, found|].
      split; [|done]. intros j' found' ?. simplify_eq. rewrite Hj. done.
    + split; [by left|]. split; [done|]. split; [|done]. by intros.
  - rewrite executeStep_unknown by done.
    split; [by left|]. split; [done|]. split; [done|done].
Qed.

(** C2, as the code has it.  Run on the context the constructor builds
    from N step definitions, with an executor bound for every step,
    [executeAll] returns; if no step is in error afterwards, all N steps
    are completed and [currentStepIndex] is N-1 (0 for the empty list);
    and if the step at position k is in error, the steps before k are
    completed, the steps after k are still pending, and the observer
    was never called for a step after k. *)
Theorem executeAll_ordering defs executors :
  all_executors keeps_bookkeeping executors ->
  (forall p, p < length defs ->
     is_Some (executor_for executors (js "step-" ++ JS.toString p))) ->
  let w' := (executeAll now executors (constructor now defs)).2 in
  (executeAll now executors (constructor now defs)).1 = Ret tt /\
  length (steps_of w') = length defs /\
  ((forall p, status_at w' p <> Some Error) ->
   (forall p, p < length defs -> status_at w' p = Some Completed) /\
   index_of w' = Z.max 0 (Z.of_nat (length defs) - 1)) /\
  (forall k, status_at w' k = Some Error ->
   (forall p, p < k -> status_at w' p = Some Completed) /\
   (forall p, k < p < length defs -> status_at w' p = Some Pending) /\
   (forall ev, ev ∈ updates w' ->
      exists p, p <= k /\ id ev.1 = js "step-" ++ JS.toString p)).
Proof.
  intros Hex Hbound. simpl.
  pose proof (constructor_NoDup defs) as Hnd.
  pose proof (constructor_index_invariant defs) as Hinv0.
  pose proof (constructor_length defs) as Hlen0.
  pose proof (constructor_status defs) as Hstatus0.
  pose proof (constructor_id defs) as Hid0.
  pose proof (eq_refl : updates (constructor now defs) = []) as Hup0.
  set (w0 := constructor now defs) in *. clearbody w0.
  pose proof (executeAll_loop executors w0 Hex Hnd) as Hloop.
  pose proof (loop_index_invariant _ _ _ _ _ Hloop Hex Hinv0) as Hinv.
  destruct (loop_spec _ _ _ _ _ Hloop Hex Hnd)
    as (Hids & stop & new & _ & _ & Hmid & Hafter & Hr & Hup & Hev).
  assert (Hlen : length (steps_of (executeAll now executors w0).2) = length defs).
  { apply (f_equal length) in Hids. rewrite !length_fmap in Hids. congruence. }
  assert (Hpending : forall p, p < length defs -> status_at w0 p = Some Pending).
  { intros p Hp. destruct (lookup_lt_is_Some_2 (steps_of w0) p) as [s Hs]; [lia|].
    rewrite Hs. simpl. by rewrite (Hstatus0 p s Hs). }
  destruct (executeAll now executors w0) as [r w'] eqn:Hrun. simpl in *.
  assert (Hret : r = Ret tt).
  { destruct r as [[]|message]; [done|].
    destruct Hr as (_ & step & Hstop & _ & Hfor).
    pose proof (lookup_lt_Some _ _ _ Hstop) as Hlt.
    rewrite (Hid0 stop step Hstop) in Hfor.
    destruct (Hbound stop ltac:(lia)) as [e He]. congruence. }
  subst r. split; [done|]. split; [done|].
  split.
  - intros Hnoerr. destruct Hr as [Hr|Hr]; [by destruct (Hnoerr stop)|].
    apply lookup_ge_None in Hr.
    assert (Hall : forall p, p < length defs -> status_at w' p = Some Completed).
    { intros p Hp. apply Hmid. lia. }
    split; [done|].
    assert (Hcount : completed_count (context w') = length defs).
    { unfold completed_count. rewrite <- Hlen.
      rewrite <- (length_fmap status (steps_of w')).
      f_equal. apply completed_all, Forall_lookup.
      intros p st Hp. pose proof (lookup_lt_Some _ _ _ Hp) as Hlt.
      rewrite length_fmap, Hlen in Hlt.
      rewrite list_lookup_fmap, (Hall p Hlt) in Hp. by simplify_eq. }
    destruct Hinv as (H0 & Hlo & Hhi). rewrite Hcount, Hlen in *. lia.
  - intros k Hk.
    assert (k = stop) as ->.
    { destruct (lt_eq_lt_dec k stop) as [[Hlt|Heq]|Hgt]; [|done|].
      - rewrite Hmid in Hk by lia. by simplify_eq.
      - rewrite (bookkeeping_status _ _ (Hafter k Hgt)) in Hk.
        destruct (steps_of w0 !! k) as [s|] eqn:Hs; [|done].
        simpl in Hk. rewrite (Hstatus0 k s Hs) in Hk. by simplify_eq. }
    split; [intros p Hp; apply Hmid; lia|].
    split.
    + intros p Hp. rewrite (bookkeeping_status _ _ (Hafter p ltac:(lia))).
      apply Hpending. lia.
    + intros ev Hin. rewrite Hup, Hup0 in Hin. simpl in Hin.
      rewrite Forall_forall in Hev. destruct (Hev ev Hin) as (p & Hp & Hid & _).
      exists p. split; [lia|].
      destruct (steps_of w0 !! p) as [s|] eqn:Hs; [|done].
      simpl in Hid. simplify_eq. rewrite <- Hid. by eapply Hid0.
Qed.

(** The loop passes over a run of completed steps. *)
Lemma executeAll_from_skip executors n rest i w :
  (forall q, i <= q < i + n -> status_at w q = Some Completed) ->
  executeAll_from now executors (n + rest) i w
  = executeAll_from now executors rest (i + n) w.
Proof.
  revert i. induction n as [|n IH]; intros i Hdone.
  { by rewrite Nat.add_0_r. }
  change (S n + rest) with (S (n + rest)). rewrite executeAll_from_S.
  specialize (Hdone i ltac:(lia)) as Hi.
  destruct (steps_of w !! i) as [step|]; [|done]. simpl in Hi.
  rewrite decide_True by congruence.
  rewrite IH by (intros q Hq; apply Hdone; lia).
  f_equal. lia.
Qed.

(** A step that is not completed and has only completed steps before
    it is executed by [executeAll]: the observer is called with the step
    set to [Processing]. *)
Lemma executeAll_executes executors w p s e :
  all_executors keeps_bookkeeping executors ->
  NoDup (id <$> steps_of w) ->
  steps_of w !! p = Some s ->
  status s <> Completed ->
  (forall q, q < p -> status_at w q = Some Completed) ->
  executor_for executors (id s) = Some e ->
  exists c1 rest,
    updates (executeAll now executors w).2
    = updates w ++ (begin_step (now (clock w)) s, c1) :: rest.
Proof.
  intros Hex Hnd Hp Hst Hdone Hfor.
  pose proof (lookup_lt_Some _ _ _ Hp) as Hlt.
  rewrite executeAll_unfold.
  replace (length (steps_of w)) with (p + S (length (steps_of w) - S p)) by lia.
  rewrite executeAll_from_skip by (intros q Hq; apply Hdone; lia).
  rewrite Nat.add_0_l, executeAll_from_S.
  rewrite Hp. rewrite decide_False by done. rewrite Hfor.
  destruct (executor_for_Some _ _ _ Hfor) as [k' Hk'].
  pose proof (Hex k' e Hk') as He.
  pose proof (find_step_NoDup _ p s Hnd Hp) as Hfind.
  destruct (executeStep_bookkeeping w (id s) e p s Hfind He)
    as (o & Hret & _ & _ & _ & _ & _ & c1 & s4 & Hup & _ & _ & Hp1).
  pose proof (executeStep_ids w (id s) e He) as Hids.
  pose proof (executeStep_length w (id s) e He) as Hlen.
  destruct (executeStep now (id s) e w) as [r w1]. simpl in *. subst r.
  rewrite Hp1. case_decide.
  - simpl. rewrite Hup. by exists c1, [(s4, context w1)].
  - assert (Hnd1 : NoDup (id <$> steps_of w1)) by by rewrite Hids.
    pose proof (executeAll_from_loop executors (length (steps_of w) - S p) (S p) w1
                  Hex Hnd1 ltac:(lia)) as Hloop.
    destruct (loop_spec _ _ _ _ _ Hloop Hex Hnd1)
      as (_ & stop & new & _ & _ & _ & _ & _ & Hup' & _).
    rewrite Hup', Hup, <- app_assoc. simpl. by exists c1, ((s4, context w1) :: new).
Qed.

(** C7, as the code has it.  Every step is created pending by the
    constructor; an execution sets the step to processing (whatever its
    status was) and then to exactly one of completed or error; a step
    that has left pending never returns to it, neither through
    [executeStep] nor through [executeAll]; and a step in error is not
    frozen: once the steps before it are completed, a later
    [executeAll] executes it again. *)
Theorem step_lifecycle defs w stepId e executors :
  reachable now w ->
  keeps_bookkeeping e ->
  all_executors keeps_bookkeeping executors ->
  (forall p s, steps_of (constructor now defs) !! p = Some s -> status s = Pending) /\
  (forall j found,
     find_step stepId (steps_of w) = Some (j, found) ->
     let w' := (executeStep now stepId e w).2 in
     exists s1 c1 s2,
       updates w' = updates w ++ [(s1, c1); (s2, context w')] /\
       status s1 = Processing /\
       status <$> steps c1 !! j = Some Processing /\
       steps_of w' !! j = Some s2 /\
       (status s2 = Completed \/ status s2 = Error)) /\
  (forall p st,
     status_at w p = Some st -> st <> Pending ->
     status_at (executeStep now stepId e w).2 p <> Some Pending /\
     status_at (executeAll now executors w).2 p <> Some Pending) /\
  (forall p s e',
     steps_of w !! p = Some s -> status s = Error ->
     (forall q, q < p -> status_at w q = Some Completed) ->
     executor_for executors (id s) = Some e' ->
     exists c1 rest,
       updates (executeAll now executors w).2
       = updates w ++ (begin_step (now (clock w)) s, c1) :: rest).
Proof.
  intros Hreach He Hex.
  destruct (reachable_invariant w Hreach) as [Hnd _].
  split; [apply constructor_status|]. split; [|split].
  - intros j found Hfind. simpl.
    destruct (executeStep_bookkeeping w stepId e j found Hfind He)
      as (o & _ & _ & _ & _ & _ & _ & c1 & s4 & Hup & Hs4 & Hc1 & Hj).
    exists (begin_step (now (clock w)) found), c1, s4.
    split; [done|]. split; [done|]. split; [|split; [done|]].
    + apply find_step_Some in Hfind as (Hfj & _ & _).
      apply (f_equal (fun l => l !! j)) in Hc1.
      rewrite !list_lookup_fmap, list_lookup_alter_eq, Hfj in Hc1. simpl in Hc1.
      destruct (steps c1 !! j); simpl in *; [|done].
      unfold bookkeeping in Hc1. simpl in Hc1. simplify_eq. congruence.
    + unfold bookkeeping in Hs4. destruct o; simpl in Hs4; simplify_eq; auto.
  - intros p st Hp Hst. split.
    + destruct (executeStep_not_pending w stepId e p st He Hp Hst) as (st' & -> & ?).
      congruence.
    + destruct (loop_not_pending _ _ _ _ _ p st (executeAll_loop executors w Hex Hnd)
                  Hex Hp Hst) as (st' & -> & ?).
      congruence.
  - intros p s e' Hp Hs Hdone Hfor.
    eapply executeAll_executes; [done..|congruence|done|done].
Qed.

Lemma loop_frame_housekeeping executors i w r w' p :
  loop now executors i w r w' ->
  all_executors keeps_housekeeping executors ->
  NoDup (id <$> steps_of w) ->
  p < i \/ status_at w p = Some Completed ->
  housekeeping <$> steps_of w' !! p = housekeeping <$> steps_of w !! p.
Proof.
  intros Hloop Hex.
  induction Hloop as
    [ i w Hi
    | i w step r w' Hi Hc Hloop IH
    | i w step Hi Hc Hfor
    | i w step e w1 step1 Hi Hc Hfor Hrun Hi1 Herr
    | i w step e w1 step1 r w' Hi Hc Hfor Hrun Hi1 Herr Hloop IH ];
    intros Hnd Hp; try done.
  - apply IH; [done|]. destruct Hp as [Hp|Hp]; [left; lia|by right].
  - destruct (executor_for_Some _ _ _ Hfor) as [k' Hk'].
    pose proof (find_step_NoDup _ i step Hnd Hi) as Hfind.
    assert (p <> i) as Hne.
    { destruct Hp as [Hp|Hp]; [lia|]. intros ->. rewrite Hi in Hp.
      simpl in Hp. by simplify_eq. }
    pose proof (executeStep_frame_housekeeping w (id step) e i step p Hfind
                  (Hex k' e Hk') Hne) as H.
    by rewrite Hrun in H.
  - destruct (executor_for_Some _ _ _ Hfor) as [k' Hk'].
    pose proof (find_step_NoDup _ i step Hnd Hi) as Hfind.
    assert (p <> i) as Hne.
    { destruct Hp as [Hp|Hp]; [lia|]. intros ->. rewrite Hi in Hp.
      simpl in Hp. by simplify_eq. }
    pose proof (executeStep_frame_housekeeping w (id step) e i step p Hfind
                  (Hex k' e Hk') Hne) as H.
    pose proof (executeStep_ids w (id step) e
                  (keeps_housekeeping_bookkeeping e (Hex k' e Hk'))) as Hids.
    rewrite Hrun in H, Hids. simpl in *.
    rewrite IH; [done|by rewrite Hids|].
    destruct Hp as [Hp|Hp]; [left; lia|right].
    by rewrite (housekeeping_status _ _ H).
Qed.

(** C9. Invoked on a reachable world whose steps 0..k are completed,
    [executeAll] calls the observer only for steps after position k that
    were not completed, and leaves every completed step, those at 0..k
    among them, with its status, error and timestamp, whatever the
    executors do to the results; with executors that do not write to
    the step list the step is the very record it was, result
    included. *)
Theorem executeAll_idempotent w executors k :
  reachable now w ->
  all_executors keeps_housekeeping executors ->
  (forall p, p <= k -> status_at w p = Some Completed) ->
  let w' := (executeAll now executors w).2 in
  (forall p, p <= k \/ status_at w p = Some Completed ->
             housekeeping <$> steps_of w' !! p = housekeeping <$> steps_of w !! p) /\
  (all_executors keeps_steps executors ->
   forall p, p <= k \/ status_at w p = Some Completed ->
             steps_of w' !! p = steps_of w !! p) /\
  (exists new,
     updates w' = updates w ++ new /\
     forall ev, ev ∈ new ->
       exists p, k < p /\ id_at w p = Some (id ev.1) /\
                 status_at w p <> Some Completed).
Proof.
  intros Hreach Hex Hdone. simpl.
  destruct (reachable_invariant w Hreach) as [Hnd _].
  assert (Hex' : all_executors keeps_bookkeeping executors).
  { intros k' e Hk'. apply keeps_housekeeping_bookkeeping. by eapply Hex. }
  pose proof (executeAll_loop executors w Hex' Hnd) as Hloop.
  assert (Hcompleted : forall p, p <= k \/ status_at w p = Some Completed ->
                                 status_at w p = Some Completed).
  { intros p [Hp|Hp]; [by apply Hdone|done]. }
  split; [|split].
  - intros p Hp. eapply loop_frame_housekeeping; [exact Hloop|done|done|].
    right. by apply Hcompleted.
  - intros Hsteps p Hp. eapply loop_frame; [exact Hloop|done|done|].
    right. by apply Hcompleted.
  - destruct (loop_spec _ _ _ _ _ Hloop Hex' Hnd)
      as (_ & stop & new & _ & _ & _ & _ & _ & Hup & Hev).
    exists new. split; [done|].
    intros ev Hin. rewrite Forall_forall in Hev.
    destruct (Hev ev Hin) as (p & _ & Hid & Hst).
    exists p. split; [|done].
    destruct (le_lt_dec p k) as [Hle|Hlt]; [|done].
    by destruct Hst; apply Hdone.
Qed.

End OrchestratorFacts.


(** *** Instances on the sample runs *)

Section OrchestratorSamples.

Import SequentialThinking Samples.

Lemma resolves_keeps_steps v : keeps_steps (resolves v).
Proof. intros s c. by simpl. Qed.

Lemma rejects_keeps_steps message : keeps_steps (rejects message).
Proof. intros s c. by simpl. Qed.

Lemma all_resolve_keeps_steps : all_executors keeps_steps all_resolve.
Proof.
  intros k e Hk. unfold all_resolve in Hk.
  apply lookup_singleton_Some in Hk as [_ <-]. apply resolves_keeps_steps.
Qed.

Lemma second_fails_keeps_steps : all_executors keeps_steps second_fails.
Proof.
  intros k e Hk. unfold second_fails in Hk.
  apply lookup_insert_Some in Hk as [[_ <-]|[_ Hk]]; [apply resolves_keeps_steps|].
  apply lookup_singleton_Some in Hk as [_ <-]. apply rejects_keeps_steps.
Qed.

Lemma throwing_keeps_steps : all_executors keeps_steps throwing.
Proof.
  intros k e Hk. unfold throwing in Hk.
  apply lookup_singleton_Some in Hk as [_ <-]. apply rejects_keeps_steps.
Qed.

Lemma retrying_keeps_steps : all_executors keeps_steps retrying.
Proof.
  intros k e Hk. unfold retrying in Hk.
  apply lookup_singleton_Some in Hk as [_ <-]. apply resolves_keeps_steps.
Qed.

Lemma all_keep_bookkeeping (executors : gmap jsstring (Executor Z)) :
  all_executors keeps_steps executors -> all_executors keeps_bookkeeping executors.
Proof. intros H k e Hk. apply keeps_steps_bookkeeping. by eapply H. Qed.

Lemma first_done_reachable : reachable ticking first_done.
Proof.
  apply reach_executeStep; [apply reach_constructor|].
  apply keeps_steps_bookkeeping, resolves_keeps_steps.
Qed.

Lemma failed_once_reachable : reachable ticking failed_once.
Proof.
  apply reach_executeAll; [apply reach_constructor|].
  apply all_keep_bookkeeping, throwing_keeps_steps.
Qed.

Lemma getStepResult_unknown_id_witness :
  (forall s, s ∈ steps (context first_done) -> id s <> js "step-7") /\
  getStepResult (js "step-7") first_done = (Ret None, first_done) /\
  executeStep ticking (js "step-7") (resolves 1%Z) first_done
  = (Throw (js "Step with id " ++ js "step-7" ++ js " not found"), first_done) /\
  (forall anyId, (getStepResult anyId first_done).2 = first_done).
Proof.
  assert (H : forall s, s ∈ steps (context first_done) -> id s <> js "step-7").
  { intros s Hs. vm_compute in Hs.
    repeat (apply elem_of_cons in Hs as [->|Hs]; [vm_compute; discriminate|]).
    by apply elem_of_nil in Hs. }
  split; [exact H|].
  exact (getStepResult_unknown_id ticking first_done (js "step-7") (resolves 1%Z) H).
Defined.

Lemma currentStepIndex_advance_witness :
  reachable ticking first_done /\
  keeps_bookkeeping (resolves 2%Z) /\
  all_executors keeps_bookkeeping all_resolve /\
  let w' := (executeStep ticking (js "step-1") (resolves 2%Z) first_done).2 in
  (currentStepIndex (context w') = currentStepIndex (context first_done) \/
   currentStepIndex (context w') = (currentStepIndex (context first_done) + 1)%Z) /\
  (currentStepIndex (context w') <> currentStepIndex (context first_done) ->
   exists j found,
     find_step (js "step-1") (steps (context first_done)) = Some (j, found) /\
     status <$> steps (context w') !! j = Some Completed) /\
  (forall j found,
     find_step (js "step-1") (steps (context first_done)) = Some (j, found) ->
     status <$> steps (context w') !! j = Some Error ->
     currentStepIndex (context w') = currentStepIndex (context first_done)) /\
  (currentStepIndex (context first_done)
   <= currentStepIndex (context (executeAll ticking all_resolve first_done).2))%Z.
Proof.
  split; [apply first_done_reachable|].
  split; [apply keeps_steps_bookkeeping, resolves_keeps_steps|].
  split; [apply all_keep_bookkeeping, all_resolve_keeps_steps|].
  apply (currentStepIndex_advance ticking first_done (js "step-1") (resolves 2%Z) all_resolve).
  - apply first_done_reachable.
  - apply keeps_steps_bookkeeping, resolves_keeps_steps.
  - apply all_keep_bookkeeping, all_resolve_keeps_steps.
Defined.

Lemma second_fails_bound p :
  p < length three_steps ->
  is_Some (executor_for second_fails (js "step-" ++ JS.toString p)).
Proof.
  intros Hp. simpl in Hp.
  destruct p as [|[|[|p]]]; [vm_compute; by eexists..|lia].
Qed.

Lemma executeAll_ordering_witness :
  all_executors keeps_bookkeeping second_fails /\
  (forall p, p < length three_steps ->
     is_Some (executor_for second_fails (js "step-" ++ JS.toString p))) /\
  let w' := (executeAll ticking second_fails (constructor ticking three_steps)).2 in
  (executeAll ticking second_fails (constructor ticking three_steps)).1 = Ret tt /\
  length (steps (context w')) = length three_steps /\
  ((forall p, status <$> steps (context w') !! p <> Some Error) ->
   (forall p, p < length three_steps ->
      status <$> steps (context w') !! p = Some Completed) /\
   currentStepIndex (context w') = Z.max 0 (Z.of_nat (length three_steps) - 1)) /\
  (forall k, status <$> steps (context w') !! k = Some Error ->
   (forall p, p < k -> status <$> steps (context w') !! p = Some Completed) /\
   (forall p, k < p < length three_steps ->
      status <$> steps (context w') !! p = Some Pending) /\
   (forall ev, ev ∈ updates w' ->
      exists p, p <= k /\ id ev.1 = js "step-" ++ JS.toString p)).
Proof.
  split; [apply all_keep_bookkeeping, second_fails_keeps_steps|].
  split; [apply second_fails_bound|].
  apply (executeAll_ordering ticking three_steps second_fails).
  - apply all_keep_bookkeeping, second_fails_keeps_steps.
  - apply second_fails_bound.
Defined.

(** The run of the sample above does stop at its second step. *)
Example second_fails_statuses :
  status <$> steps (context (executeAll ticking second_fails
                                        (constructor ticking three_steps)).2)
  = [Completed; Error; Pending].
Proof. vm_compute. reflexivity. Qed.

(** C2 as stated fails on the empty step list: the run returns, no step
    is in error, and [currentStepIndex] is 0, not N-1 = -1. *)
Lemma executeAll_empty_counterexample :
  let defs : list (StepInit Z) := [] in
  let w' := (executeAll ticking ∅ (constructor ticking defs)).2 in
  (executeAll ticking ∅ (constructor ticking defs)).1 = Ret tt /\
  (forall p, status <$> steps (context w') !! p <> Some Error) /\
  currentStepIndex (context w') <> (Z.of_nat (length defs) - 1)%Z.
Proof.
  simpl. split; [reflexivity|]. split; [|vm_compute; discriminate].
  intros p. vm_compute. by destruct p.
Qed.

Lemma step_lifecycle_witness :
  reachable ticking failed_once /\
  keeps_bookkeeping (resolves 7%Z) /\
  all_executors keeps_bookkeeping retrying /\
  (forall p s, steps (context (constructor ticking one_step)) !! p = Some s ->
               status s = Pending) /\
  (forall j found,
     find_step (js "step-0") (steps (context failed_once)) = Some (j, found) ->
     let w' := (executeStep ticking (js "step-0") (resolves 7%Z) failed_once).2 in
     exists s1 c1 s2,
       updates w' = updates failed_once ++ [(s1, c1); (s2, context w')] /\
       status s1 = Processing /\
       status <$> steps c1 !! j = Some Processing /\
       steps (context w') !! j = Some s2 /\
       (status s2 = Completed \/ status s2 = Error)) /\
  (forall p st,
     status <$> steps (context failed_once) !! p = Some st -> st <> Pending ->
     status <$> steps (context (executeStep ticking (js "step-0") (resolves 7%Z)
                                            failed_once).2) !! p <> Some Pending /\
     status <$> steps (context (executeAll ticking retrying failed_once).2) !! p
     <> Some Pending) /\
  (forall p s e',
     steps (context failed_once) !! p = Some s -> status s = Error ->
     (forall q, q < p -> status <$> steps (context failed_once) !! q = Some Completed) ->
     executor_for retrying (id s) = Some e' ->
     exists c1 rest,
       updates (executeAll ticking retrying failed_once).2
       = updates failed_once ++ (begin_step (ticking (clock failed_once)) s, c1) :: rest).
Proof.
  split; [apply failed_once_reachable|].
  split; [apply keeps_steps_bookkeeping, resolves_keeps_steps|].
  split; [apply all_keep_bookkeeping, retrying_keeps_steps|].
  apply (step_lifecycle ticking one_step failed_once (js "step-0") (resolves 7%Z) retrying).
  - apply failed_once_reachable.
  - apply keeps_steps_bookkeeping, resolves_keeps_steps.
  - apply all_keep_bookkeeping, retrying_keeps_steps.
Defined.

(** C7 as stated fails: a step in error is not immutable.  The only
    step of [failed_once] is in error; a second [executeAll] on the same
    object runs it again and leaves it completed, with a result and a
    new timestamp. *)
Lemma error_step_rerun_counterexample :
  status <$> steps (context failed_once) !! 0 = Some Error /\
  run_again = (executeAll ticking retrying failed_once).2 /\
  status <$> steps (context run_again) !! 0 = Some Completed /\
  result <$> steps (context run_again) !! 0 = Some (Some 7%Z) /\
  timestamp <$> steps (context run_again) !! 0
  <> timestamp <$> steps (context failed_once) !! 0.
Proof.
  split; [vm_compute; reflexivity|]. split; [reflexivity|].
  split; [vm_compute; reflexivity|]. split; [vm_compute; reflexivity|].
  vm_compute. discriminate.
Qed.

Lemma all_keep_housekeeping (executors : gmap jsstring (Executor Z)) :
  all_executors keeps_steps executors -> all_executors keeps_housekeeping executors.
Proof. intros H k e Hk. apply keeps_steps_housekeeping. by eapply H. Qed.

Lemma executeAll_idempotent_witness :
  reachable ticking first_done /\
  all_executors keeps_housekeeping all_resolve /\
  (forall p, p <= 0 -> status <$> steps (context first_done) !! p = Some Completed) /\
  let w' := (executeAll ticking all_resolve first_done).2 in
  (forall p, p <= 0 \/ status <$> steps (context first_done) !! p = Some Completed ->
             housekeeping <$> steps (context w') !! p
             = housekeeping <$> steps (context first_done) !! p) /\
  (all_executors keeps_steps all_resolve ->
   forall p, p <= 0 \/ status <$> steps (context first_done) !! p = Some Completed ->
             steps (context w') !! p = steps (context first_done) !! p) /\
  (exists new,
     updates w' = updates first_done ++ new /\
     forall ev, ev ∈ new ->
       exists p, 0 < p /\ id <$> steps (context first_done) !! p = Some (id ev.1) /\
                 status <$> steps (context first_done) !! p <> Some Completed).
Proof.
  assert (H : forall p, p <= 0 ->
            status <$> steps (context first_done) !! p = Some Completed).
  { intros p Hp. assert (p = 0) as -> by lia. vm_compute. reflexivity. }
  split; [apply first_done_reachable|].
  split; [apply all_keep_housekeeping, all_resolve_keeps_steps|].
  split; [exact H|].
  exact (executeAll_idempotent ticking first_done all_resolve 0
           first_done_reachable
           (all_keep_housekeeping _ all_resolve_keeps_steps) H).
Defined.

(** The second run of the sample executes the two steps that were left. *)
Example first_done_rerun :
  status <$> steps (context (executeAll ticking all_resolve first_done).2)
  = [Completed; Completed; Completed] /\
  length (updates (executeAll ticking all_resolve first_done).2)
  = length (updates first_done) + 4.
Proof. vm_compute. split; reflexivity. Qed.

End OrchestratorSamples.

(** ** Sorting *)

Section Sorting.

Context {A : Type} (compare : A -> A -> Z) (key : A -> Z).
Hypothesis compare_key : forall a b, compare a b = (key a - key b)%Z.

Lemma insert_sorted_perm x l : JS.insert_sorted compare x l ≡ₚ x :: l.
Proof.
  induction l as [|y l IH]; simpl; [done|].
  case_match; [done|]. rewrite IH. apply Permutation_swap.
Qed.

Lemma sort_perm l : JS.sort compare l ≡ₚ l.
Proof.
  induction l as [|x l IH]; simpl; [done|].
  by rewrite insert_sorted_perm, IH.
Qed.

Lemma insert_sorted_ascending x l :
  JS.ascending key l -> JS.ascending key (JS.insert_sorted compare x l).
Proof.
  induction 1 as [|y l Hl IH Hy]; simpl.
  { repeat constructor. }
  rewrite compare_key. case_match eqn:Hc.
  - apply Z.leb_le in Hc. constructor; [by constructor|].
    constructor; [lia|]. eapply Forall_impl; [exact Hy|]. simpl. intros; lia.
  - apply Z.leb_gt in Hc. constructor; [done|].
    rewrite insert_sorted_perm. constructor; [lia|done].
Qed.

Lemma sort_ascending l : JS.ascending key (JS.sort compare l).
Proof.
  induction l as [|x l IH]; simpl; [constructor|].
  by apply insert_sorted_ascending.
Qed.





End Sorting.

(** ** The analyzer *)

Section AnalyzerFacts.

Import ResumeAnalyzer.

Variable toLowerCase : jsstring -> jsstring.
Variable currentYear currentMonth : Z.

Abbreviation years_of := (calculateYearsOfExperience toLowerCase currentYear currentMonth).
Abbreviation periods_of l := (period toLowerCase currentYear currentMonth <$> l).
Abbreviation sorted_of := (sortedExperiences toLowerCase currentYear currentMonth).

(** *** Language detection *)

Lemma chineseChars_bounds text :
  (0 <= chineseChars text <= Z.of_nat (length text))%Z.
Proof.
  unfold chineseChars. pose proof (length_filter (fun c => isChinese c = true) text). lia.
Qed.

Lemma detectLanguage_zh text :
  detectLanguage text = zh <-> (Z.of_nat (length text) < 10 * chineseChars text)%Z.
Proof.
  unfold detectLanguage. case_match eqn:H.
  - apply Z.ltb_lt in H. done.
  - apply Z.ltb_ge in H. split; [done|lia].
Qed.

Lemma detectLanguage_en text :
  detectLanguage text = en <-> (10 * chineseChars text <= Z.of_nat (length text))%Z.
Proof.
  unfold detectLanguage. case_match eqn:H.
  - apply Z.ltb_lt in H. split; [done|lia].
  - apply Z.ltb_ge in H. done.
Qed.

Lemma chineseRatio_gt text :
  text <> [] ->
  (1 # 10 < chineseRatio text)%Q <-> (Z.of_nat (length text) < 10 * chineseChars text)%Z.
Proof.
  intros Hne. unfold chineseRatio, Qlt. simpl.
  assert (0 < length text)%nat by (destruct text; [done|simpl; lia]).
  rewrite <- (positive_nat_Z (Pos.of_nat (length text))), Nat2Pos.id by lia. lia.
Qed.

Lemma in_countFrom x start n :
  (start <= x < start + Z.of_nat n)%Z -> In x (countFrom start n).
Proof.
  revert start. induction n as [|n IH]; intros start H; simpl in *; [lia|].
  destruct (Z.eq_dec start x); [by left|right]. apply IH. lia.
Qed.

Lemma doubles_agree_sound bound size count :
  doubles_agree bound = true ->
  (0 <= size <= bound)%Z -> (0 <= count <= size)%Z ->
  agree_at size count = true.
Proof.
  unfold doubles_agree. intros H Hsize Hcount.
  rewrite forallb_forall in H. specialize (H size ltac:(apply in_countFrom; lia)).
  rewrite forallb_forall in H. apply H. apply in_countFrom. lia.
Qed.

Lemma doubles_agree_2000 : doubles_agree 2000 = true.
Proof. vm_compute. reflexivity. Qed.

(** On the texts of up to 2000 code units the integer comparison is
    the double-precision comparison of the source, by running both. *)
Lemma detectLanguage_double_agrees text :
  (Z.of_nat (length text) <= 2000)%Z ->
  detectLanguage_double text = detectLanguage text.
Proof.
  intros Hlen. unfold detectLanguage_double, detectLanguage.
  pose proof (chineseChars_bounds text) as Hb.
  pose proof (doubles_agree_sound 2000 (Z.of_nat (length text)) (chineseChars text)
                doubles_agree_2000 ltac:(lia) Hb) as H.
  apply Bool.eqb_prop in H. by rewrite H.
Qed.

(** The language of the record is the detected one. *)
Lemma analysis_language now stages job text w r w' :
  analysis now stages job text w = (ST.Ret r, w') ->
  result_language r = detectLanguage text.
Proof.
  unfold analysis, ST.bind, ST.updateMetadata, ST.getStepResult, ST.get, ST.put, ST.ret.
  simpl. destruct (ST.executeAll _ _ _) as [[[]|message] w4]; intros; by simplify_eq.
Qed.

(** C5. The detected language is the CJK track exactly when the share
    of CJK ideographs among the code units of the text exceeds 1/10, and
    the Latin track at the boundary and below (and for the empty text);
    and the language of a run is the one detected from the text,
    whatever the stage functions, the target job and the state of the
    analyzer are. *)
Theorem detectLanguage_threshold text :
  (text <> [] -> detectLanguage text = zh <-> (1 # 10 < chineseRatio text)%Q) /\
  (text <> [] -> detectLanguage text = en <-> (chineseRatio text <= 1 # 10)%Q) /\
  detectLanguage [] = en /\
  (forall now stages a r a',
     analyzeResume now stages text a = (ST.Ret r, a') ->
     result_language r = detectLanguage text /\ resumeLanguage a' = detectLanguage text).
Proof.
  split; [|split; [|split]].
  - intros Hne. by rewrite detectLanguage_zh, chineseRatio_gt.
  - intros Hne. rewrite detectLanguage_en.
    pose proof (chineseRatio_gt text Hne) as H.
    rewrite Qle_lteq. split.
    + intros Hle. destruct (Qlt_le_dec (1 # 10) (chineseRatio text)) as [Hlt|Hge].
      * apply H in Hlt. lia.
      * by apply Qle_lteq.
    + intros Hle. destruct (Z_lt_le_dec (Z.of_nat (length text)) (10 * chineseChars text))
        as [Hlt|Hge]; [|done].
      apply H in Hlt. exfalso. destruct Hle as [Hle|Hle].
      * eapply Qlt_irrefl, Qlt_trans; eauto.
      * rewrite Hle in Hlt. by apply Qlt_irrefl in Hlt.
  - reflexivity.
  - intros now stages a r a' Hrun. unfold analyzeResume in Hrun.
    destruct (analysis _ _ _ _ _) as [[r'|message] w] eqn:Hbody; simplify_eq.
    split; [|done]. by eapply analysis_language.
Qed.

(** *** The AI tag *)

(** Case analysis on a membership in [categories]. *)
Ltac each_category H :=
  unfold categories in H;
  repeat (apply elem_of_cons in H as [->|H]);
  [..|by apply elem_of_nil in H].

Lemma hasStrongDevIndicator_true text :
  hasStrongDevIndicator toLowerCase text = true <->
  exists indicator, indicator ∈ strongDevIndicators /\
                    JS.includes text (toLowerCase indicator) = true.
Proof.
  unfold hasStrongDevIndicator. rewrite existsb_exists.
  split; intros (i & Hi & Hinc); exists i; (split; [|done]); by apply list_elem_of_In.
Qed.

(** C4. [determineAITag] returns [developer] if the lower-cased text
    contains one of the strong developer-title literals or the doubled
    developer score is at least 3; otherwise [practitioner] if the
    greatest of the six scores is 0; otherwise a category that attains
    the greatest score and comes first, among those that do, in the
    order developer, researcher, founder, teacher, designer, creator. *)
Theorem determineAITag_decision resumeText parsedResume :
  let text := allText toLowerCase resumeText parsedResume in
  let tag := determineAITag toLowerCase resumeText parsedResume in
  ((exists indicator, indicator ∈ strongDevIndicators /\
                      JS.includes text (toLowerCase indicator) = true) \/
   (3 <= scores text developer)%Z ->
   tag = developer) /\
  ((forall indicator, indicator ∈ strongDevIndicators ->
                      JS.includes text (toLowerCase indicator) = false) ->
   (scores text developer < 3)%Z ->
   (forall t, t ∈ categories -> (scores text t <= maxScore text)%Z) /\
   (maxScore text = 0%Z -> tag = practitioner) /\
   (maxScore text <> 0%Z ->
    tag ∈ categories /\
    scores text tag = maxScore text /\
    forall t, t ∈ categories -> scores text t = maxScore text ->
              priority tag <= priority t)).
Proof.
  intros text tag. subst tag. unfold determineAITag. fold text.
  split.
  - intros [Hstrong|Hdev].
    + apply hasStrongDevIndicator_true in Hstrong. by rewrite Hstrong.
    + apply Z.leb_le in Hdev. rewrite Hdev. by rewrite orb_true_r.
  - intros Hnone Hdev.
    assert (hasStrongDevIndicator toLowerCase text = false) as ->.
    { destruct (hasStrongDevIndicator toLowerCase text) eqn:H; [|done].
      apply hasStrongDevIndicator_true in H as (i & Hi & Hinc).
      rewrite (Hnone i Hi) in Hinc. done. }
    unfold maxScore. cbn [foldr orb].
    revert Hdev. generalize (scores text). intros sc Hdev.
    apply Z.leb_gt in Hdev as ->.
    split; [|split].
    + intros t Ht. each_category Ht; lia.
    + intros ->. done.
    + intros Hmax. apply Z.eqb_neq in Hmax as ->.
      repeat match goal with
             | |- context [(?a =? ?b)%Z] =>
               destruct (Z.eqb_spec a b) as [Heq|?]; cbv beta iota;
               [split; [unfold categories; set_solver|];
                split; [done|];
                intros t Ht; each_category Ht; cbn [priority]; intros; lia|]
             end.
      lia.
Qed.

(** *** Years of experience *)













(** *** The experience assessment and the parsed resume *)

Lemma sortedInPlace_perm workExp : sortedInPlace workExp ≡ₚ workExp.
Proof. unfold sortedInPlace. case_match; [apply sort_perm|done]. Qed.


Lemma set_result_housekeeping v (l : list (ST.ThinkingStep Value)) j :
  ST.housekeeping <$> alter (set_result v) j l = ST.housekeeping <$> l.
Proof.
  rewrite (list_fmap_alter _ (set_result v) (fun b => b)).
  - by apply list_alter_id.
  - by apply Forall_forall.
Qed.

(** The experience stage writes to the steps only through the result
    of the first one. *)
Lemma assessExperience_keeps_housekeeping :
  ST.keeps_housekeeping (assessExperience toLowerCase).
Proof.
  intros s c. unfold assessExperience.
  destruct (ST.find_step _ _) as [[j step0]|]; [|done].
  destruct (ST.result step0) as [[]|]; try done.
  simpl. by rewrite set_result_housekeeping.
Qed.

Lemma assessExperience_keeps_bookkeeping :
  ST.keeps_bookkeeping (assessExperience toLowerCase).
Proof.
  apply keeps_housekeeping_bookkeeping, assessExperience_keeps_housekeeping.
Qed.

(** What the experience stage does to the record the first step holds:
    it puts the list of experiences in start-year order and leaves every
    other field, and the experiences themselves, as they were. *)
Lemma assessExperience_effect s c j step0 parsedResume :
  ST.find_step (js "step-0") (ST.steps c) = Some (j, step0) ->
  ST.result step0 = Some (VParsedResume parsedResume) ->
  let c' := (assessExperience toLowerCase s c).1 in
  exists step0',
    ST.find_step (js "step-0") (ST.steps c') = Some (j, step0') /\
    ST.result step0'
    = Some (VParsedResume
              (set_workExperience (sortedInPlace (workExperience parsedResume))
                                  parsedResume)) /\
    sortedInPlace (workExperience parsedResume) ≡ₚ workExperience parsedResume.
Proof.
  intros Hfind Hres. simpl. unfold assessExperience. rewrite Hfind, Hres. simpl.
  apply list_find_Some in Hfind as (Hj & Hid & Hbefore).
  eexists. split; [|split; [|apply sortedInPlace_perm]].
  - apply list_find_Some. split.
    + rewrite list_lookup_alter_eq, Hj. reflexivity.
    + split; [done|]. intros i y Hi Hlt.
      rewrite list_lookup_alter_ne in Hi by lia. by eapply Hbefore.
  - done.
Qed.

(** *** The assembly of the final record *)

Lemma executorsOf_bound stages p :
  p < 6 -> is_Some (ST.executor_for (executorsOf stages) (js "step-" ++ JS.toString p)).
Proof.
  intros Hp. unfold ST.executor_for, executorsOf.
  destruct p as [|[|[|[|[|[|p]]]]]]; [..|lia];
    change (js "step-" ++ JS.toString _) with (js "step-0") +
    change (js "step-" ++ JS.toString _) with (js "step-1") +
    change (js "step-" ++ JS.toString _) with (js "step-2") +
    change (js "step-" ++ JS.toString _) with (js "step-3") +
    change (js "step-" ++ JS.toString _) with (js "step-4") +
    change (js "step-" ++ JS.toString _) with (js "step-5");
    repeat (rewrite lookup_insert_ne by (vm_compute; discriminate));
    rewrite lookup_insert_eq; by eexists.
Qed.

Lemma executorsOf_keep_bookkeeping stages :
  stages_keep_bookkeeping stages ->
  ST.all_executors ST.keeps_bookkeeping (executorsOf stages).
Proof.
  intros (H0 & H1 & H2 & H3 & H4 & H5) k e Hk. unfold executorsOf in Hk.
  repeat (apply lookup_insert_Some in Hk as [[_ <-]|[_ Hk]]; [done|]).
  by rewrite lookup_empty in Hk.
Qed.

(** On a new analyzer [analyzeResume] never throws: whatever the
    stages do, failing included, it returns a record, whose assessments
    are what [getStepResult] finds for the steps 1 to 5. *)
Lemma analyzeResume_returns now stages resumeText job :
  stages_keep_bookkeeping stages ->
  exists r a',
    analyzeResume now stages resumeText (constructor now job) = (ST.Ret r, a') /\
    analysisResult a' = Some r /\
    (ST.getStepResult (js "step-1") (thinking a')).1 = ST.Ret (professionalProfile r) /\
    (ST.getStepResult (js "step-2") (thinking a')).1 = ST.Ret (skillAssessment r) /\
    (ST.getStepResult (js "step-3") (thinking a')).1 = ST.Ret (experienceAssessment r) /\
    (ST.getStepResult (js "step-4") (thinking a')).1 = ST.Ret (educationAssessment r) /\
    (ST.getStepResult (js "step-5") (thinking a')).1 = ST.Ret (overallAssessment r).
Proof.
  intros Hst. pose proof (executorsOf_keep_bookkeeping stages Hst) as Hex.
  unfold analyzeResume, analysis.
  unfold ST.bind at 1 2 3. unfold ST.updateMetadata at 1 2 3.
  unfold ST.bind at 1 2 3. unfold ST.get, ST.put. cbn [thinking targetJob constructor].
  match goal with
  | |- context [ST.bind (ST.executeAll _ _) _ ?w] => set (w3 := w)
  end.
  assert (Hsteps : ST.steps (ST.context w3)
                   = ST.steps (ST.context (ST.constructor now createResumeAnalysisSteps)))
    by done.
  assert (Hnd : NoDup (ST.id <$> ST.steps (ST.context w3))).
  { rewrite Hsteps. apply constructor_NoDup. }
  assert (Hid : forall p s, ST.steps (ST.context w3) !! p = Some s ->
                  p < 6 /\ ST.id s = js "step-" ++ JS.toString p).
  { intros p s Hp. rewrite Hsteps in Hp. split.
    - apply lookup_lt_Some in Hp. by rewrite constructor_length in Hp.
    - by eapply constructor_id. }
  clearbody w3. clear Hsteps.
  pose proof (executeAll_loop now (executorsOf stages) w3 Hex Hnd) as Hloop.
  destruct (loop_spec now _ _ _ _ _ Hloop Hex Hnd)
    as (_ & stop & new & _ & _ & _ & _ & Hr & _).
  unfold ST.bind at 1.
  destruct (ST.executeAll now (executorsOf stages) w3) as [[[]|message] w4].
  - eexists _, _. split; [reflexivity|]. repeat split; reflexivity.
  - destruct Hr as (_ & step & Hstop & _ & Hfor). exfalso.
    destruct (Hid stop step Hstop) as [Hlt Hids]. rewrite Hids in Hfor.
    destruct (executorsOf_bound stages stop Hlt) as [e He]. congruence.
Qed.

End AnalyzerFacts.

(** *** Instances on the sample resumes *)

Section AnalyzerSamplesFacts.

Import ResumeAnalyzer AnalyzerSamples.

Abbreviation years_in_2024 := (calculateYearsOfExperience JS.asciiLower thisYear thisMonth).

(** One ideograph among nine code units is above the threshold; one
    among ten is at it. *)
Lemma detectLanguage_threshold_witness :
  js "abcdefgh中" <> [] /\
  (1 # 10 < chineseRatio (js "abcdefgh中"))%Q /\
  detectLanguage (js "abcdefgh中") = zh /\
  (chineseRatio (js "abcdefghi中") <= 1 # 10)%Q /\
  detectLanguage (js "abcdefghi中") = en.
Proof.
  assert (H1 : js "abcdefgh中" <> []) by (vm_compute; discriminate).
  assert (H2 : js "abcdefghi中" <> []) by (vm_compute; discriminate).
  assert (H3 : (1 # 10 < chineseRatio (js "abcdefgh中"))%Q) by (vm_compute; reflexivity).
  assert (H4 : (chineseRatio (js "abcdefghi中") <= 1 # 10)%Q) by (vm_compute; discriminate).
  split; [exact H1|]. split; [exact H3|].
  split; [exact (proj2 (proj1 (detectLanguage_threshold (js "abcdefgh中")) H1) H3)|].
  split; [exact H4|].
  exact (proj2 (proj1 (proj2 (detectLanguage_threshold (js "abcdefghi中"))) H2) H4).
Defined.

Lemma no_strong_indicator (text : jsstring) :
  forallb (fun indicator => negb (JS.includes text (JS.asciiLower indicator)))
          strongDevIndicators = true ->
  forall indicator, indicator ∈ strongDevIndicators ->
                    JS.includes text (JS.asciiLower indicator) = false.
Proof.
  intros H indicator Hin. rewrite forallb_forall in H.
  apply list_elem_of_In, H in Hin. by apply negb_true_iff.
Qed.

(** A text with one researcher keyword and one founder keyword: the
    two categories tie, and the researcher comes first. *)
Lemma determineAITag_decision_witness :
  let text := allText JS.asciiLower (js "phd and founder") (resumeOf []) in
  let tag := determineAITag JS.asciiLower (js "phd and founder") (resumeOf []) in
  (forall indicator, indicator ∈ strongDevIndicators ->
                     JS.includes text (JS.asciiLower indicator) = false) /\
  (scores text developer < 3)%Z /\
  maxScore text <> 0%Z /\
  scores text researcher = scores text founder /\
  tag = researcher /\
  scores text tag = maxScore text /\
  (forall t, t ∈ categories -> scores text t = maxScore text ->
             priority tag <= priority t).
Proof.
  intros text tag.
  assert (Hnone : forall indicator, indicator ∈ strongDevIndicators ->
                    JS.includes text (JS.asciiLower indicator) = false).
  { apply no_strong_indicator. vm_compute. reflexivity. }
  assert (Hdev : (scores text developer < 3)%Z) by (vm_compute; reflexivity).
  assert (Hmax : maxScore text <> 0%Z) by (vm_compute; discriminate).
  split; [exact Hnone|]. split; [exact Hdev|]. split; [exact Hmax|].
  split; [vm_compute; reflexivity|]. split; [vm_compute; reflexivity|].
  exact (proj2 (proj2 (proj2 (proj2 (determineAITag_decision JS.asciiLower
                                        (js "phd and founder") (resumeOf []))
                                     Hnone Hdev)) Hmax)).
Defined.

(** The strong literal decides for the developer. *)
Example determineAITag_frontend :
  determineAITag JS.asciiLower (js "I am a Frontend Engineer") (resumeOf []) = developer /\
  determineAITag JS.asciiLower (js "nothing to see") (resumeOf []) = practitioner.
Proof. vm_compute. split; reflexivity. Qed.


(** C1 fails on the code where a job that started earlier ends after
    the job that started last.  The text holds two plain date ranges and
    no experience statement; the records are the ones
    [extractWorkExperience] makes of it, each range twice, whatever
    their company, position and description.  The function returns 6,
    the years up to the end of the record that starts last, in the order
    of the parser and in the order [assessExperience] leaves alike; the
    whole years from the earliest start to the latest end over all
    records, capped at 15, are 12. *)
Lemma calculateYearsOfExperience_latest_end
    (company1 position1 company2 position2 : jsstring)
    (description1 description2 : list jsstring) :
  let text := js "Acme Inc 2010.01 - 2022.12 and Initech Ltd 2015.01 - 2016.12" in
  let long := mkWorkExperience company1 position1 (js "2010.1") (js "2022.12")
                               description1 [] in
  let short := mkWorkExperience company2 position2 (js "2015.1") (js "2016.12")
                                description2 [] in
  let parsed := [long; short; long; short] in
  let periods := period JS.asciiLower thisYear thisMonth <$> parsed in
  JS.matchAll true experiencePattern text = [] /\
  years_in_2024 text parsed = 6%Z /\
  years_in_2024 text (sortedInPlace parsed) = 6%Z /\
  years_in_2024 text [long; short] = 6%Z /\
  last (sortedExperiences JS.asciiLower thisYear thisMonth parsed)
  = Some (period JS.asciiLower thisYear thisMonth short) /\
  minimum (startCount <$> periods) = (2010 * 12 + 1)%Z /\
  maximum (endCount <$> periods) = (2022 * 12 + 12)%Z /\
  Z.min 15 (Z.max 0 ((maximum (endCount <$> periods)
                      - minimum (startCount <$> periods)) / 12)) = 12%Z.
Proof.
  intros text long short parsed periods.
  split; [vm_compute; reflexivity|].
  repeat split; vm_compute; reflexivity.
Qed.

(** The cap: one record from 1990 to 2024 gives 15, and the stated
    number wins over the dates. *)
Example years_capped :
  years_in_2024 (js "no statement") [job "Acme Inc" "Engineer" "1990" "2024"] = 15%Z /\
  years_in_2024 (js "5年工作经验") [job "Acme Inc" "Engineer" "1990" "2024"] = 5%Z.
Proof. vm_compute. split; reflexivity. Qed.

(** C8 fails on the code: the experience stage sorts the array of the
    parsed resume in place.  After the first stage the first step holds
    the resume with the later job first; once the experience stage has
    run, alone or within [analyzeResume], it holds it with the jobs in
    the other order. *)
Lemma assessExperience_reorders_parsed_resume :
  let after :=
    (ST.executeStep Samples.ticking (js "step-3") (assessExperience JS.asciiLower)
                    parsed).2 in
  let whole := thinking (analyzeResume Samples.ticking stages (js "Jane Doe") fresh).2 in
  (ST.getStepResult (js "step-0") parsed).1
  = ST.Ret (Some (VParsedResume (resumeOf recentFirst))) /\
  (ST.getStepResult (js "step-0") after).1
  = ST.Ret (Some (VParsedResume (resumeOf (reverse recentFirst)))) /\
  (ST.getStepResult (js "step-0") whole).1
  = ST.Ret (Some (VParsedResume (resumeOf (reverse recentFirst)))) /\
  resumeOf (reverse recentFirst) <> resumeOf recentFirst.
Proof.
  split; [vm_compute; reflexivity|]. split; [vm_compute; reflexivity|].
  split; [vm_compute; reflexivity|]. vm_compute. discriminate.
Qed.

(** C3 fails on the code: when a stage throws, the parser or the
    profile stage here, the run stops at that step and [analyzeResume]
    still returns, and stores, a record, all of whose assessments are
    [undefined]. *)
Lemma analyzeResume_assembles_failed_run :
  let run0 := analyzeResume Samples.ticking failingParse (js "Jane Doe") fresh in
  let run1 := analyzeResume Samples.ticking failingProfile (js "Jane Doe") fresh in
  let r := mkResult None None None None None en in
  ST.status <$> ST.steps (ST.context (thinking run0.2))
  = [ST.Error; ST.Pending; ST.Pending; ST.Pending; ST.Pending; ST.Pending] /\
  run0.1 = ST.Ret r /\
  analysisResult run0.2 = Some r /\
  ST.status <$> ST.steps (ST.context (thinking run1.2))
  = [ST.Completed; ST.Error; ST.Pending; ST.Pending; ST.Pending; ST.Pending] /\
  run1.1 = ST.Ret r /\
  analysisResult run1.2 = Some r /\
  ~ complete r.
Proof.
  split; [vm_compute; reflexivity|]. split; [vm_compute; reflexivity|].
  split; [vm_compute; reflexivity|]. split; [vm_compute; reflexivity|].
  split; [vm_compute; reflexivity|]. split; [vm_compute; reflexivity|].
  intros (H & _). by apply is_Some_None in H.
Qed.

End AnalyzerSamplesFacts.

(** ** More on the orchestrator *)

Section OrchestratorMore.

Import SequentialThinking.

Context {Value : Type}.
Variable now : nat -> Z.

Implicit Types (w : World Value) (c : SequentialThinkingContext Value).
Implicit Types (s step : ThinkingStep Value) (e : Executor Value).
Implicit Types (executors : gmap jsstring (Executor Value)).
Implicit Types (defs : list (StepInit Value)).

Abbreviation steps_of w := (steps (context w)).
Abbreviation index_of w := (currentStepIndex (context w)).
Abbreviation status_at w i := (status <$> steps (context w) !! i).
Abbreviation id_at w i := (id <$> steps (context w) !! i).

(** *** The metadata bag *)


(** *** The current step *)

(** X2. In every reachable world [getCurrentStep] returns [null] exactly
    when the pipeline has no step; otherwise it returns the step at
    [currentStepIndex], which is always within the list; and once every
    step is completed it returns the last step.  It leaves the world as
    it is. *)
Theorem getCurrentStep_defined w :
  reachable now w ->
  (getCurrentStep w).2 = w /\
  ((getCurrentStep w).1 = Ret None <-> steps_of w = []) /\
  (forall s, (getCurrentStep w).1 = Ret (Some s) ->
             steps_of w !! Z.to_nat (index_of w) = Some s) /\
  ((forall p s, steps_of w !! p = Some s -> status s = Completed) ->
   (getCurrentStep w).1 = Ret (last (steps_of w))).
Proof.
  intros Hreach. destruct (reachable_invariant now w Hreach) as [_ (H0 & Hlo & Hhi)].
  unfold getCurrentStep, bind, get, ret. simpl.
  assert (Hneg : (index_of w <? 0)%Z = false) by (apply Z.ltb_ge; lia).
  rewrite Hneg.
  split; [done|]. split; [|split].
  - split.
    + intros H. injection H as H. apply lookup_ge_None in H.
      destruct (steps_of w) as [|s l]; [done|]. simpl in *. lia.
    + intros ->. done.
  - intros s H. by injection H.
  - intros Hall. f_equal. rewrite last_lookup. f_equal.
    assert (Hcount : completed_count (context w) = length (steps_of w)).
    { unfold completed_count. rewrite <- (length_fmap status (steps_of w)).
      f_equal. apply completed_all, Forall_lookup.
      intros p st Hp. rewrite list_lookup_fmap in Hp.
      destruct (steps_of w !! p) as [s|] eqn:Hs; [|done].
      simpl in Hp. simplify_eq. by eapply Hall. }
    rewrite Hcount in Hlo. lia.
Qed.

(** Looking a step up after an alteration that keeps the identifiers. *)
Lemma find_step_ids stepId (l l' : list (ThinkingStep Value)) j found :
  id <$> l' = id <$> l ->
  find_step stepId l = Some (j, found) ->
  exists found', find_step stepId l' = Some (j, found') /\ l' !! j = Some found'.
Proof.
  intros Hids Hfind. apply find_step_Some in Hfind as (Hj & Hid & Hbefore).
  assert (Hlook : forall i, id <$> l' !! i = id <$> l !! i).
  { intros i. by rewrite <- !list_lookup_fmap, Hids. }
  pose proof (Hlook j) as Hj'. rewrite Hj in Hj'.
  destruct (l' !! j) as [found'|] eqn:Hl'j; [|done].
  exists found'. split; [|done].
  unfold find_step. apply list_find_Some. split; [done|].
  split; [simpl in Hj'; congruence|].
  intros i y Hi Hlt Hy. pose proof (Hlook i) as Hi'. rewrite Hi in Hi'.
  destruct (l !! i) as [z|] eqn:Hz; [|done]. simpl in Hi'.
  apply (Hbefore i z Hz Hlt). congruence.
Qed.

(** *** What an execution stores *)

(** X3. After [executeStep] has run, for a step it finds, an executor
    that resolves with a value, [getStepResult] returns that value for
    the step's identifier and the step is completed; if the executor
    does not write to the step list, the result of every other
    identifier reads as before. *)
Theorem executeStep_result_round_trip w stepId e v j found :
  find_step stepId (steps_of w) = Some (j, found) ->
  keeps_bookkeeping e ->
  (forall s c, (e s c).2 = inl v) ->
  let w' := (executeStep now stepId e w).2 in
  (getStepResult stepId w').1 = Ret (Some v) /\
  status_at w' j = Some Completed /\
  (keeps_steps e ->
   forall other, other <> stepId ->
     (getStepResult other w').1 = (getStepResult other w).1).
Proof.
  intros Hfind He Hv. simpl.
  pose proof (executeStep_ids now w stepId e He) as Hids.
  pose proof (executeStep_found now w stepId e j found Hfind) as Hrun. simpl in Hrun.
  rewrite Hv in Hrun.
  destruct (find_step_ids stepId _ _ j found Hids Hfind) as (found' & Hfind' & Hj').
  unfold getStepResult, bind, get, ret. simpl. rewrite Hfind'.
  rewrite Hrun in Hj'. simpl in Hj'. rewrite on_success_steps in Hj'.
  rewrite Hrun. simpl. rewrite on_success_steps.
  rewrite list_lookup_alter_eq in Hj'.
  split; [|split].
  - f_equal. destruct (steps _ !! j); simpl in Hj'; by simplify_eq.
  - rewrite list_lookup_alter_eq. destruct (steps _ !! j); simpl in Hj'; by simplify_eq.
  - intros Hsteps other Hother.
    destruct (Hsteps (begin_step (now (clock w)) found)
                (set_isProcessing true
                   (set_steps (alter (begin_step (now (clock w))) j (steps_of w))
                      (context w)))) as [Hst _].
    rewrite Hst. simpl. f_equal.
    rewrite list_alter_alter_eq.
    apply find_step_Some in Hfind as (Hj & Hid & _).
    destruct (find_step other (steps_of w)) as [[k x]|] eqn:Hk.
    + apply find_step_Some in Hk as (Hk & Hidk & Hbefore).
      assert (k <> j) as Hne by (intros ->; congruence).
      assert (find_step other (alter (complete_step v (now (S (clock w)))
                                       ∘ begin_step (now (clock w))) j (steps_of w))
              = Some (k, x)) as ->; [|done].
      unfold find_step. apply list_find_Some.
      split; [by rewrite list_lookup_alter_ne|]. split; [done|].
      intros i y Hi Hlt.
      destruct (decide (i = j)) as [->|Hij].
      * rewrite list_lookup_alter_eq, Hj in Hi. simpl in Hi. simplify_eq. simpl. congruence.
      * rewrite list_lookup_alter_ne in Hi by done. by eapply Hbefore.
    + assert (find_step other (alter (complete_step v (now (S (clock w)))
                                       ∘ begin_step (now (clock w))) j (steps_of w))
              = None) as ->; [|done].
      apply find_step_None. intros y Hy.
      rewrite (find_step_None other (steps_of w)) in Hk.
      apply list_elem_of_lookup in Hy as [i Hi].
      destruct (decide (i = j)) as [->|Hij].
      * rewrite list_lookup_alter_eq, Hj in Hi. simpl in Hi. simplify_eq. simpl. congruence.
      * rewrite list_lookup_alter_ne in Hi by done.
        apply Hk. by eapply list_elem_of_lookup_2.
Qed.

(** The record a call leaves at the position of its step, for an
    executor that does not write to the step list. *)
Lemma executeStep_record w stepId e j found :
  find_step stepId (steps_of w) = Some (j, found) ->
  keeps_steps e ->
  let s1 := begin_step (now (clock w)) found in
  let c1 := set_isProcessing true
              (set_steps (alter (begin_step (now (clock w))) j (steps_of w)) (context w)) in
  let s' := match (e s1 c1).2 with
            | inl v => complete_step v (now (S (clock w))) s1
            | inr m => fail_step m (now (S (clock w))) s1
            end in
  find_step stepId (steps_of (executeStep now stepId e w).2) = Some (j, s').
Proof.
  intros Hfind He.
  pose proof (executeStep_found now w stepId e j found Hfind) as Hrun. simpl in Hrun.
  pose proof (executeStep_ids now w stepId e (keeps_steps_bookkeeping e He)) as Hids.
  destruct (find_step_ids stepId _ _ j found Hids Hfind) as (found' & Hfind' & Hj').
  simpl.
  set (s1 := begin_step (now (clock w)) found) in *.
  set (c1 := set_isProcessing true
               (set_steps (alter (begin_step (now (clock w))) j (steps_of w))
                  (context w))) in *.
  destruct (He s1 c1) as [Hst _].
  apply find_step_Some in Hfind as (Hj & _ & _).
  rewrite Hfind'. do 2 f_equal.
  rewrite Hrun in Hj'. simpl in Hj'.
  destruct (e s1 c1).2 as [v|m]; simpl in Hj'.
  - rewrite on_success_steps, Hst in Hj'. subst c1. simpl in Hj'.
    rewrite list_alter_alter_eq, list_lookup_alter_eq, Hj in Hj'. simpl in Hj'.
    by simplify_eq.
  - rewrite Hst in Hj'. subst c1. simpl in Hj'.
    rewrite list_alter_alter_eq, list_lookup_alter_eq, Hj in Hj'. simpl in Hj'.
    by simplify_eq.
Qed.

(** X4. [executeStep] never clears what an earlier execution left in
    the other field.  A step whose executor throws is in error with the
    message and keeps the result it had; executed again with an executor
    that resolves, it is completed with the new result and still carries
    the error message; executed once more with the failing executor, it
    is in error and still carries the result. *)
Theorem executeStep_keeps_stale_fields w stepId failing succeeding j found message v :
  find_step stepId (steps_of w) = Some (j, found) ->
  keeps_steps failing -> keeps_steps succeeding ->
  (forall s c, (failing s c).2 = inr message) ->
  (forall s c, (succeeding s c).2 = inl v) ->
  let failed := (executeStep now stepId failing w).2 in
  let retried := (executeStep now stepId succeeding failed).2 in
  let redone := (executeStep now stepId failing retried).2 in
  (exists s, steps_of failed !! j = Some s /\
     status s = Error /\ error s = Some message /\ result s = result found) /\
  (exists s, steps_of retried !! j = Some s /\
     status s = Completed /\ result s = Some v /\ error s = Some message) /\
  (exists s, steps_of redone !! j = Some s /\
     status s = Error /\ result s = Some v /\ error s = Some message).
Proof.
  intros Hfind Hf Hs Hfail Hsucc. simpl.
  pose proof (executeStep_record w stepId failing j found Hfind Hf) as H1.
  simpl in H1. rewrite Hfail in H1.
  pose proof (executeStep_record _ stepId succeeding j _ H1 Hs) as H2.
  simpl in H2. rewrite Hsucc in H2.
  pose proof (executeStep_record _ stepId failing j _ H2 Hf) as H3.
  simpl in H3. rewrite Hfail in H3.
  apply find_step_Some in H1 as (H1 & _ & _).
  apply find_step_Some in H2 as (H2 & _ & _).
  apply find_step_Some in H3 as (H3 & _ & _).
  split; [|split]; eexists; (split; [eassumption|]); done.
Qed.

(** *** The processing flag and the log *)

Lemma executeStep_paired w stepId e :
  keeps_bookkeeping e ->
  paired (updates w) /\ isProcessing (context w) = false ->
  paired (updates (executeStep now stepId e w).2) /\
  isProcessing (context (executeStep now stepId e w).2) = false.
Proof.
  intros He [Hp Hidle].
  destruct (find_step stepId (steps_of w)) as [[j found]|] eqn:Hfind;
    [|by rewrite executeStep_unknown].
  pose proof (executeStep_found now w stepId e j found Hfind) as Hrun. simpl in Hrun.
  destruct (executeStep_bookkeeping now w stepId e j found Hfind He)
    as (o & _ & _ & _ & _ & Hidle' & _ & c1 & s4 & Hup & Hs4 & _ & _).
  simpl in *. split; [|done].
  rewrite Hup. rewrite Hrun in Hup. simpl in Hup.
  apply app_inv_head in Hup. inversion Hup as [[Hc1 Hs4']]. clear Hup.
  apply find_step_Some in Hfind as (_ & Hid & _).
  apply paired_snoc; [done|done|done| | |done].
  - unfold bookkeeping in Hs4. simpl. congruence.
  - unfold bookkeeping in Hs4. destruct o; simpl in Hs4; simplify_eq; auto.
Qed.

Lemma loop_paired executors i w r w' :
  loop now executors i w r w' ->
  all_executors keeps_bookkeeping executors ->
  paired (updates w) /\ isProcessing (context w) = false ->
  paired (updates w') /\ isProcessing (context w') = false.
Proof.
  intros Hloop Hex.
  induction Hloop as
    [ i w Hi
    | i w step r w' Hi Hc Hloop IH
    | i w step Hi Hc Hfor
    | i w step e w1 step1 Hi Hc Hfor Hrun Hi1 Herr
    | i w step e w1 step1 r w' Hi Hc Hfor Hrun Hi1 Herr Hloop IH ]; intros Hinv; auto.
  - destruct (executor_for_Some _ _ _ Hfor) as [k' Hk'].
    pose proof (executeStep_paired w (id step) e (Hex k' e Hk') Hinv) as H.
    by rewrite Hrun in H.
  - destruct (executor_for_Some _ _ _ Hfor) as [k' Hk'].
    pose proof (executeStep_paired w (id step) e (Hex k' e Hk') Hinv) as H.
    rewrite Hrun in H. by apply IH.
Qed.

(** X5. Between two method calls the processing flag is down, and the
    calls to the observer come in pairs: one at the start of an
    execution, with the step processing and the flag up, and one at its
    end, for the same step, completed or in error, with the flag down.
    So the observer has been called an even number of times. *)
Theorem reachable_idle_and_paired w :
  reachable now w ->
  isProcessing (context w) = false /\ paired (updates w) /\
  exists n, length (updates w) = 2 * n.
Proof.
  intros Hreach.
  assert (H : paired (updates w) /\ isProcessing (context w) = false).
  { induction Hreach as [defs|w stepId e Hreach IH He|w executors Hreach IH Hex
                        |w key value Hreach IH].
    - split; [constructor|done].
    - by apply executeStep_paired.
    - destruct (reachable_invariant now w Hreach) as [Hnd _].
      eapply loop_paired; [by apply executeAll_loop|done..].
    - done. }
  destruct H as [Hp Hidle]. split; [done|]. split; [done|].
  clear Hreach Hidle. induction Hp as [|l s1 c1 s2 c2 _ [n IH] _ _ _ _ _].
  - by exists 0.
  - exists (S n). rewrite length_app. simpl. lia.
Qed.

(** *** The one exception of [executeAll] *)

(** X6. When the first step that is not completed has neither an
    executor of its own nor a default one, [executeAll] throws the
    no-executor error for that step before it has changed anything:
    the world is the one it started in. *)
Theorem executeAll_missing_executor w executors p s :
  steps_of w !! p = Some s ->
  status s <> Completed ->
  (forall q, q < p -> status_at w q = Some Completed) ->
  executor_for executors (id s) = None ->
  executeAll now executors w
  = (Throw (js "No executor found for step " ++ id s), w).
Proof.
  intros Hp Hst Hdone Hfor.
  pose proof (lookup_lt_Some _ _ _ Hp) as Hlt.
  rewrite executeAll_unfold.
  replace (length (steps_of w)) with (p + S (length (steps_of w) - S p)) by lia.
  rewrite executeAll_from_skip by (intros q Hq; apply Hdone; lia).
  rewrite Nat.add_0_l, executeAll_from_S, Hp.
  rewrite decide_False by done. by rewrite Hfor.
Qed.



(** *** The metadata during a run *)

Lemma on_success_metadata j (v : Value) t c :
  metadata (on_success j v t c) = metadata c.
Proof. unfold on_success. by case_match. Qed.

Lemma executeStep_metadata w stepId e :
  keeps_metadata e ->
  let w' := (executeStep now stepId e w).2 in
  metadata (context w') = metadata (context w) /\
  exists new, updates w' = updates w ++ new /\
              Forall (fun ev => metadata ev.2 = metadata (context w)) new.
Proof.
  intros He. simpl.
  destruct (find_step stepId (steps_of w)) as [[j found]|] eqn:Hfind.
  2:{ rewrite executeStep_unknown by done. split; [done|].
      exists []. by rewrite app_nil_r. }
  rewrite (executeStep_found now w stepId e j found Hfind). simpl.
  set (s1 := begin_step (now (clock w)) found).
  set (c1 := set_isProcessing true
               (set_steps (alter (begin_step (now (clock w))) j (steps_of w))
                  (context w))).
  pose proof (He s1 c1) as Hm.
  assert (Hc4 : metadata match (e s1 c1).2 with
                         | inl v => on_success j v (now (S (clock w))) (e s1 c1).1
                         | inr message => on_failure j message (now (S (clock w))) (e s1 c1).1
                         end = metadata (context w)).
  { destruct (e s1 c1).2; [rewrite on_success_metadata|simpl]; by rewrite Hm. }
  split; [done|]. eexists. split; [reflexivity|].
  repeat constructor; done.
Qed.

Lemma loop_metadata executors i w r w' :
  loop now executors i w r w' ->
  all_executors keeps_metadata executors ->
  metadata (context w') = metadata (context w) /\
  exists new, updates w' = updates w ++ new /\
              Forall (fun ev => metadata ev.2 = metadata (context w)) new.
Proof.
  intros Hloop Hex.
  induction Hloop as
    [ i w Hi
    | i w step r w' Hi Hc Hloop IH
    | i w step Hi Hc Hfor
    | i w step e w1 step1 Hi Hc Hfor Hrun Hi1 Herr
    | i w step e w1 step1 r w' Hi Hc Hfor Hrun Hi1 Herr Hloop IH ]; try done.
  - split; [done|]. exists []. by rewrite app_nil_r.
  - split; [done|]. exists []. by rewrite app_nil_r.
  - destruct (executor_for_Some _ _ _ Hfor) as [k' Hk'].
    pose proof (executeStep_metadata w (id step) e (Hex k' e Hk')) as H.
    by rewrite Hrun in H.
  - destruct (executor_for_Some _ _ _ Hfor) as [k' Hk'].
    pose proof (executeStep_metadata w (id step) e (Hex k' e Hk')) as H.
    rewrite Hrun in H. simpl in H. destruct H as (Hm1 & new1 & Hup1 & Hev1).
    destruct IH as (Hm & new & Hup & Hev).
    split; [congruence|]. exists (new1 ++ new).
    split; [by rewrite Hup, Hup1, app_assoc|].
    apply Forall_app. split; [done|].
    eapply Forall_impl; [exact Hev|]. simpl. intros ev. congruence.
Qed.

(** X8. An entry stored with [updateMetadata] before a run is there
    throughout the run, as long as no executor writes to the bag: the
    observer sees it at every call, so every executor is started with
    it, and it is still there afterwards. *)
Theorem executeAll_shows_metadata w executors key value :
  reachable now w ->
  all_executors keeps_bookkeeping executors ->
  all_executors keeps_metadata executors ->
  key <> [] -> key <> js "__proto__" ->
  let stored := (updateMetadata key value w).2 in
  let w' := (executeAll now executors stored).2 in
  (getMetadata key w').1 = Ret (Some value) /\
  exists new, updates w' = updates w ++ new /\
              forall ev, ev ∈ new -> metadata ev.2 !! key = Some value.
Proof.
  intros Hreach Hex Hmeta Hkey _ stored w'.
  assert (Hup0 : updates stored = updates w) by done.
  assert (Hnd : NoDup (id <$> steps_of stored)).
  { by destruct (reachable_invariant now w Hreach). }
  assert (Hstored : metadata (context stored) !! key = Some value).
  { subst stored. unfold updateMetadata, bind, get, put. simpl. apply lookup_insert_eq. }
  destruct (loop_metadata _ _ _ _ _ (executeAll_loop now executors stored Hex Hnd) Hmeta)
    as (Hm & new & Hup & Hev).
  fold w' in Hm, Hup. clearbody w' stored.
  split.
  - unfold getMetadata, bind, get, ret. simpl. by rewrite Hm, Hstored.
  - exists new. split; [by rewrite Hup, Hup0|]. intros ev Hin. rewrite Forall_forall in Hev.
    by rewrite (Hev ev Hin).
Qed.

End OrchestratorMore.

(** *** Instances on the sample runs *)

Section OrchestratorMoreSamples.

Import SequentialThinking Samples.

Lemma resolves_keeps_metadata v : keeps_metadata (resolves v).
Proof. intros s c. by simpl. Qed.

Lemma rejects_keeps_metadata message : keeps_metadata (rejects message).
Proof. intros s c. by simpl. Qed.

Lemma all_resolve_keeps_metadata : all_executors keeps_metadata all_resolve.
Proof.
  intros k e Hk. unfold all_resolve in Hk.
  apply lookup_singleton_Some in Hk as [_ <-]. apply resolves_keeps_metadata.
Qed.


Lemma getCurrentStep_defined_witness :
  reachable ticking first_done /\
  (getCurrentStep first_done).1 <> Ret None /\
  id <$> steps (context first_done) !! Z.to_nat (currentStepIndex (context first_done))
  = Some (js "step-1").
Proof.
  pose proof (getCurrentStep_defined ticking first_done first_done_reachable)
    as (_ & Hnull & _ & _).
  split; [exact first_done_reachable|]. split.
  - intros H. apply Hnull in H. vm_compute in H. discriminate.
  - vm_compute. reflexivity.
Defined.

Lemma executeStep_result_round_trip_witness :
  let found := new_step ticking 0 1
                 (mkInit (js "Generate Professional Profile") (js "Create") None None) in
  let w' := (executeStep ticking (js "step-1") (resolves 2%Z) first_done).2 in
  find_step (js "step-1") (steps (context first_done)) = Some (1, found) /\
  keeps_bookkeeping (resolves 2%Z) /\
  (getStepResult (js "step-1") w').1 = Ret (Some 2%Z) /\
  (getStepResult (js "step-0") w').1 = Ret (Some 5%Z).
Proof.
  intros found w'.
  assert (Hfind : find_step (js "step-1") (steps (context first_done)) = Some (1, found))
    by (vm_compute; reflexivity).
  assert (Hkeeps : keeps_steps (resolves 2%Z)) by apply resolves_keeps_steps.
  assert (Hne : js "step-0" <> js "step-1") by (vm_compute; discriminate).
  pose proof (executeStep_result_round_trip ticking first_done (js "step-1") (resolves 2%Z)
                2%Z 1 found Hfind (keeps_steps_bookkeeping _ Hkeeps)
                (fun _ _ => eq_refl)) as (Hget & _ & Hother).
  split; [exact Hfind|]. split; [exact (keeps_steps_bookkeeping _ Hkeeps)|].
  split; [exact Hget|]. subst w'. rewrite (Hother Hkeeps (js "step-0") Hne).
  vm_compute. reflexivity.
Defined.

Lemma executeStep_keeps_stale_fields_witness :
  let w := constructor ticking one_step in
  let found := new_step ticking 0 0
                 (mkInit (js "Parse Resume Content") (js "Extract") None None) in
  let failed := (executeStep ticking (js "step-0") (rejects (js "boom")) w).2 in
  let retried := (executeStep ticking (js "step-0") (resolves 7%Z) failed).2 in
  find_step (js "step-0") (steps (context w)) = Some (0, found) /\
  (exists s, steps (context retried) !! 0 = Some s /\
     status s = Completed /\ result s = Some 7%Z /\ error s = Some (js "boom")).
Proof.
  intros w found failed retried.
  assert (Hfind : find_step (js "step-0") (steps (context w)) = Some (0, found))
    by (vm_compute; reflexivity).
  split; [exact Hfind|].
  exact (proj1 (proj2 (executeStep_keeps_stale_fields ticking w (js "step-0")
                         (rejects (js "boom")) (resolves 7%Z) 0 found (js "boom") 7%Z
                         Hfind (rejects_keeps_steps _) (resolves_keeps_steps _)
                         (fun _ _ => eq_refl) (fun _ _ => eq_refl)))).
Defined.

Lemma reachable_idle_and_paired_witness :
  reachable ticking failed_once /\
  isProcessing (context failed_once) = false /\
  paired (updates failed_once) /\
  length (updates failed_once) = 2.
Proof.
  pose proof (reachable_idle_and_paired ticking failed_once failed_once_reachable)
    as (Hidle & Hpaired & _).
  split; [exact failed_once_reachable|]. split; [exact Hidle|].
  split; [exact Hpaired|]. vm_compute. reflexivity.
Defined.

Lemma executeAll_missing_executor_witness :
  let s := new_step ticking 0 1
             (mkInit (js "Generate Professional Profile") (js "Create") None None) in
  steps (context first_done) !! 1 = Some s /\
  status s <> Completed /\
  (forall q, q < 1 -> status <$> steps (context first_done) !! q = Some Completed) /\
  executor_for (∅ : gmap jsstring (Executor Z)) (id s) = None /\
  executeAll ticking ∅ first_done
  = (Throw (js "No executor found for step step-1"), first_done).
Proof.
  intros s.
  assert (H1 : steps (context first_done) !! 1 = Some s) by (vm_compute; reflexivity).
  assert (H2 : status s <> Completed) by discriminate.
  assert (H3 : forall q, q < 1 ->
            status <$> steps (context first_done) !! q = Some Completed).
  { intros q Hq. assert (q = 0) as -> by lia. vm_compute. reflexivity. }
  assert (H4 : executor_for (∅ : gmap jsstring (Executor Z)) (id s) = None)
    by reflexivity.
  split; [exact H1|]. split; [exact H2|]. split; [exact H3|]. split; [exact H4|].
  exact (executeAll_missing_executor ticking first_done ∅ 1 s H1 H2 H3 H4).
Defined.


Lemma executeAll_shows_metadata_witness :
  let stored := (updateMetadata (js "language") 1%Z first_done).2 in
  let w' := (executeAll ticking all_resolve stored).2 in
  reachable ticking first_done /\
  all_executors keeps_metadata all_resolve /\
  (getMetadata (js "language") w').1 = Ret (Some 1%Z) /\
  exists new, updates w' = updates first_done ++ new /\ length new = 4 /\
              forall ev, ev ∈ new -> metadata ev.2 !! js "language" = Some 1%Z.
Proof.
  intros stored w'.
  assert (H1 : js "language" <> []) by (vm_compute; discriminate).
  assert (H2 : js "language" <> js "__proto__") by (vm_compute; discriminate).
  pose proof (executeAll_shows_metadata ticking first_done all_resolve (js "language") 1%Z
                first_done_reachable
                (all_keep_bookkeeping _ all_resolve_keeps_steps)
                all_resolve_keeps_metadata H1 H2) as (Hget & new & Hup & Hev).
  split; [exact first_done_reachable|]. split; [exact all_resolve_keeps_metadata|].
  split; [exact Hget|]. exists new. split; [exact Hup|]. split; [|exact Hev].
  apply (f_equal length) in Hup. rewrite length_app in Hup.
  assert (Hlen : length (updates w') = length (updates first_done) + 4)
    by (vm_compute; reflexivity).
  fold stored w' in Hup. lia.
Defined.

End OrchestratorMoreSamples.

(** ** More on strings and arrays *)

Section Strings.


Lemma startsWith_spec p s : JS.startsWith p s = true <-> exists rest, s = p ++ rest.
Proof.
  revert s. induction p as [|a p IH]; intros s; simpl.
  { split; [intros _; by exists s|done]. }
  destruct s as [|b s].
  { split; [done|]. intros [rest H]. done. }
  case_decide as Hab.
  - subst b. rewrite IH. split; intros [rest H]; exists rest; simpl in *; congruence.
  - split; [done|]. intros [rest H]. simpl in H. congruence.
Qed.

Lemma includes_spec s p :
  JS.includes s p = true <-> exists before after, s = before ++ p ++ after.
Proof.
  induction s as [|c s IH]; simpl.
  - rewrite orb_false_r, startsWith_spec. split.
    + intros [rest H]. by exists [], rest.
    + intros (before & after & H). symmetry in H.
      apply app_eq_nil in H as [-> H]. apply app_eq_nil in H as [-> ->]. by exists [].
  - rewrite orb_true_iff, startsWith_spec, IH. split.
    + intros [[rest H]|(before & after & H)].
      * by exists [], rest.
      * exists (c :: before), after. simpl. by rewrite H.
    + intros (before & after & H). destruct before as [|b before].
      * left. by exists after.
      * right. simpl in H. injection H as -> H. by exists before, after.
Qed.

Lemma includes_trans s p q :
  JS.includes s p = true -> JS.includes p q = true -> JS.includes s q = true.
Proof.
  rewrite !includes_spec. intros (b1 & a1 & ->) (b2 & a2 & ->).
  exists (b1 ++ b2), (a2 ++ a1). by rewrite <- !app_assoc.
Qed.

Lemma uniq_elem_of {A} `{EqDecision A} (seen l : list A) x :
  x ∈ JS.uniq seen l <-> x ∈ l /\ x ∉ seen.
Proof.
  revert seen. induction l as [|y l IH]; intros seen; simpl.
  { split; [by intros ?%elem_of_nil|by intros [?%elem_of_nil _]]. }
  case_decide as Hy.
  - rewrite IH, elem_of_cons. split; [tauto|]. intros [[->|Hx] Hseen]; tauto.
  - rewrite !elem_of_cons, IH, elem_of_cons. split.
    + intros [->|[Hx Hseen]]; [tauto|]. split; [tauto|]. tauto.
    + intros [[->|Hx] Hseen]; [tauto|].
      destruct (decide (x = y)) as [->|Hne]; [tauto|]. right. split; [done|]. tauto.
Qed.

Lemma uniq_NoDup {A} `{EqDecision A} (seen l : list A) : NoDup (JS.uniq seen l).
Proof.
  revert seen. induction l as [|y l IH]; intros seen; simpl; [constructor|].
  case_decide as Hy; [apply IH|]. constructor; [|apply IH].
  rewrite uniq_elem_of, elem_of_cons. tauto.
Qed.

Lemma dropWhile_head {A} (f : A -> bool) l x :
  head (JS.dropWhile f l) = Some x -> f x = false.
Proof.
  induction l as [|y l IH]; simpl; [done|].
  destruct (f y) eqn:Hy; [done|]. simpl. by intros [= <-].
Qed.

Lemma dropWhile_fixed {A} (f : A -> bool) l :
  (forall x, head l = Some x -> f x = false) -> JS.dropWhile f l = l.
Proof. destruct l as [|y l]; simpl; [done|]. intros H. by rewrite H. Qed.

Lemma dropWhile_last {A} (f : A -> bool) l x :
  last (JS.dropWhile f l) = Some x -> last l = Some x.
Proof.
  induction l as [|y l IH]; simpl; [done|].
  destruct (f y); [|done]. intros H. specialize (IH H).
  destruct l; [done|]. done.
Qed.

Lemma trim_trim s : JS.trim (JS.trim s) = JS.trim s.
Proof.
  unfold JS.trim.
  set (t := JS.dropWhile JS.isWhiteSpace (reverse (JS.dropWhile JS.isWhiteSpace s))).
  assert (H1 : JS.dropWhile JS.isWhiteSpace (reverse t) = reverse t).
  { apply dropWhile_fixed. intros x Hx. rewrite head_reverse in Hx.
    apply dropWhile_last in Hx. rewrite last_reverse in Hx.
    by apply dropWhile_head in Hx. }
  rewrite H1, reverse_involutive.
  assert (H2 : JS.dropWhile JS.isWhiteSpace t = t).
  { apply dropWhile_fixed. intros x Hx. by apply dropWhile_head in Hx. }
  by rewrite H2.
Qed.

Lemma insert_sorted_ext {A} (compare compare' : A -> A -> Z) x l :
  (forall y, y ∈ l -> compare x y = compare' x y) ->
  JS.insert_sorted compare x l = JS.insert_sorted compare' x l.
Proof.
  induction l as [|y l IH]; intros H; simpl; [done|].
  rewrite (H y) by apply list_elem_of_here.
  case_match; [done|]. f_equal. apply IH. intros z Hz. apply H.
  by apply list_elem_of_further.
Qed.

Lemma sort_ext {A} (compare compare' : A -> A -> Z) l :
  (forall x y, x ∈ l -> y ∈ l -> compare x y = compare' x y) ->
  JS.sort compare l = JS.sort compare' l.
Proof.
  induction l as [|x l IH]; intros H; simpl; [done|].
  rewrite IH.
  - apply insert_sorted_ext. intros y Hy. apply H; [apply list_elem_of_here|].
    apply list_elem_of_further. by rewrite <- (sort_perm compare' l).
  - intros a b Ha Hb. apply H; by apply list_elem_of_further.
Qed.

End Strings.

(** Membership in a list that is written out. *)
Ltac listed := repeat first [apply list_elem_of_here | apply list_elem_of_further].

(** ** More on the analyzer *)

Section AnalyzerMore.

Import ResumeAnalyzer.

Variable toLowerCase : jsstring -> jsstring.
Variable currentYear currentMonth : Z.

(** *** The translation of positions *)

(** X9. For every pair of the table, the Chinese title translates to
    the English one, and an English title translated to Chinese and
    back is itself.  The other round trip, Chinese to English and back,
    gives the title it started from, except for 高级工程师: its English
    title is shared with 资深工程师, which is listed later and is the
    one the reverse table holds.  A title that is already in the target
    language is returned as it is. *)
Theorem translatePosition_round_trip chinese english language :
  (chinese, english) ∈ chineseToEnglish ->
  language <> js "zh" ->
  translatePosition chinese language = english /\
  translatePosition (translatePosition english (js "zh")) language = english /\
  translatePosition (translatePosition chinese language) (js "zh")
  = (if decide (chinese = js "高级工程师") then js "资深工程师" else chinese) /\
  translatePosition chinese (js "zh") = chinese /\
  translatePosition english language = english.
Proof.
  intros Hin Hlang. unfold translatePosition.
  rewrite !(decide_False (P := language = js "zh")) by done.
  rewrite !(decide_True (P := js "zh" = js "zh")) by done.
  unfold chineseToEnglish in Hin.
  repeat (apply elem_of_cons in Hin as [Hin|Hin];
          [injection Hin as -> ->; vm_compute; repeat split; reflexivity|]).
  by apply elem_of_nil in Hin.
Qed.

Lemma assoc_None {A} key (table : list (jsstring * A)) :
  (forall k v, (k, v) ∈ table -> key <> k) -> assoc key table = None.
Proof.
  induction table as [|[k v] table IH]; intros H; simpl; [done|].
  rewrite decide_False by (eapply H; apply list_elem_of_here).
  apply IH. intros k' v' Hin. eapply H. by apply list_elem_of_further.
Qed.

(** X10. A position that is in neither column of the table is
    returned unchanged, whatever the target language.  (The position
    does not name a member of [Object.prototype], which the lookup would
    find instead.) *)
Theorem translatePosition_unknown position language :
  ordinary position ->
  (forall chinese english,
     (chinese, english) ∈ chineseToEnglish -> position <> chinese /\ position <> english) ->
  translatePosition position language = position.
Proof.
  intros _ Hout. unfold translatePosition.
  assert (H1 : assoc position chineseToEnglish = None).
  { apply assoc_None. intros k v Hin. by destruct (Hout k v Hin). }
  assert (H2 : assoc position englishToChinese = None).
  { apply assoc_None. intros k v Hin. unfold englishToChinese in Hin.
    apply elem_of_reverse, list_elem_of_fmap in Hin as ([k' v'] & Heq & Hin).
    injection Heq as -> ->. by destruct (Hout k' v' Hin). }
  rewrite H1, H2. by case_decide.
Qed.

(** *** The role generated from the skills *)

Lemma someTech_true techs skillsLower :
  someTech techs skillsLower = true <->
  exists tech skill, tech ∈ techs /\ skill ∈ skillsLower /\ JS.includes skill tech = true.
Proof.
  unfold someTech. rewrite existsb_exists. split.
  - intros (tech & Ht & H). apply existsb_exists in H as (skill & Hs & H).
    exists tech, skill. by rewrite !list_elem_of_In.
  - intros (tech & skill & Ht & Hs & H). exists tech.
    split; [by apply list_elem_of_In|]. apply existsb_exists. exists skill.
    split; [by apply list_elem_of_In|done].
Qed.

(** X11. "java" is a part of "javascript": a technical skill whose
    lower-cased name contains "javascript" counts as a frontend and as
    a backend technology, so the generated role is the full-stack one
    (or the Web3 one, which is tested first), never the frontend
    one. *)
Theorem generateRoleFromSkills_javascript skills language item :
  item ∈ itemsOfCategory toLowerCase (js "technical") skills ->
  JS.includes (toLowerCase item) (js "javascript") = true ->
  let role := generateRoleFromSkills toLowerCase skills language in
  if decide (language = js "zh")
  then role = js "Web3工程师" \/ role = js "全栈工程师"
  else role = js "Web3 Engineer" \/ role = js "Full Stack Engineer".
Proof.
  intros Hitem Hjs. simpl. unfold generateRoleFromSkills.
  set (skillsLower := toLowerCase <$> itemsOfCategory toLowerCase (js "technical") skills).
  assert (Hin : toLowerCase item ∈ skillsLower).
  { apply list_elem_of_fmap. by exists item. }
  assert (Hfront : someTech frontendTechs skillsLower = true).
  { apply someTech_true. exists (js "javascript"), (toLowerCase item).
    split; [|done]. unfold frontendTechs. listed. }
  assert (Hback : someTech backendTechs skillsLower = true).
  { apply someTech_true. exists (js "java"), (toLowerCase item).
    split; [unfold backendTechs; listed|]. split; [done|].
    eapply includes_trans; [exact Hjs|]. vm_compute. reflexivity. }
  rewrite Hfront, Hback.
  destruct (someTech web3Techs skillsLower); case_decide as Hzh;
    first [rewrite bool_decide_eq_true_2 by done|rewrite bool_decide_eq_false_2 by done];
    cbn [andb]; auto.
Qed.

(** *** The industry *)

(** X12. [determineIndustry] returns one of the seven names of its
    table, and Technology when no keyword occurs.  The categories are
    tried in order and Technology, the first, has the keywords "tech"
    and "ai": a text that contains "fintech", "biotech", "retail" or
    "entertainment", keywords of later categories, contains one of the
    two and is classified as Technology. *)
Theorem determineIndustry_shadowed workExperience skills :
  let text :=
    toLowerCase
      (JS.join (js " ")
         (flat_map (fun exp => [company exp; position exp] ++ description exp)
                   workExperience
          ++ flat_map items skills)) in
  let industry := determineIndustry toLowerCase workExperience skills in
  industry ∈ (fst <$> industryKeywords) /\
  (forall keyword,
     keyword ∈ [js "fintech"; js "biotech"; js "retail"; js "entertainment"] ->
     JS.includes text keyword = true -> industry = js "Technology") /\
  ((forall name keywords keyword,
      (name, keywords) ∈ industryKeywords -> keyword ∈ keywords ->
      JS.includes text keyword = false) ->
   industry = js "Technology").
Proof.
  intros text industry. subst industry. unfold determineIndustry. fold text.
  clearbody text. unfold industryKeywords.
  split; [|split].
  - cbn [find fst snd fmap list_fmap].
    repeat match goal with
           | |- context [if ?b then _ else _] => destruct b
           end; listed.
  - intros keyword Hk Hinc.
    assert (Htech : existsb (JS.includes text)
              [js "tech"; js "software"; js "ai"; js "ml"; js "data"; js "cloud";
               js "startup"; js "web3"; js "blockchain"; js "科技"; js "软件";
               js "人工智能"; js "技术"; js "互联网"; js "前端"; js "后端"; js "开发";
               js "程序"] = true).
    { apply existsb_exists.
      repeat (apply elem_of_cons in Hk as [->|Hk]); [..|by apply elem_of_nil in Hk].
      - exists (js "tech"). split; [apply list_elem_of_In; listed|].
        eapply includes_trans; [exact Hinc|]. vm_compute. reflexivity.
      - exists (js "tech"). split; [apply list_elem_of_In; listed|].
        eapply includes_trans; [exact Hinc|]. vm_compute. reflexivity.
      - exists (js "ai"). split; [apply list_elem_of_In; listed|].
        eapply includes_trans; [exact Hinc|]. vm_compute. reflexivity.
      - exists (js "ai"). split; [apply list_elem_of_In; listed|].
        eapply includes_trans; [exact Hinc|]. vm_compute. reflexivity. }
    cbn [find]. by rewrite Htech.
  - intros Hnone.
    assert (Hfalse : forall name keywords,
              (name, keywords) ∈ industryKeywords ->
              existsb (JS.includes text) keywords = false).
    { intros name keywords Hin.
      destruct (existsb (JS.includes text) keywords) eqn:H; [|done].
      apply existsb_exists in H as (keyword & Hk & Hinc).
      apply list_elem_of_In in Hk. by rewrite (Hnone name keywords keyword Hin Hk) in Hinc. }
    unfold industryKeywords in Hfalse.
    cbn [find].
    repeat match goal with
           | |- context [existsb (JS.includes text) ?kws] =>
             rewrite (Hfalse _ kws) by listed
           end.
    done.
Qed.

(** *** The career progression *)

Lemma findIndex_range pos keywords at_ :
  findIndex pos keywords at_ = (-1)%Z \/ (at_ <= findIndex pos keywords at_)%Z.
Proof.
  revert at_. induction keywords as [|k keywords IH]; intros at_; simpl; [by left|].
  case_match; [right; lia|]. destruct (IH (at_ + 1)%Z); [by left|right; lia].
Qed.

Lemma rank_range keywords pos : (-1 <= rank keywords pos)%Z.
Proof. unfold rank. destruct (findIndex_range pos keywords 0); lia. Qed.

Lemma highest_range keywords positions : (-1 <= highest keywords positions)%Z.
Proof.
  unfold highest. induction positions as [|p positions IH]; [done|].
  rewrite fmap_cons. cbn [foldr]. lia.
Qed.

Lemma highest_snoc keywords positions pos :
  highest keywords (positions ++ [pos])
  = Z.max (highest keywords positions) (rank keywords pos).
Proof.
  unfold highest. induction positions as [|p positions IH].
  - cbn [app fmap list_fmap foldr]. pose proof (rank_range keywords pos). lia.
  - rewrite <- app_comm_cons, !fmap_cons. cbn [foldr]. rewrite IH. lia.
Qed.

Lemma progression_fold keywords todo seen hasProgression :
  (hasProgression = true <->
   exists before pos after,
     seen = before ++ pos :: after /\
     (0 < rank keywords pos)%Z /\ (highest keywords before < rank keywords pos)%Z) ->
  (fold_left (progressionStep keywords) todo (highest keywords seen, hasProgression)).2
  = true <->
  exists before pos after,
    seen ++ todo = before ++ pos :: after /\
    (0 < rank keywords pos)%Z /\ (highest keywords before < rank keywords pos)%Z.
Proof.
  revert seen hasProgression.
  induction todo as [|pos todo IH]; intros seen hasProgression Hseen.
  { simpl. by rewrite app_nil_r. }
  cbn [fold_left]. unfold progressionStep at 2. fold (rank keywords pos).
  assert (Hnext : (if (rank keywords pos =? -1)%Z then highest keywords seen
                   else Z.max (highest keywords seen) (rank keywords pos))
                  = highest keywords (seen ++ [pos])).
  { rewrite highest_snoc. pose proof (highest_range keywords seen).
    destruct (Z.eqb_spec (rank keywords pos) (-1)); lia. }
  rewrite Hnext, (IH (seen ++ [pos])); [by rewrite <- app_assoc|].
  rewrite orb_true_iff, andb_true_iff, Z.ltb_lt, Z.ltb_lt, Hseen. split.
  - intros [(before & pos' & after & -> & Hr)|[Hlt Hpos]].
    + exists before, pos', (after ++ [pos]). by rewrite <- app_assoc.
    + by exists seen, pos, [].
  - intros (before & pos' & after & Heq & Hr).
    destruct (decide (after = [])) as [->|Hne].
    + apply app_inj_tail in Heq as [-> ->]. right. lia.
    + destruct (exists_last Hne) as (after' & x & ->).
      rewrite app_comm_cons, app_assoc in Heq.
      apply app_inj_tail in Heq as [-> ->]. left. by exists before, pos', after'.
Qed.

(** X13. [analyzeCareerProgression] answers true exactly when there
    are two experiences or more and, on one of the four ladders of
    keywords, some title stands on a rung above the first one and above
    the rungs of all the titles before it. *)
Theorem analyzeCareerProgression_characterized workExperience :
  let positions := (fun exp => toLowerCase (position exp)) <$> workExperience in
  analyzeCareerProgression toLowerCase workExperience = true <->
  2 <= length workExperience /\
  exists keywords before pos after,
    keywords ∈ progressionKeywords /\
    positions = before ++ pos :: after /\
    (0 < rank keywords pos)%Z /\ (highest keywords before < rank keywords pos)%Z.
Proof.
  intros positions. unfold analyzeCareerProgression. fold positions.
  destruct (Nat.ltb_spec (length workExperience) 2) as [Hlt|Hge].
  { split; [done|]. intros [? _]. lia. }
  rewrite existsb_exists. split.
  - intros (keywords & Hin & H). split; [done|].
    apply (progression_fold keywords positions [] false) in H.
    + destruct H as (before & pos & after & Heq & Hr).
      exists keywords, before, pos, after. split; [by apply list_elem_of_In|done].
    + split; [done|]. intros (before & pos & after & Heq & _). by destruct before.
  - intros (_ & keywords & before & pos & after & Hin & Heq & Hr).
    exists keywords. split; [by apply list_elem_of_In|].
    apply (progression_fold keywords positions [] false).
    + split; [done|]. intros (before' & pos' & after' & Heq' & _). by destruct before'.
    + by exists before, pos, after.
Qed.

(** *** The latest education *)

Lemma join_nonempty sep part parts :
  part <> [] -> JS.join sep (part :: parts) <> [].
Proof.
  intros Hne. destruct parts as [|q parts]; simpl; [done|].
  destruct part; [done|]. done.
Qed.

Lemma literal_app_nonempty (literal rest : jsstring) :
  literal <> [] -> literal ++ rest <> [].
Proof. by destruct literal. Qed.


Lemma generateLatestEducation_nonempty education language :
  generateLatestEducation education language <> [].
Proof.
  unfold generateLatestEducation.
  assert (Hzh : forall a b : jsstring, a <> [] -> b <> [] ->
            (if bool_decide (language = js "zh") then a else b) <> []).
  { intros a b Ha Hb. by case_bool_decide. }
  destruct (latestEdu education) as [latest|];
    [|apply Hzh; vm_compute; discriminate].
  set (parts := _ ++ _).
  assert (Hparts : Forall (fun part => part <> []) parts).
  { subst parts. repeat apply Forall_app_2.
    - destruct (degree latest); repeat constructor. done.
    - destruct (major latest) as [[|c m]|]; repeat constructor.
      apply Hzh; [done|]. apply literal_app_nonempty. vm_compute. discriminate.
    - destruct (institution latest) eqn:Hinst; repeat constructor.
      apply Hzh; apply literal_app_nonempty; vm_compute; discriminate.
    - destruct (graduationYear latest) as [[| |]|]; repeat constructor;
        apply literal_app_nonempty; vm_compute; discriminate. }
  destruct parts as [|part parts']; [apply Hzh; vm_compute; discriminate|].
  apply join_nonempty. by apply Forall_cons in Hparts as [? _].
Qed.


(** *** The research interests *)

(** X15. [extractResearchInterests] returns at most three interests,
    without duplicates; each one is non-empty, has no white space at
    either end, and is the trimmed form of a technical skill, a project
    name or a project technology of the resume. *)
Theorem extractResearchInterests_listed parsedResume :
  let interests := extractResearchInterests toLowerCase parsedResume in
  let sources :=
    itemsOfCategory toLowerCase (js "technical") (skills parsedResume)
    ++ flat_map (fun proj => project_name proj :: technologies proj)
                (projects parsedResume) in
  length interests <= 3 /\
  NoDup interests /\
  forall interest, interest ∈ interests ->
    interest <> [] /\ JS.trim interest = interest /\
    exists source, source ∈ sources /\ interest = JS.trim source.
Proof.
  intros interests sources. subst interests. unfold extractResearchInterests.
  fold sources. split; [|split].
  - rewrite length_take. lia.
  - eapply sublist_NoDup; [apply uniq_NoDup|apply sublist_take].
  - intros interest Hin. apply elem_of_take in Hin as (i & Hin & _).
    apply list_elem_of_lookup_2 in Hin.
    apply uniq_elem_of in Hin as [Hin _].
    apply list_elem_of_filter in Hin as [Hlen Hin].
    apply list_elem_of_fmap in Hin as (source & -> & Hsource).
    apply list_elem_of_filter in Hsource as [_ Hsource].
    split; [intros Heq; rewrite Heq in Hlen; simpl in Hlen; lia|].
    split; [apply trim_trim|by exists source].
Qed.

(** *** The education assessment *)

Lemma distinctTexts_spec l :
  NoDup (distinctTexts l) /\
  forall x, x ∈ distinctTexts l <-> x <> [] /\ x ∈ l.
Proof.
  unfold distinctTexts. split; [apply uniq_NoDup|].
  intros x. rewrite uniq_elem_of, list_elem_of_filter.
  split; [tauto|]. intros [? ?]. split; [done|]. by intros ?%elem_of_nil.
Qed.

(** X16. The education assessment lists exactly the distinct
    non-empty institutions, degrees and majors of the education
    entries: no duplicates, no empty string, nothing that no entry
    has, and nothing left out. *)
Theorem educationAssessmentOf_distinct parsedResume :
  let assessment := educationAssessmentOf parsedResume in
  let listed := education parsedResume in
  NoDup (institutions assessment) /\ NoDup (degrees assessment) /\
  NoDup (majors assessment) /\
  (forall x, x ∈ institutions assessment <->
             x <> [] /\ exists edu, edu ∈ listed /\ institution edu = x) /\
  (forall x, x ∈ degrees assessment <->
             x <> [] /\ exists edu, edu ∈ listed /\ degree edu = x) /\
  (forall x, x ∈ majors assessment <->
             x <> [] /\ exists edu, edu ∈ listed /\ major edu = Some x).
Proof.
  simpl. unfold educationAssessmentOf. simpl.
  destruct (distinctTexts_spec (institution <$> education parsedResume)) as [N1 E1].
  destruct (distinctTexts_spec (degree <$> education parsedResume)) as [N2 E2].
  destruct (distinctTexts_spec (omap major (education parsedResume))) as [N3 E3].
  split; [done|]. split; [done|]. split; [done|].
  split; [|split].
  - intros x. rewrite E1, list_elem_of_fmap. split.
    + intros (? & edu & -> & ?). eauto.
    + intros (? & edu & ? & <-). eauto.
  - intros x. rewrite E2, list_elem_of_fmap. split.
    + intros (? & edu & -> & ?). eauto.
    + intros (? & edu & ? & <-). eauto.
  - intros x. rewrite E3, list_elem_of_omap. split.
    + intros (? & edu & ? & ?). eauto.
    + intros (? & edu & ? & ?). eauto.
Qed.

(** *** The experience assessment *)

Lemma determineIndustry_named workExperience skills :
  determineIndustry toLowerCase workExperience skills ∈ (fst <$> industryKeywords).
Proof.
  unfold determineIndustry, industryKeywords.
  cbn [find fst snd fmap list_fmap].
  repeat match goal with
         | |- context [if ?b then _ else _] => destruct b
         end; listed.
Qed.

(** X17. The experience assessment never says [lateral], and says
    [stable] with fewer than two experiences; its industries are
    distinct names of the table, at most one per experience; and it has
    at most five key achievements, each longer than ten code units and
    taken from the descriptions and achievements of the experiences. *)
Theorem experienceAssessmentOf_bounds parsedResume :
  let assessment := experienceAssessmentOf toLowerCase parsedResume in
  careerProgression assessment <> lateral /\
  (length (workExperience parsedResume) <= 1 -> careerProgression assessment = stable) /\
  NoDup (relevantIndustries assessment) /\
  (forall industry, industry ∈ relevantIndustries assessment ->
                    industry ∈ (fst <$> industryKeywords)) /\
  length (relevantIndustries assessment) <= length (workExperience parsedResume) /\
  length (keyAchievements assessment) <= 5 /\
  (forall achievement, achievement ∈ keyAchievements assessment ->
     10 < length achievement /\
     exists exp, exp ∈ workExperience parsedResume /\
                 achievement ∈ description exp ++ achievements exp).
Proof.
  simpl. unfold experienceAssessmentOf. simpl.
  split; [|split; [|split; [|split; [|split; [|split]]]]].
  - by repeat case_match.
  - intros Hle. destruct (Nat.ltb_spec 1 (length (workExperience parsedResume))); [lia|done].
  - apply uniq_NoDup.
  - intros industry Hin. apply uniq_elem_of in Hin as [Hin _].
    apply list_elem_of_fmap in Hin as (exp & -> & _). apply determineIndustry_named.
  - etransitivity; [|by rewrite <- (length_fmap (fun exp =>
        determineIndustry toLowerCase [exp] (skills parsedResume)))].
    apply sublist_length. clear. generalize (@nil jsstring).
    induction (_ <$> _) as [|x l IH]; intros seen; simpl; [done|].
    case_decide; [by apply sublist_cons|by apply sublist_skip].
  - rewrite length_take. lia.
  - intros achievement Hin. apply elem_of_take in Hin as (i & Hin & _).
    apply list_elem_of_lookup_2, list_elem_of_filter in Hin as [Hlen Hin].
    split; [done|].
    apply list_elem_of_In, in_flat_map in Hin as (exp & Hexp & Hin).
    exists exp. split; [|by apply list_elem_of_In].
    apply list_elem_of_In in Hexp. by rewrite sortedInPlace_perm in Hexp.
Qed.

(** *** The highlights *)

(** X18. [calculateOverallScore] shows at most six highlights.  The
    one about the years of experience is pushed last, after the six
    others: it is shown, at the end, when the years are positive and
    one of the other six is missing; when all six others are there (a
    technical strength, an industry, an ascending career, a degree, a
    key achievement and a soft skill), the cut to six drops it, and the
    highlights are the same whatever the years are. *)
Theorem highlightsOf_years language years skillsResult experienceResult educationResult :
  let others := allHighlights language 0 skillsResult experienceResult educationResult in
  let shown := highlightsOf language years skillsResult experienceResult educationResult in
  let yearsHighlight :=
    if decide (language = js "zh")
    then js "拥有" ++ JS.toStringZ years ++ js "年专业工作经验"
    else JS.toStringZ years ++ js " years of professional experience" in
  length shown <= 6 /\
  ((years <= 0)%Z -> shown = others) /\
  (length others < 6 -> (0 < years)%Z -> shown = others ++ [yearsHighlight]) /\
  (length others = 6 -> shown = others) /\
  (technicalSkills_strengths skillsResult <> [] ->
   relevantIndustries experienceResult <> [] ->
   careerProgression experienceResult = ascending ->
   degrees educationResult <> [] ->
   keyAchievements experienceResult <> [] ->
   softSkills_identified skillsResult <> [] ->
   length others = 6).
Proof.
  intros others shown yearsHighlight.
  subst others shown yearsHighlight. unfold highlightsOf, allHighlights.
  assert (Hlen : forall A (l : list A), l <> [] -> (0 <? length l) = true).
  { intros A l Hl. destruct l; [done|]. done. }
  split; [rewrite length_take; lia|].
  destruct (decide (language = js "zh")) as [Hzh|Hzh].
  - change (0 <? 0)%Z with false. cbv beta iota.
    match goal with
    | |- context [((if ?b1 then [?t1] else []) ++ (if ?b2 then [?t2] else [])
                   ++ (if ?b3 then [?t3] else []) ++ (if ?b4 then [?t4] else [])
                   ++ (if ?b5 then [?t5] else []) ++ (if ?b6 then [?t6] else []) ++ [])] =>
      set (c1 := b1); set (c2 := b2); set (c3 := b3);
      set (c4 := b4); set (c5 := b5); set (c6 := b6);
      generalize t1 t2 t3 t4 t5 t6; intros h1 h2 h3 h4 h5 h6
    end.
    split; [|split; [|split]].
    + intros Hy. apply Z.ltb_ge in Hy. rewrite Hy.
      destruct c1, c2, c3, c4, c5, c6; reflexivity.
    + intros Hl Hy. apply Z.ltb_lt in Hy. rewrite Hy.
      destruct c1, c2, c3, c4, c5, c6; simpl in Hl; try lia; reflexivity.
    + intros Hl. destruct (0 <? years)%Z;
        destruct c1, c2, c3, c4, c5, c6; simpl in Hl; try lia; reflexivity.
    + intros H1 H2 H3 H4 H5 H6. subst c1 c2 c3 c4 c5 c6.
      rewrite !Hlen by done. by rewrite H3.
  - change (0 <? 0)%Z with false. cbv beta iota.
    match goal with
    | |- context [((if ?b1 then [?t1] else []) ++ (if ?b2 then [?t2] else [])
                   ++ (if ?b3 then [?t3] else []) ++ (if ?b4 then [?t4] else [])
                   ++ (if ?b5 then [?t5] else []) ++ (if ?b6 then [?t6] else []) ++ [])] =>
      set (c1 := b1); set (c2 := b2); set (c3 := b3);
      set (c4 := b4); set (c5 := b5); set (c6 := b6);
      generalize t1 t2 t3 t4 t5 t6; intros h1 h2 h3 h4 h5 h6
    end.
    split; [|split; [|split]].
    + intros Hy. apply Z.ltb_ge in Hy. rewrite Hy.
      destruct c1, c2, c3, c4, c5, c6; reflexivity.
    + intros Hl Hy. apply Z.ltb_lt in Hy. rewrite Hy.
      destruct c1, c2, c3, c4, c5, c6; simpl in Hl; try lia; reflexivity.
    + intros Hl. destruct (0 <? years)%Z;
        destruct c1, c2, c3, c4, c5, c6; simpl in Hl; try lia; reflexivity.
    + intros H1 H2 H3 H4 H5 H6. subst c1 c2 c3 c4 c5 c6.
      rewrite !Hlen by done. by rewrite H3.
Qed.

(** *** Keywords and word boundaries *)

Lemma exec_bounded_None keyword prev text :
  JS.isWord prev = false ->
  Forall (fun c => JS.isWord (Some c) = false) text ->
  JS.exec true (keywordPattern keyword) prev text = None.
Proof.
  intros Hprev Htext. revert prev Hprev.
  induction Htext as [|c text Hc _ IH]; intros prev Hprev.
  - simpl. by rewrite Hprev.
  - cbn [JS.exec keywordPattern JS.run head]. rewrite Hprev, Hc. simpl.
    by apply IH.
Qed.

Lemma countKeywords_zero text keywords :
  Forall (fun c => JS.isWord (Some c) = false) text ->
  countKeywords text keywords = 0%Z.
Proof.
  intros Htext. unfold countKeywords.
  enough (Hall : forall count,
            fold_left (fun count keyword =>
                         (count + Z.of_nat (length (JS.matchAll true (keywordPattern keyword)
                                                                text)))%Z)
                      keywords count = count) by apply Hall.
  assert (H : forall keyword, JS.matchAll true (keywordPattern keyword) text = []).
  { intros keyword. unfold JS.matchAll. cbn [JS.matchAll_from].
    by rewrite exec_bounded_None. }
  induction keywords as [|keyword keywords IH]; intros count; simpl; [done|].
  rewrite H. simpl. rewrite Z.add_0_r. apply IH.
Qed.

(** X19. Every keyword is searched between two word boundaries, and a
    boundary needs an ASCII letter, digit or underscore on one side.
    In a text without any of these, a text in Chinese without Latin
    letters or digits for instance, no keyword is ever counted: all the
    scores are 0 and the tag is [developer] if one of the strong
    literals occurs and [practitioner] otherwise. *)
Theorem determineAITag_without_word_characters resumeText parsedResume :
  let text := allText toLowerCase resumeText parsedResume in
  Forall (fun c => JS.isWord (Some c) = false) text ->
  (forall keywords, countKeywords text keywords = 0%Z) /\
  determineAITag toLowerCase resumeText parsedResume
  = if hasStrongDevIndicator toLowerCase text then developer else practitioner.
Proof.
  intros text Htext.
  pose proof (countKeywords_zero text) as Hzero.
  split; [intros keywords; by apply Hzero|].
  unfold determineAITag. fold text. unfold maxScore, scores.
  rewrite !Hzero by done. simpl. by destruct (hasStrongDevIndicator _ _).
Qed.

(** *** The professional profile *)

Abbreviation years_of := (calculateYearsOfExperience toLowerCase currentYear currentMonth).

Lemma firstStated_range matches years :
  firstStated matches = Some years -> (0 < years <= 20)%Z.
Proof.
  induction matches as [|m matches IH]; simpl; [done|].
  destruct ((0 <? statedYears m) && (statedYears m <=? 20))%Z eqn:Ht; [|done].
  intros [= <-]. apply andb_true_iff in Ht as [H1 H2]. lia.
Qed.

Lemma calculateYearsOfExperience_range resumeText workExperience :
  (0 <= years_of resumeText workExperience <= 20)%Z.
Proof.
  unfold calculateYearsOfExperience. case_decide; [lia|].
  destruct (firstStated _) as [years|] eqn:Hf.
  - apply firstStated_range in Hf. lia.
  - repeat case_match; lia.
Qed.

Lemma translatePosition_nonempty position language :
  position <> [] -> translatePosition position language <> [].
Proof.
  intros Hne. unfold translatePosition.
  case_decide; (destruct (assoc position _) as [[|c r]|]; simpl; done).
Qed.

Lemma generateRoleFromSkills_nonempty skills language :
  generateRoleFromSkills toLowerCase skills language <> [].
Proof.
  unfold generateRoleFromSkills.
  repeat match goal with
         | |- context [if ?b then _ else _] => destruct b
         end; vm_compute; discriminate.
Qed.

Lemma addRole_invariant language roles exp :
  NoDup roles /\ Forall (fun role => role <> []) roles ->
  NoDup (addRole language roles exp) /\
  Forall (fun role => role <> []) (addRole language roles exp).
Proof.
  intros [Hnd Hne]. unfold addRole.
  destruct (position exp) as [|c p] eqn:Hp; [done|].
  case_bool_decide as Hin; [done|]. split.
  - apply NoDup_app. split; [done|]. split; [|apply NoDup_singleton].
    intros x Hx ->%list_elem_of_singleton. done.
  - apply Forall_app. split; [done|]. constructor; [|done].
    by apply translatePosition_nonempty.
Qed.

Lemma titleRolesOf_invariant parsedResume language :
  let roles := titleRolesOf toLowerCase parsedResume language in
  roles <> [] /\ NoDup roles /\ Forall (fun role => role <> []) roles.
Proof.
  simpl. unfold titleRolesOf.
  set (fromExperience := match last (workExperience parsedResume) with
                         | Some recentExp => _
                         | None => []
                         end).
  assert (H : NoDup fromExperience /\ Forall (fun role => role <> []) fromExperience).
  { subst fromExperience. destruct (last (workExperience parsedResume)) as [recentExp|].
    2:{ split; [constructor|constructor]. }
    assert (H0 : NoDup (match position recentExp with
                        | [] => []
                        | _ :: _ => [translatePosition (position recentExp) language]
                        end) /\
                 Forall (fun role => role <> [])
                        (match position recentExp with
                         | [] => []
                         | _ :: _ => [translatePosition (position recentExp) language]
                         end)).
    { destruct (position recentExp) eqn:Hp.
      - split; constructor.
      - split; [apply NoDup_singleton|].
        constructor; [|done]. rewrite <- Hp. apply translatePosition_nonempty.
        by rewrite Hp. }
    revert H0. generalize (match position recentExp with
                           | [] => []
                           | _ :: _ => [translatePosition (position recentExp) language]
                           end).
    induction (workExperience parsedResume) as [|exp l IH]; intros roles H0; [done|].
    simpl. apply IH. by apply addRole_invariant. }
  clearbody fromExperience. destruct fromExperience as [|role roles].
  - pose proof (generateRoleFromSkills_nonempty (skills parsedResume) language) as Hne.
    destruct (generateRoleFromSkills _ _ _) as [|c r] eqn:Hrole; [done|].
    split; [done|]. split; [apply NoDup_singleton|]. by repeat constructor.
  - split; [done|]. done.
Qed.

(** X20. Whatever the resume, the profile has a non-empty name,
    between one and three title roles, distinct and non-empty, a
    non-empty affiliation, an industry of the table, between 0 and 20
    years of experience, a non-empty education line and description, at
    most three research interests, and no Twitter handle or photo.
    (The positions do not name members of [Object.prototype].) *)
Theorem professionalProfileOf_invariants resumeText language parsedResume :
  Forall (fun exp => ordinary (position exp)) (workExperience parsedResume) ->
  let profile :=
    professionalProfileOf toLowerCase currentYear currentMonth resumeText language
                          parsedResume in
  profile_name profile <> [] /\
  1 <= length (title_roles profile) <= 3 /\
  NoDup (title_roles profile) /\
  (forall role, role ∈ title_roles profile -> role <> []) /\
  affiliation profile <> [] /\
  industry profile ∈ (fst <$> industryKeywords) /\
  (0 <= years_of_experience profile <= 20)%Z /\
  latest_education profile <> [] /\
  profile_description profile <> [] /\
  length (research_interests profile) <= 3 /\
  twitter profile = None /\ photo_url profile = None.
Proof.
  intros _. simpl.
  assert (Hor : forall x a b : jsstring, a <> [] -> b <> [] ->
            JS.orString (Some x) (if bool_decide (language = js "zh") then a else b) <> []).
  { intros x a b Ha Hb. destruct x; simpl; [by case_bool_decide|done]. }
  destruct (titleRolesOf_invariant parsedResume language) as (Hne & Hnd & Hall).
  split; [apply Hor; vm_compute; discriminate|].
  split.
  { rewrite length_take. destruct (titleRolesOf _ _ _); [done|]. cbn [length]. lia. }
  split; [eapply sublist_NoDup; [exact Hnd|apply sublist_take]|].
  split.
  { intros role Hin. apply elem_of_take in Hin as (i & Hin & _).
    rewrite Forall_forall in Hall. eapply Hall, list_elem_of_lookup_2, Hin. }
  split; [apply Hor; vm_compute; discriminate|].
  split.
  { destruct (last (workExperience parsedResume)); simpl; [|listed].
    pose proof (determineIndustry_named (workExperience parsedResume) (skills parsedResume)).
    destruct (determineIndustry _ _ _); [listed|done]. }
  split; [apply calculateYearsOfExperience_range|].
  split; [apply generateLatestEducation_nonempty|].
  split.
  { unfold generateProfessionalDescription.
    destruct (match last (workExperience parsedResume) with
              | Some recentExp => _
              | None => _
              end) as [recentPosition recentCompany].
    case_decide; apply literal_app_nonempty; vm_compute; discriminate. }
  split; [unfold extractResearchInterests; rewrite length_take; lia|].
  done.
Qed.

(** *** The order the experience stage leaves *)

(** X23. When every start date begins with a number, the experience
    stage leaves in the first step a resume whose experiences are in
    ascending order of start year and are the experiences it found
    there, re-ordered; the other fields of the resume are as they
    were. *)
Theorem assessExperience_orders s c j step0 parsedResume :
  ST.find_step (js "step-0") (ST.steps c) = Some (j, step0) ->
  ST.result step0 = Some (VParsedResume parsedResume) ->
  Forall (fun exp => is_Some (JS.parseInt (startDate exp))) (workExperience parsedResume) ->
  exists stored,
    parsedResumeIn (assessExperience toLowerCase s c).1 = Some stored /\
    JS.ascending startYearOf (workExperience stored) /\
    workExperience stored ≡ₚ workExperience parsedResume /\
    stored = set_workExperience (workExperience stored) parsedResume.
Proof.
  intros Hfind Hres Hparse.
  destruct (assessExperience_effect toLowerCase s c j step0 parsedResume Hfind Hres)
    as (step0' & Hfind' & Hres' & Hperm).
  exists (set_workExperience (sortedInPlace (workExperience parsedResume)) parsedResume).
  split; [|split; [|split; [exact Hperm|reflexivity]]].
  - unfold parsedResumeIn, stepResult. by rewrite Hfind', Hres'.
  - cbn [workExperience set_workExperience].
    unfold sortedInPlace. case_match eqn:Hlen.
    + rewrite (sort_ext byStartYear (fun a b => (startYearOf a - startYearOf b)%Z)).
      * by apply sort_ascending.
      * intros a b Ha Hb. rewrite Forall_forall in Hparse.
        destruct (Hparse a Ha) as [x Hx], (Hparse b Hb) as [y Hy].
        unfold byStartYear, startYearOf. by rewrite Hx, Hy.
    + destruct (workExperience parsedResume) as [|a [|b l]];
        [constructor|repeat constructor|done].
Qed.

End AnalyzerMore.

(** ** The whole analysis *)

Section Pipeline.

Import ResumeAnalyzer AnalyzerSamples.

Variable toLowerCase : jsstring -> jsstring.
Variable currentYear currentMonth : Z.
Variable now : nat -> Z.


(** The metadata [analyzeResume] stores before the run. *)
Lemma analysis_unfold stages job resumeText (w : ST.World Value) :
  let value := match job with Some t => VString t | None => VUndefined end in
  let w3 :=
    (ST.updateMetadata (js "language") (VString (languageTag (detectLanguage resumeText)))
       (ST.updateMetadata (js "targetJob") value
          (ST.updateMetadata (js "resumeText") (VString resumeText) w).2).2).2 in
  analysis now stages job resumeText w
  = match ST.executeAll now (executorsOf stages) w3 with
    | (ST.Ret _, w4) =>
      (ST.Ret (mkResult (stepResult (js "step-1") (ST.context w4))
                        (stepResult (js "step-2") (ST.context w4))
                        (stepResult (js "step-3") (ST.context w4))
                        (stepResult (js "step-4") (ST.context w4))
                        (stepResult (js "step-5") (ST.context w4))
                        (detectLanguage resumeText)), w4)
    | (ST.Throw message, w4) => (ST.Throw message, w4)
    end.
Proof.
  simpl. unfold analysis.
  unfold ST.bind at 1 2 3. unfold ST.updateMetadata at 1 2 3.
  unfold ST.bind at 1 2 3. unfold ST.get, ST.put. cbn [fst snd].
  unfold ST.bind at 1.
  destruct (ST.executeAll _ _ _) as [[[]|message] w4]; reflexivity.
Qed.

(** X22. An analyzer is good for one analysis.  Once all its steps
    are completed, [analyzeResume] on another text runs no stage and
    calls no observer: it returns the assessments the steps already
    hold, under the language detected from the new text. *)
Theorem analyzeResume_on_completed_steps stages resumeText a :
  (forall p s, ST.steps (ST.context (thinking a)) !! p = Some s ->
               ST.status s = ST.Completed) ->
  let run := analyzeResume now stages resumeText a in
  exists r,
    run.1 = ST.Ret r /\
    analysisResult run.2 = Some r /\
    result_language r = detectLanguage resumeText /\
    ST.Ret (professionalProfile r) = (ST.getStepResult (js "step-1") (thinking a)).1 /\
    ST.Ret (skillAssessment r) = (ST.getStepResult (js "step-2") (thinking a)).1 /\
    ST.Ret (experienceAssessment r) = (ST.getStepResult (js "step-3") (thinking a)).1 /\
    ST.Ret (educationAssessment r) = (ST.getStepResult (js "step-4") (thinking a)).1 /\
    ST.Ret (overallAssessment r) = (ST.getStepResult (js "step-5") (thinking a)).1 /\
    ST.steps (ST.context (thinking run.2)) = ST.steps (ST.context (thinking a)) /\
    ST.updates (thinking run.2) = ST.updates (thinking a).
Proof.
  intros Hdone run. subst run. unfold analyzeResume.
  rewrite analysis_unfold. cbv zeta.
  match goal with
  | |- context [ST.executeAll _ _ ?w] => set (w3 := w)
  end.
  assert (Hsteps : ST.steps (ST.context w3) = ST.steps (ST.context (thinking a))) by done.
  assert (Hup : ST.updates w3 = ST.updates (thinking a)) by done.
  assert (Hall : ST.executeAll now (executorsOf stages) w3 = (ST.Ret tt, w3)).
  { rewrite executeAll_unfold.
    rewrite <- (Nat.add_0_r (length (ST.steps (ST.context w3)))).
    rewrite executeAll_from_skip; [done|].
    intros q Hq. rewrite Hsteps in *.
    destruct (ST.steps (ST.context (thinking a)) !! q) as [s|] eqn:Hs.
    - simpl. by rewrite (Hdone q s Hs).
    - apply lookup_ge_None in Hs. lia. }
  clearbody w3. rewrite Hall. cbn [fst snd analysisResult thinking].
  eexists. split; [reflexivity|]. split; [reflexivity|]. split; [reflexivity|].
  cbn [professionalProfile skillAssessment experienceAssessment educationAssessment
       overallAssessment].
  unfold stepResult, ST.getStepResult, ST.bind, ST.get, ST.ret. cbn [fst snd].
  rewrite Hsteps. repeat split; done.
Qed.

End Pipeline.

(** *** Instances on the sample resumes *)

Section AnalyzerMoreSamples.

Import ResumeAnalyzer AnalyzerSamples.

(** Absence from a list that is written out. *)
Ltac unlisted H :=
  repeat (apply elem_of_cons in H as [H|H]; [vm_compute in H; discriminate|]);
  by apply elem_of_nil in H.

Lemma translatePosition_round_trip_witness :
  (js "高级工程师", js "Senior Engineer") ∈ chineseToEnglish /\
  js "en" <> js "zh" /\
  translatePosition (js "高级工程师") (js "en") = js "Senior Engineer" /\
  translatePosition (translatePosition (js "高级工程师") (js "en")) (js "zh")
  = js "资深工程师".
Proof.
  assert (Hin : (js "高级工程师", js "Senior Engineer") ∈ chineseToEnglish)
    by (unfold chineseToEnglish; listed).
  assert (Hlang : js "en" <> js "zh") by (vm_compute; discriminate).
  pose proof (translatePosition_round_trip (js "高级工程师") (js "Senior Engineer")
                (js "en") Hin Hlang) as (H1 & _ & H3 & _).
  split; [exact Hin|]. split; [exact Hlang|]. split; [exact H1|].
  rewrite H3. vm_compute. reflexivity.
Defined.

Lemma translatePosition_unknown_witness :
  ordinary (js "Senior Frontend Engineer") /\
  translatePosition (js "Senior Frontend Engineer") (js "zh")
  = js "Senior Frontend Engineer".
Proof.
  assert (Hord : ordinary (js "Senior Frontend Engineer")).
  { intros H. unfold objectPrototypeNames in H. unlisted H. }
  assert (Hout : forall chinese english,
            (chinese, english) ∈ chineseToEnglish ->
            js "Senior Frontend Engineer" <> chinese /\
            js "Senior Frontend Engineer" <> english).
  { intros chinese english H. unfold chineseToEnglish in H.
    repeat (apply elem_of_cons in H as [H|H];
            [injection H as -> ->; split; vm_compute; discriminate|]).
    by apply elem_of_nil in H. }
  split; [exact Hord|].
  exact (translatePosition_unknown (js "Senior Frontend Engineer") (js "zh") Hord Hout).
Defined.

Lemma generateRoleFromSkills_javascript_witness :
  js "JavaScript" ∈ itemsOfCategory JS.asciiLower (js "technical") webSkills /\
  JS.includes (JS.asciiLower (js "JavaScript")) (js "javascript") = true /\
  generateRoleFromSkills JS.asciiLower webSkills (js "en") = js "Full Stack Engineer".
Proof.
  assert (Hin : js "JavaScript" ∈ itemsOfCategory JS.asciiLower (js "technical") webSkills).
  { replace (itemsOfCategory JS.asciiLower (js "technical") webSkills)
      with [js "JavaScript"; js "React"] by (vm_compute; reflexivity).
    listed. }
  assert (Hjs : JS.includes (JS.asciiLower (js "JavaScript")) (js "javascript") = true)
    by (vm_compute; reflexivity).
  pose proof (generateRoleFromSkills_javascript JS.asciiLower webSkills (js "en")
                (js "JavaScript") Hin Hjs) as H.
  split; [exact Hin|]. split; [exact Hjs|].
  cbv zeta in H. rewrite decide_False in H by (vm_compute; discriminate).
  destruct H as [H|H]; [|exact H].
  exfalso. vm_compute in H. discriminate.
Defined.

Lemma determineAITag_without_word_characters_witness :
  let text := js "我是创始人，也做研究。" in
  Forall (fun c => JS.isWord (Some c) = false) (allText JS.asciiLower text (resumeOf [])) /\
  countKeywords (allText JS.asciiLower text (resumeOf [])) founderKeywords = 0%Z /\
  determineAITag JS.asciiLower text (resumeOf []) = practitioner.
Proof.
  intros text.
  assert (Htext : Forall (fun c => JS.isWord (Some c) = false)
                         (allText JS.asciiLower text (resumeOf []))).
  { replace (allText JS.asciiLower text (resumeOf [])) with text
      by (vm_compute; reflexivity).
    vm_compute. repeat constructor. }
  pose proof (determineAITag_without_word_characters JS.asciiLower text (resumeOf [])
                Htext) as [Hcount Htag].
  split; [exact Htext|]. split; [apply Hcount|].
  rewrite Htag. vm_compute. reflexivity.
Defined.

Lemma ordinary_positions :
  Forall (fun exp => ordinary (position exp)) (workExperience webResume).
Proof.
  repeat constructor; intros H; unfold objectPrototypeNames in H; simpl in H; unlisted H.
Qed.

Lemma professionalProfileOf_invariants_witness :
  let profile :=
    professionalProfileOf JS.asciiLower thisYear thisMonth (js "Jane Doe") (js "en")
                          webResume in
  Forall (fun exp => ordinary (position exp)) (workExperience webResume) /\
  title_roles profile = [js "Junior Engineer"; js "Senior Engineer"] /\
  NoDup (title_roles profile) /\
  affiliation profile = js "Acme Inc" /\
  (0 <= years_of_experience profile <= 20)%Z /\
  latest_education profile = js "Education not specified".
Proof.
  intros profile.
  pose proof (professionalProfileOf_invariants JS.asciiLower thisYear thisMonth
                (js "Jane Doe") (js "en") webResume ordinary_positions)
    as (_ & _ & Hnd & _ & _ & _ & Hyears & _).
  split; [exact ordinary_positions|]. split; [vm_compute; reflexivity|].
  split; [exact Hnd|]. split; [vm_compute; reflexivity|].
  split; [exact Hyears|]. vm_compute. reflexivity.
Defined.


Lemma completed_steps :
  forall p s, ST.steps (ST.context (thinking completed)) !! p = Some s ->
              ST.status s = ST.Completed.
Proof.
  assert (H : ST.status <$> ST.steps (ST.context (thinking completed))
              = [ST.Completed; ST.Completed; ST.Completed; ST.Completed; ST.Completed;
                 ST.Completed]) by (vm_compute; reflexivity).
  intros p s Hp.
  assert (Hs : (ST.status <$> ST.steps (ST.context (thinking completed))) !! p
               = Some (ST.status s)) by (rewrite list_lookup_fmap, Hp; done).
  rewrite H in Hs.
  do 6 (destruct p as [|p]; [by injection Hs|]). done.
Qed.

Lemma analyzeResume_on_completed_steps_witness :
  let run := analyzeResume Samples.ticking failingProfile (js "这是另一份简历") completed in
  (forall p s, ST.steps (ST.context (thinking completed)) !! p = Some s ->
               ST.status s = ST.Completed) /\
  exists r,
    run.1 = ST.Ret r /\
    result_language r = zh /\
    professionalProfile r = Some (VProfessionalProfile noProfile) /\
    ST.updates (thinking run.2) = ST.updates (thinking completed).
Proof.
  intros run.
  destruct (analyzeResume_on_completed_steps Samples.ticking failingProfile
              (js "这是另一份简历") completed completed_steps)
    as (r & Hret & _ & Hlang & Hprofile & _ & _ & _ & _ & _ & Hup).
  split; [exact completed_steps|].
  exists r. split; [exact Hret|]. split; [rewrite Hlang; vm_compute; reflexivity|].
  split; [|exact Hup].
  assert (H : (ST.getStepResult (js "step-1") (thinking completed)).1
              = ST.Ret (Some (VProfessionalProfile noProfile)))
    by (vm_compute; reflexivity).
  rewrite H in Hprofile. by injection Hprofile.
Defined.

Lemma assessExperience_orders_witness :
  let step0 := default (ST.mkStep [] [] [] ST.Pending None None 0)
                       (ST.steps (ST.context parsed) !! 0) in
  let after := (assessExperience JS.asciiLower step0 (ST.context parsed)).1 in
  ST.find_step (js "step-0") (ST.steps (ST.context parsed)) = Some (0, step0) /\
  ST.result step0 = Some (VParsedResume (resumeOf recentFirst)) /\
  Forall (fun exp => is_Some (JS.parseInt (startDate exp)))
         (workExperience (resumeOf recentFirst)) /\
  exists stored,
    parsedResumeIn after = Some stored /\
    (startYearOf <$> workExperience stored) = [2015; 2020]%Z /\
    JS.ascending startYearOf (workExperience stored).
Proof.
  intros step0 after.
  assert (Hfind : ST.find_step (js "step-0") (ST.steps (ST.context parsed))
                  = Some (0, step0)) by (vm_compute; reflexivity).
  assert (Hres : ST.result step0 = Some (VParsedResume (resumeOf recentFirst)))
    by (vm_compute; reflexivity).
  assert (Hparse : Forall (fun exp => is_Some (JS.parseInt (startDate exp)))
                          (workExperience (resumeOf recentFirst))).
  { repeat constructor; vm_compute; by eexists. }
  destruct (assessExperience_orders JS.asciiLower step0 (ST.context parsed) 0 step0
              (resumeOf recentFirst) Hfind Hres Hparse)
    as (stored & Hstored & Hsorted & _ & _).
  split; [exact Hfind|]. split; [exact Hres|]. split; [exact Hparse|].
  exists stored. split; [exact Hstored|]. split; [|exact Hsorted].
  assert (H : parsedResumeIn after
              = Some (resumeOf (reverse recentFirst))) by (vm_compute; reflexivity).
  unfold after in H. rewrite H in Hstored. injection Hstored as <-.
  vm_compute. reflexivity.
Defined.

End AnalyzerMoreSamples.
